(** * go-car v2: read-only block store, index generation and CARv2 writer

    A shallow embedding of [v2/blockstore/readonly.go], [v2/index/generator.go]
    and [v2/writer.go], with the byte-level framing they rely on, and the
    properties of the specification stated over it. *)

From Stdlib Require Import ZArith Lia Bool.
From Stdlib Require Import Strings.Byte.
From stdpp Require Import base option list gmap strings.

Local Open Scope Z_scope.

(** ** Errors

    Go's [error] values that the modelled code creates or passes on. *)

Inductive error : Type :=
| EOF                      (* io.EOF *)
| ErrUnexpectedEOF         (* io.ErrUnexpectedEOF *)
| errOverflow              (* encoding/binary: varint overflows a 64-bit integer *)
| ErrNegativeOffset        (* ReadAt called with a negative offset *)
| ErrNotFound              (* NotFound *)
| errUnsupported           (* errors.New("unsupported operation") *)
| ErrNotCarV2              (* prefix mismatch *)
| ErrInvalidHeader         (* malformed CARv1 or CARv2 header *)
| ErrInvalidFrame          (* frame length inconsistent with its CID *)
| ErrDuplicateKey          (* duplicate key while bulk-loading an index *)
| ErrNoSuchFile            (* the path cannot be opened *)
| ErrIo (msg : string)     (* any other failure of the byte source or sink *)
| Wrapped (ctx : string) (e : error).  (* fmt.Errorf("ctx: %w", e) *)

#[global] Instance error_eq_dec : EqDecision error.
Proof. solve_decision. Defined.

Inductive result (A : Type) : Type :=
| Ok (a : A)
| Err (e : error).
Arguments Ok {A} a.
Arguments Err {A} e.

(** ** Machine integers *)

Definition uint64 (z : Z) : Z := z mod 2 ^ 64.
Definition int64 (z : Z) : Z := (z + 2 ^ 63) mod 2 ^ 64 - 2 ^ 63.

Definition byte_to_Z (b : byte) : Z := Z.of_N (Byte.to_N b).
Definition byte_of_Z (z : Z) : byte :=
  match Byte.of_N (Z.to_N (z mod 256)) with
  | Some b => b
  | None => x00
  end.

(** ** Byte sources

    [io.ReaderAt]: [ReadAt r n off] reads up to [n] bytes at offset [off]; it
    returns the bytes read and the error, if any. *)

Class ReaderAt (R : Type) := ReadAt : R -> nat -> Z -> list byte * option error.

(** A byte slice as a reader ([bytes.Reader]): a negative offset is an
    error, an offset at or past the end is [EOF], and a short read is
    reported with [EOF]. *)
#[global] Instance bytes_ReaderAt : ReaderAt (list byte) := fun data n off =>
  if off <? 0 then ([], Some ErrNegativeOffset)
  else if Z.of_nat (length data) <=? off then ([], Some EOF)
  else
    let bs := take n (drop (Z.to_nat off) data) in
    (bs, if (length bs <? n)%nat then Some EOF else None).

(** [internalio.OffsetReader]: a read position over a [ReaderAt]. *)
Record OffsetReader (R : Type) : Type := mkOffsetReader { rd_r : R; rd_off : Z }.
Arguments mkOffsetReader {R} rd_r rd_off.
Arguments rd_r {R} _.
Arguments rd_off {R} _.

Section OffsetReader.
Context {R : Type} `{ReaderAt R}.

Definition NewOffsetReader (r : R) (at_ : Z) : OffsetReader R :=
  mkOffsetReader r at_.

Definition Read (o : OffsetReader R) (n : nat)
  : list byte * option error * OffsetReader R :=
  let '(bs, err) := ReadAt (rd_r o) n (rd_off o) in
  (bs, err, mkOffsetReader (rd_r o) (int64 (rd_off o + Z.of_nat (length bs)))).

Definition ReadByte (o : OffsetReader R) : byte * option error * OffsetReader R :=
  let '(bs, err, o') := Read o 1 in
  (match bs with b :: _ => b | [] => x00 end, err, o').

Definition Offset (o : OffsetReader R) : Z := rd_off o.

Definition SeekOffset (o : OffsetReader R) (off : Z) : OffsetReader R :=
  mkOffsetReader (rd_r o) off.

(** [binary.ReadUvarint]: at most [MaxVarintLen64 = 10] bytes, seven bits
    each, low group first; [n] is the number of iterations left, [i] the
    loop counter, [x] the accumulator and [s] the shift. *)
Fixpoint ReadUvarint_loop (n : nat) (i x s : Z) (o : OffsetReader R)
  : Z * option error * OffsetReader R :=
  match n with
  | O => (x, Some errOverflow, o)
  | S n' =>
    let '(b, err, o') := ReadByte o in
    match err with
    | Some e =>
      (x, Some (if (0 <? i) && bool_decide (e = EOF) then ErrUnexpectedEOF else e), o')
    | None =>
      let b := byte_to_Z b in
      if b <? 0x80 then
        if (i =? 9) && (1 <? b) then (x, Some errOverflow, o')
        else (Z.lor x (uint64 (Z.shiftl b s)), None, o')
      else
        ReadUvarint_loop n' (i + 1)
          (Z.lor x (uint64 (Z.shiftl (Z.land b 0x7f) s))) (s + 7) o'
    end
  end.

Definition MaxVarintLen64 : nat := 10.

Definition ReadUvarint (o : OffsetReader R) : Z * option error * OffsetReader R :=
  ReadUvarint_loop MaxVarintLen64 0 0 0 o.
End OffsetReader.

(** [binary.PutUvarint]: the encoder that produced the varints on disk. A
    64-bit value needs at most nine continuation bytes. *)
Fixpoint PutUvarint_loop (n : nat) (x : Z) : list byte :=
  match n with
  | O => [byte_of_Z x]
  | S n' =>
    if 0x80 <=? x
    then byte_of_Z (Z.lor x 0x80) :: PutUvarint_loop n' (Z.shiftr x 7)
    else [byte_of_Z x]
  end.

Definition PutUvarint (x : Z) : list byte := PutUvarint_loop 9 (uint64 x).

(** ** Content identifiers

    A CID is a version, a content codec and a multihash (hash code and
    digest). Two CIDs are equal when all four agree, which is what
    [cid.Cid.Equals] decides on the canonical byte string. *)

Record Cid : Type := mkCid {
  cid_version : Z;
  cid_codec : Z;
  mh_code : Z;
  mh_digest : list byte
}.

#[global] Instance byte_eq_dec : EqDecision byte := Byte.byte_eq_dec.
#[global] Instance Cid_eq_dec : EqDecision Cid.
Proof. solve_decision. Defined.

Definition Equals (c k : Cid) : bool := bool_decide (c = k).

(** The serialized CID: version, codec, hash code and digest length as
    varints, then the digest. *)
Definition cid_bytes (c : Cid) : list byte :=
  PutUvarint (cid_version c) ++ PutUvarint (cid_codec c) ++
  PutUvarint (mh_code c) ++ PutUvarint (Z.of_nat (length (mh_digest c))) ++
  mh_digest c.

(** [util.LdWrite]: one length-prefixed section, here a frame
    [varint(total_len) || cid_bytes || block_bytes]. *)
Definition LdWrite (parts : list (list byte)) : list byte :=
  let body := concat parts in
  PutUvarint (Z.of_nat (length body)) ++ body.

Definition frame_bytes (blk : Cid * list byte) : list byte :=
  LdWrite [cid_bytes (fst blk); snd blk].

Arguments PutUvarint : simpl never.
Arguments cid_bytes : simpl never.
Arguments LdWrite : simpl never.
Arguments frame_bytes : simpl never.

(** [util.LdSize]: the on-disk size of a section with body [d]. *)
Definition LdSize (d : list byte) : Z :=
  Z.of_nat (length (PutUvarint (Z.of_nat (length d)))) + Z.of_nat (length d).

Section Framing.
Context {R : Type} `{ReaderAt R}.

(** [io.ReadFull] over an offset reader. A [ReaderAt] reports an error
    whenever it returns fewer bytes than asked for, so one [Read] decides. *)
Definition ReadFull (o : OffsetReader R) (n : nat)
  : list byte * option error * OffsetReader R :=
  match n with
  | O => ([], None, o)
  | _ =>
    let '(bs, err, o') := Read o n in
    if (n <=? length bs)%nat then (bs, None, o')
    else
      match err with
      | Some e =>
        (bs, Some (if (0 <? length bs)%nat && bool_decide (e = EOF)
                   then ErrUnexpectedEOF else e), o')
      | None => (bs, Some ErrUnexpectedEOF, o')
      end
  end.

(** Modelled from the spec: [internalio.ReadCid] is not among the sources.
    §4.1: a CID is parsed by reading its version varint, codec varint,
    multihash-code varint, digest-length varint, then digest-length bytes,
    and returned with the number of bytes consumed. *)
Definition ReadCid (store : R) (at_ : Z) : result (Cid * Z) :=
  let br := NewOffsetReader store at_ in
  let '(vers, err, br) := ReadUvarint br in
  match err with Some e => Err e | None =>
  let '(codec, err, br) := ReadUvarint br in
  match err with Some e => Err e | None =>
  let '(code, err, br) := ReadUvarint br in
  match err with Some e => Err e | None =>
  let '(dlen, err, br) := ReadUvarint br in
  match err with Some e => Err e | None =>
  let '(digest, err, br) := ReadFull br (Z.to_nat dlen) in
  match err with Some e => Err e | None =>
  Ok (mkCid vers codec code digest, Offset br - at_)
  end end end end end.

(** Modelled from the spec: [util.LdRead] is not among the sources. §4.2:
    a section is a varint length followed by that many bytes. *)
Definition LdRead (o : OffsetReader R) : result (list byte) * OffsetReader R :=
  let '(l, err, o) := ReadUvarint o in
  match err with
  | Some e => (Err e, o)
  | None =>
    let '(buf, err, o) := ReadFull o (Z.to_nat l) in
    match err with
    | Some e => (Err e, o)
    | None => (Ok buf, o)
    end
  end.

(** Modelled from the spec: [util.ReadNode] is not among the sources. §4.2
    [read_frame]: read varint [L]; let [p] be the position after the
    varint; read the CID starting at [p], consuming [k] bytes; the payload
    is the next [L - k] bytes. A length shorter than the CID is an invalid
    frame (§7). *)
Definition ReadNode (o : OffsetReader R) : result (Cid * list byte) :=
  let '(L, err, o) := ReadUvarint o in
  match err with Some e => Err e | None =>
  let p := Offset o in
  match ReadCid (rd_r o) p with
  | Err e => Err e
  | Ok (c, k) =>
    if L <? k then Err ErrInvalidFrame
    else
      let '(payload, err, _) := ReadFull (SeekOffset o (int64 (p + k))) (Z.to_nat (L - k)) in
      match err with Some e => Err e | None => Ok (c, payload) end
  end end.
End Framing.

(** ** CARv1 header *)

Record CarHeader : Type := mkCarHeader { Roots : list Cid; Version : Z }.

(** The header body is DAG-CBOR; the codec is not among the sources and is
    taken as a parameter: [DumpObject] serializes, [DecodeInto] parses. *)
Class HeaderCodec : Type := {
  DumpObject : CarHeader -> result (list byte);
  DecodeInto : list byte -> result CarHeader
}.

Section CarV1.
Context {R : Type} `{ReaderAt R} `{HeaderCodec}.

(** Modelled from the spec: [carv1.ReadHeader] is not among the sources.
    §4.2: read one varint-length-prefixed block whose decoded body yields
    the header; fail with InvalidHeader if the version is not 1 or the body
    does not parse. *)
Definition ReadHeader (o : OffsetReader R) : result CarHeader :=
  match fst (LdRead o) with
  | Err e => Err e
  | Ok hb =>
    match DecodeInto hb with
    | Err _ => Err ErrInvalidHeader
    | Ok h => if Version h =? 1 then Ok h else Err ErrInvalidHeader
    end
  end.

(** Modelled from the spec: [carv1.HeaderSize] is not among the sources.
    §4.2: the on-disk length of the serialized header. *)
Definition HeaderSize (h : CarHeader) : result Z :=
  match DumpObject h with
  | Err e => Err e
  | Ok hb => Ok (uint64 (LdSize hb))
  end.
End CarV1.

(** [bufio.NewReader] (Go's standard library), as a pass-through: the
    wrapped reader is used on its own and dropped afterwards. Buffering
    changes how many bytes are fetched at a time; over a backing that hands
    out the bytes it has (a byte slice, a memory map) the reader yields the
    same bytes and the same end of input. The read-ahead itself is not
    modelled: a backing that fails on bytes beyond those a caller asks for
    can fail a buffered read that succeeds here, so results that go through
    this reader are stated for byte slices, or hold whatever the read
    returns. *)
Definition bufio_NewReader {R : Type} (o : OffsetReader R) : OffsetReader R := o.

(** A CID whose varint fields fit Go's [uint64]. *)
Definition wf_Cid (c : Cid) : Prop :=
  0 <= cid_version c < 2 ^ 64 /\ 0 <= cid_codec c < 2 ^ 64 /\ 0 <= mh_code c < 2 ^ 64.

(** ** Files and memory maps

    [mmap.ReaderAt]: a mapped file, read like a byte slice up to its end;
    an offset past the end is refused with an error of its own, where a byte
    slice answers [EOF]. *)
Record mmap_ReaderAt : Type := mkMmap { mm_path : string; mm_data : list byte }.

#[global] Instance mmap_ReadAt : ReaderAt mmap_ReaderAt := fun r n off =>
  if (off <? 0) || (Z.of_nat (length (mm_data r)) <? off)
  then ([], Some (ErrIo "mmap: invalid ReadAt offset"))
  else
    let bs := take n (drop (Z.to_nat off) (mm_data r)) in
    (bs, if (length bs <? n)%nat then Some EOF else None).

(** The files on disk and the mappings that are open, one entry per
    [mmap.Open] that has not been closed. *)
Record World : Type := mkWorld { files : gmap string (list byte); mapped : list string }.

Definition mmap_Open (path : string) (w : World) : result mmap_ReaderAt * World :=
  match files w !! path with
  | None => (Err ErrNoSuchFile, w)
  | Some data => (Ok (mkMmap path data), mkWorld (files w) (path :: mapped w))
  end.

Fixpoint remove_first (path : string) (l : list string) : list string :=
  match l with
  | [] => []
  | p :: l' => if bool_decide (p = path) then l' else p :: remove_first path l'
  end.

Definition mmap_Close (r : mmap_ReaderAt) (w : World) : World :=
  mkWorld (files w) (remove_first (mm_path r) (mapped w)).

(** [io.SectionReader]: the window [[sr_base, sr_limit)] of a reader. *)
Record SectionReader (R : Type) : Type := mkSectionReader {
  sr_r : R; sr_base : Z; sr_limit : Z
}.
Arguments mkSectionReader {R} _ _ _.
Arguments sr_r {R} _.
Arguments sr_base {R} _.
Arguments sr_limit {R} _.

Definition NewSectionReader {R : Type} (r : R) (off n : Z) : SectionReader R :=
  mkSectionReader r off (if off <=? (2 ^ 63 - 1) - n then n + off else 2 ^ 63 - 1).

#[global] Instance SectionReader_ReadAt {R : Type} `{ReaderAt R}
  : ReaderAt (SectionReader R) := fun s n off =>
  if (off <? 0) || (sr_limit s - sr_base s <=? off) then ([], Some EOF)
  else
    let off := off + sr_base s in
    let max := sr_limit s - off in
    if max <? Z.of_nat n then
      let '(bs, err) := ReadAt (sr_r s) (Z.to_nat max) off in
      (bs, Some (default EOF err))
    else ReadAt (sr_r s) n off.

(** ** Package [index] *)

Module index.

(** [index.Index], as far as the block store uses it. *)
Class Index (I : Type) := Get : I -> Cid -> result Z.

(** [index.Record]: a CID and the offset of its frame. *)
Record Record_ : Type := mkRecord { rec_Cid : Cid; rec_Idx : Z }.

(** [bytes.Compare]: lexicographic order on digests. *)
Fixpoint bytes_compare (a b : list byte) : comparison :=
  match a, b with
  | [], [] => Eq
  | [], _ :: _ => Lt
  | _ :: _, [] => Gt
  | x :: a', y :: b' =>
    match N.compare (Byte.to_N x) (Byte.to_N y) with
    | Eq => bytes_compare a' b'
    | c => c
    end
  end.

(** Modelled from the spec: the sorted index ([mkSorted], [Load], [Get]) is
    not among the sources. §4.3: records are grouped by the byte length of
    their multihash digest; each group is a sorted array of
    (digest, offset) records, ascending by digest. *)
Abbreviation singleWidthIndex := (list (list byte * Z)).
Abbreviation multiWidthIndex := (gmap nat (list (list byte * Z))).

Definition mkSorted : multiWidthIndex := ∅.

(** Modelled from the spec: §4.3, a duplicate during load is a
    DuplicateKey error; the bucket stays sorted. *)
Fixpoint insert_sorted (d : list byte) (o : Z) (s : singleWidthIndex)
  : result singleWidthIndex :=
  match s with
  | [] => Ok [(d, o)]
  | (d', o') :: s' =>
    match bytes_compare d d' with
    | Lt => Ok ((d, o) :: s)
    | Eq => Err ErrDuplicateKey
    | Gt =>
      match insert_sorted d o s' with
      | Ok s'' => Ok ((d', o') :: s'')
      | Err e => Err e
      end
    end
  end.

(** Modelled from the spec: §4.3 [load], the bulk build. *)
Fixpoint Load (idx : multiWidthIndex) (records : list Record_)
  : result multiWidthIndex :=
  match records with
  | [] => Ok idx
  | r :: records' =>
    let d := mh_digest (rec_Cid r) in
    match insert_sorted d (rec_Idx r) (default [] (idx !! length d)) with
    | Err e => Err e
    | Ok s => Load (<[length d := s]> idx) records'
    end
  end.

(** [sort.Search]: the least index in [0, n) at which [f] holds, [n] if
    there is none, by bisection; each round shrinks [j - i], so [n] rounds
    are enough. *)
Fixpoint Search_loop (rounds : nat) (f : nat -> bool) (i j : nat) : nat :=
  match rounds with
  | O => i
  | S rounds' =>
    if (i <? j)%nat then
      let h := ((i + j) / 2)%nat in
      if f h then Search_loop rounds' f i h else Search_loop rounds' f (h + 1)%nat j
    else i
  end.

Definition Search (n : nat) (f : nat -> bool) : nat := Search_loop n f 0%nat n.

Definition bytes_ge (a b : list byte) : bool :=
  match bytes_compare a b with Lt => false | _ => true end.

(** Modelled from the spec: §4.3 lookup inside one bucket, a binary search
    by digest. *)
Definition singleWidth_get (s : singleWidthIndex) (d : list byte) : result Z :=
  let i := Search (length s)
             (fun i => match s !! i with
                       | Some (d', _) => bytes_ge d' d
                       | None => true
                       end) in
  match s !! i with
  | Some (d', o) => if bool_decide (d' = d) then Ok o else Err ErrNotFound
  | None => Err ErrNotFound
  end.

(** Modelled from the spec: §4.3 [get]: extract the digest from the query
    CID, find the bucket by width, binary-search by digest, return the
    offset or NotFound. *)
#[global] Instance multiWidth_Get : Index multiWidthIndex := fun idx c =>
  let d := mh_digest c in
  match idx !! length d with
  | Some s => singleWidth_get s d
  | None => Err ErrNotFound
  end.

Section Generate.
Context {R : Type} `{ReaderAt R} `{HeaderCodec}.

(** The [for] loop of [Generate]. It has no bound of its own: [fuel]
    counts the rounds allowed, and [None] means they ran out. *)
Fixpoint Generate_loop (fuel : nat) (car : R) (rdr : OffsetReader R)
    (records : list Record_) : option (result (list Record_)) :=
  match fuel with
  | O => None
  | S fuel' =>
    let thisItemIdx := Offset rdr in
    let '(l, err, rdr) := ReadUvarint rdr in
    let thisItemForNxt := Offset rdr in
    match err with
    | Some e => if bool_decide (e = EOF) then Some (Ok records) else Some (Err e)
    | None =>
      match ReadCid car thisItemForNxt with
      | Err e => Some (Err e)
      | Ok (c, _) =>
        Generate_loop fuel' car
          (SeekOffset rdr (int64 (thisItemForNxt + int64 l)))
          (records ++ [mkRecord c (uint64 thisItemIdx)])
      end
    end
  end.

(** [Generate] generates the index for a car in v1 format. *)
Definition Generate (fuel : nat) (car : R) : option (result multiWidthIndex) :=
  match ReadHeader (bufio_NewReader (NewOffsetReader car 0)) with
  | Err e => Some (Err (Wrapped "error reading car header" e))
  | Ok header =>
    match HeaderSize header with
    | Err e => Some (Err e)
    | Ok offset =>
      let idx := mkSorted in
      match Generate_loop fuel car (NewOffsetReader car (int64 offset)) [] with
      | None => None
      | Some (Err e) => Some (Err e)
      | Some (Ok records) =>
        match Load idx records with
        | Err e => Some (Err e)
        | Ok idx => Some (Ok idx)
        end
      end
    end
  end.
End Generate.

(** [GenerateFromFile] walks a car v1 file at the given path and generates
    an index; the mapping is closed when [Generate] returns
    ([defer store.Close()]). While [Generate] has not returned the deferred
    call has not run and the mapping is open. *)
Definition GenerateFromFile `{HeaderCodec} (fuel : nat) (path : string) (w : World)
  : option (result multiWidthIndex) * World :=
  match mmap_Open path w with
  | (Err err, w) => (Some (Err err), w)
  | (Ok store, w) =>
    match Generate fuel store with
    | None => (None, w)
    | Some r => (Some r, mmap_Close store w)
    end
  end.

End index.

(** ** Package [car] (v2): header, reader and writer *)

Module carv2.

(** The CARv2 pragma: a CARv1 header that announces version 2. *)
Definition PrefixBytes : list byte :=
  [x0a; xa1; x67; x76; x65; x72; x73; x69; x6f; x6e; x02].
Definition PrefixBytesSize : Z := 11.
Definition HeaderBytesSize : Z := 40.
Definition CharacteristicsBytesSize : nat := 16.

(** Modelled from the spec: the header type is not among the sources. §3:
    40 bytes, [characteristics(16) || data_offset || data_size ||
    index_offset], the three offsets as little-endian [uint64]. *)
Record Header : Type := mkHeader {
  Characteristics : list byte;
  DataOffset : Z;
  DataSize : Z;
  IndexOffset : Z
}.

(** [binary.LittleEndian]. *)
Definition PutUint64 (v : Z) : list byte :=
  map (fun i => byte_of_Z (Z.shiftr v (8 * Z.of_nat i))) (seq 0 8).

Definition Uint64 (bs : list byte) : Z :=
  fold_right (fun b acc => Z.lor (byte_to_Z b) (Z.shiftl acc 8)) 0 bs.

Definition Header_bytes (h : Header) : list byte :=
  Characteristics h ++ PutUint64 (DataOffset h) ++ PutUint64 (DataSize h) ++
  PutUint64 (IndexOffset h).

(** Modelled from the spec: §4.4, [has_index] is true iff the index offset
    is not zero. *)
Definition HasIndex (h : Header) : bool := negb (IndexOffset h =? 0).

(** Modelled from the spec: [NewHeader], [WithCarV1Padding] and
    [WithIndexPadding] are not among the sources. §4.6: the data offset is
    the prefix and header sizes plus the CARv1 padding, the data size is the
    CARv1 length, and the index offset is data offset plus data size plus
    the index padding, all in [uint64]. *)
Definition NewHeader (carV1Size : Z) : Header :=
  mkHeader (replicate CharacteristicsBytesSize x00)
    (PrefixBytesSize + HeaderBytesSize) carV1Size
    (uint64 (PrefixBytesSize + HeaderBytesSize + carV1Size)).

Definition WithCarV1Padding (h : Header) (padding : Z) : Header :=
  mkHeader (Characteristics h)
    (uint64 (PrefixBytesSize + HeaderBytesSize + padding)) (DataSize h)
    (uint64 (IndexOffset h + padding)).

Definition WithIndexPadding (h : Header) (padding : Z) : Header :=
  mkHeader (Characteristics h) (DataOffset h) (DataSize h)
    (uint64 (IndexOffset h + padding)).

(** *** Reader *)

Record Reader (R : Type) : Type := mkReader { reader_Header : Header; reader_r : R }.
Arguments mkReader {R} _ _.
Arguments reader_Header {R} _.
Arguments reader_r {R} _.

Section Reader.
Context {R : Type} `{ReaderAt R}.

(** Modelled from the spec: [carv2.NewReader] is not among the sources.
    §4.4: read and verify the 11-byte prefix, failing with NotCarV2; read
    the 40-byte header and validate that the data offset is at least prefix
    plus 40, the data size is positive, and the index offset is zero or at
    least data offset plus data size. *)
Definition NewReader (r : R) : result (Reader R) :=
  let '(pfx, err) := ReadAt r (length PrefixBytes) 0 in
  match err with
  | Some e => Err e
  | None =>
    if negb (bool_decide (pfx = PrefixBytes)) then Err ErrNotCarV2
    else
      let '(hb, err) := ReadAt r (Z.to_nat HeaderBytesSize) PrefixBytesSize in
      match err with
      | Some e => Err e
      | None =>
        let h := mkHeader (take 16 hb) (Uint64 (take 8 (drop 16 hb)))
                   (Uint64 (take 8 (drop 24 hb))) (Uint64 (take 8 (drop 32 hb))) in
        if (PrefixBytesSize + HeaderBytesSize <=? DataOffset h) &&
           (0 <? DataSize h) &&
           ((IndexOffset h =? 0) || (DataOffset h + DataSize h <=? IndexOffset h))
        then Ok (mkReader h r)
        else Err ErrInvalidHeader
      end
  end.

(** Modelled from the spec: §4.4, the sub-reader bounded to
    [[data_offset, data_offset + data_size)]. *)
Definition CarV1Reader (v2r : Reader R) : SectionReader R :=
  NewSectionReader (reader_r v2r)
    (int64 (DataOffset (reader_Header v2r))) (int64 (DataSize (reader_Header v2r))).

(** Modelled from the spec: §4.4, the reader starting at the index offset. *)
Definition IndexReader (v2r : Reader R) : OffsetReader R :=
  NewOffsetReader (reader_r v2r) (int64 (IndexOffset (reader_Header v2r))).
End Reader.

(** *** Writer

    [io.Writer]: [Write w p] returns the count written, the error, and the
    writer afterwards. *)
Class IoWriter (W : Type) := Write : W -> list byte -> Z * option error * W.

(** [bytes.Buffer] as a writer: it appends and never fails. *)
#[global] Instance Buffer_Write : IoWriter (list byte) := fun buf p =>
  (Z.of_nat (length p), None, buf ++ p).

Definition bulkPaddingBytesSize : Z := 1024.
Definition bulkPadding : list byte := replicate (Z.to_nat bulkPaddingBytesSize) x00.

(** [carbs.IndexCodec]. *)
Inductive IndexCodec : Type :=
| IndexHashed | IndexSorted | IndexSingleSorted | IndexGobHashed.

Section Writer.
Context {W : Type} `{IoWriter W}.

(** The [for] loop of [padding.WriteTo]: [iter] bulk writes. *)
Fixpoint padding_bulk (iter : nat) (n : Z) (w : W) : Z * option error * W :=
  match iter with
  | O => (n, None, w)
  | S iter' =>
    let '(_, err, w) := Write w bulkPadding in
    match err with
    | Some e => (n, Some e, w)
    | None => padding_bulk iter' (int64 (n + bulkPaddingBytesSize)) w
    end
  end.

(** [padding.WriteTo] writes this padding to the given writer as default
    value bytes. *)
Definition padding_WriteTo (p : Z) (w : W) : Z * option error * W :=
  let '(reminder, (n, err, w)) :=
    if bulkPaddingBytesSize <? p then
      (int64 (p mod bulkPaddingBytesSize),
       padding_bulk (Z.to_nat (int64 (p / bulkPaddingBytesSize))) 0 w)
    else (int64 p, (0, None, w)) in
  match err with
  | Some e => (n, Some e, w)
  | None =>
    let paddingBytes := replicate (Z.to_nat reminder) x00 in
    let '(_, err, w) := Write w paddingBytes in
    (int64 (n + reminder), err, w)
  end.

(** Modelled from the spec: [Header.WriteTo] is not among the sources; it
    emits the 40 header bytes. *)
Definition Header_WriteTo (h : Header) (w : W) : Z * option error * W :=
  Write w (Header_bytes h).

(** The collaborators of the writer that are not among the sources: the DAG
    walk ([carv1.WriteCarWithWalker], which appends the CARv1 bytes to a
    buffer and may fail), the index generator of package [carbs] and the
    index serialization. *)
Variables NodeGetter WalkFunc Ctx CarbsIndex : Type.
Variable DefaultWalkFunc : WalkFunc.
Variable WriteCarWithWalker :
  Ctx -> NodeGetter -> list Cid -> WalkFunc -> list byte * option error.
Variable GenerateIndex : list byte -> Z -> IndexCodec -> bool -> result CarbsIndex.
Variable Marshal : CarbsIndex -> list byte.

(** [Writer] writes CAR v2 into a given [io.Writer]. *)
Record Writer : Type := mkWriter {
  Walk : WalkFunc;
  writer_IndexCodec : IndexCodec;
  writer_NodeGetter : NodeGetter;
  CarV1Padding : Z;
  IndexPadding : Z;
  ctx : Ctx;
  roots : list Cid;
  encodedCarV1 : list byte
}.

(** [NewWriter] instantiates a new CAR v2 writer. *)
Definition NewWriter (ctx : Ctx) (ng : NodeGetter) (roots : list Cid) : Writer :=
  mkWriter DefaultWalkFunc IndexSorted ng 0 0 ctx roots [].

Definition writeHeader (w : Writer) (writer : W) (carV1Len : Z)
  : Z * option error * W :=
  let header :=
    WithIndexPadding
      (WithCarV1Padding (NewHeader (uint64 carV1Len)) (CarV1Padding w))
      (IndexPadding w) in
  Header_WriteTo header writer.

Definition writeIndex (w : Writer) (writer : W) (carV1 : list byte)
  : Z * option error * W :=
  match GenerateIndex carV1 (int64 (Z.of_nat (length carV1))) IndexSorted true with
  | Err e => (0, Some e, writer)
  | Ok index =>
    let '(_, err, writer) := Write writer (Marshal index) in
    (0, err, writer)
  end.

(** [WriteTo] writes the given root CIDs according to CAR v2 specification,
    traversing the DAG using the [Writer.Walk] function. It returns the
    count [n], the error, the [io.Writer] afterwards and the writer itself,
    whose buffer has grown. *)
Definition WriteTo (w : Writer) (writer : W) : Z * option error * W * Writer :=
  let n := 0 in
  let '(_, err, writer) := Write writer PrefixBytes in
  match err with
  | Some e => (n, Some e, writer, w)
  | None =>
    let n := int64 (n + PrefixBytesSize) in
    let '(written, err) :=
      WriteCarWithWalker (ctx w) (writer_NodeGetter w) (roots w) (Walk w) in
    let w := mkWriter (Walk w) (writer_IndexCodec w) (writer_NodeGetter w)
               (CarV1Padding w) (IndexPadding w) (ctx w) (roots w)
               (encodedCarV1 w ++ written) in
    match err with
    | Some e => (n, Some e, writer, w)
    | None =>
      let carV1Len := Z.of_nat (length (encodedCarV1 w)) in
      let '(wn, err, writer) := writeHeader w writer carV1Len in
      match err with
      | Some e => (n, Some e, writer, w)
      | None =>
        let n := int64 (n + wn) in
        let '(wn, err, writer) := padding_WriteTo (CarV1Padding w) writer in
        match err with
        | Some e => (n, Some e, writer, w)
        | None =>
          let n := int64 (n + wn) in
          let carV1Bytes := encodedCarV1 w in
          let '(wwn, err, writer) := Write writer carV1Bytes in
          match err with
          | Some e => (n, Some e, writer, w)
          | None =>
            let n := int64 (n + wwn) in
            let '(wn, err, writer) := padding_WriteTo (IndexPadding w) writer in
            match err with
            | Some e => (n, Some e, writer, w)
            | None =>
              let n := int64 (n + wn) in
              let '(wn, err, writer) := writeIndex w writer carV1Bytes in
              match err with
              | None => (int64 (n + wn), None, writer, w)
              | Some e => (n, Some e, writer, w)
              end
            end
          end
        end
      end
    end
  end.
End Writer.

Arguments mkWriter {NodeGetter WalkFunc Ctx} _ _ _ _ _ _ _ _.
Arguments Walk {NodeGetter WalkFunc Ctx} _.
Arguments writer_IndexCodec {NodeGetter WalkFunc Ctx} _.
Arguments writer_NodeGetter {NodeGetter WalkFunc Ctx} _.
Arguments CarV1Padding {NodeGetter WalkFunc Ctx} _.
Arguments IndexPadding {NodeGetter WalkFunc Ctx} _.
Arguments ctx {NodeGetter WalkFunc Ctx} _.
Arguments roots {NodeGetter WalkFunc Ctx} _.
Arguments encodedCarV1 {NodeGetter WalkFunc Ctx} _.
Arguments NewWriter {NodeGetter WalkFunc Ctx} _ _ _ _.
Arguments writeHeader {W _ NodeGetter WalkFunc Ctx} _ _ _.
Arguments writeIndex {W _ NodeGetter WalkFunc Ctx CarbsIndex} _ _ _ _ _.
Arguments WriteTo {W _ NodeGetter WalkFunc Ctx CarbsIndex} _ _ _ _ _.

End carv2.

(** ** Package [blockstore]: the read-only block store *)

Module blockstore.

(** [blocks.Block]. *)
Record Block : Type := mkBlock { RawData : list byte; block_Cid : Cid }.

(** [blocks.NewBlockWithCid]: outside debug mode the data is not hashed. *)
Definition NewBlockWithCid (data : list byte) (c : Cid) : result Block :=
  Ok (mkBlock data c).

(** What a call does: it returns, or it panics (a method called on a nil
    interface value). *)
Inductive outcome (A : Type) : Type :=
| Return (a : A)
| Panic.
Arguments Return {A} a.
Arguments Panic {A}.

(** [ReadOnly] provides a read-only Car Block Store. [idx] is an interface
    value and may be nil. *)
Record ReadOnly (R I : Type) : Type := mkReadOnly {
  backing : R;
  idx : option I
}.
Arguments mkReadOnly {R I} backing idx.
Arguments backing {R I} _.
Arguments idx {R I} _.

Section ReadOnly.
Context {R I : Type} `{ReaderAt R} `{index.Index I}.

(** [ReadOnlyOf] opens a ReadOnly blockstore from an existing backing and an
    existing index. *)
Definition ReadOnlyOf (backing : R) (index : I) : ReadOnly R I :=
  mkReadOnly backing (Some index).

Definition readBlock (b : ReadOnly R I) (idx : Z) : result (Cid * list byte) :=
  ReadNode (bufio_NewReader (NewOffsetReader (backing b) idx)).

(** [DeleteBlock] is unsupported and always returns an error. *)
Definition DeleteBlock (b : ReadOnly R I) (_ : Cid) : option error :=
  Some errUnsupported.

(** [Has] indicates if the store contains a block that corresponds to the
    given key. *)
Definition Has (b : ReadOnly R I) (key : Cid) : outcome (bool * option error) :=
  match idx b with
  | None => Panic
  | Some i =>
    match index.Get i key with
    | Err err => Return (false, Some err)
    | Ok offset =>
      let uar := NewOffsetReader (backing b) (int64 offset) in
      let '(_, err, uar) := ReadUvarint uar in
      match err with
      | Some err => Return (false, Some err)
      | None =>
        match ReadCid (backing b) (Offset uar) with
        | Err err => Return (false, Some err)
        | Ok (c, _) => Return (Equals c key, None)
        end
      end
    end
  end.

(** [Get] gets a block corresponding to the given key. *)
Definition Get (b : ReadOnly R I) (key : Cid) : outcome (result Block) :=
  match idx b with
  | None => Panic
  | Some i =>
    match index.Get i key with
    | Err err => Return (Err err)
    | Ok offset =>
      match readBlock b (int64 offset) with
      | Err _ => Return (Err ErrNotFound)
      | Ok (entry, bytes) =>
        if negb (Equals entry key) then Return (Err ErrNotFound)
        else Return (NewBlockWithCid bytes key)
      end
    end
  end.

(** [GetSize] gets the size of an item corresponding to the given key. *)
Definition GetSize (b : ReadOnly R I) (key : Cid) : outcome (Z * option error) :=
  match idx b with
  | None => Panic
  | Some i =>
    match index.Get i key with
    | Err err => Return (-1, Some err)
    | Ok idx =>
      let '(l, err, _) := ReadUvarint (NewOffsetReader (backing b) (int64 idx)) in
      match err with
      | Some _ => Return (-1, Some ErrNotFound)
      | None =>
        match ReadCid (backing b) (int64 (uint64 (idx + l))) with
        | Err err => Return (0, Some err)
        | Ok (c, _) =>
          if negb (Equals c key) then Return (-1, Some ErrNotFound)
          else Return (int64 l, None)
        end
      end
    end
  end.

(** [Put] and [PutMany] are not supported and always return an error. *)
Definition Put (b : ReadOnly R I) (_ : Block) : option error := Some errUnsupported.
Definition PutMany (b : ReadOnly R I) (_ : list Block) : option error :=
  Some errUnsupported.
End ReadOnly.

(** *** [AllKeysChan]: a producer goroutine feeding a buffered channel

    The goroutine started by [AllKeysChan] is a machine with three control
    points: the top of the [for] loop, the [select], and returned. *)
Inductive producer (R : Type) : Type :=
| Loop (rdr : OffsetReader R)
| Select (c : Cid) (rdr : OffsetReader R)
| Returned.
Arguments Loop {R} rdr.
Arguments Select {R} c rdr.
Arguments Returned {R}.

(** [make(chan cid.Cid, 5)]: the queued values and whether [close] was
    called. *)
Record chan : Type := mkChan { ch_buf : list Cid; ch_closed : bool }.
Definition ch_cap : nat := 5.

(** The producer, its channel, whether [ctx.Done()] is closed, and what the
    consumer has received so far. *)
Record system (R : Type) : Type := mkSystem {
  sys_producer : producer R;
  sys_ch : chan;
  sys_done : bool;
  sys_received : list Cid;
  sys_ended : bool
}.
Arguments mkSystem {R} _ _ _ _ _.
Arguments sys_producer {R} _.
Arguments sys_ch {R} _.
Arguments sys_done {R} _.
Arguments sys_received {R} _.
Arguments sys_ended {R} _.

Inductive event : Type :=
| EvRead                 (* the producer runs the loop body up to the select *)
| EvSend (c : Cid)       (* select: case ch <- c *)
| EvDone                 (* select: case <-done *)
| EvRecv (c : Cid)       (* the consumer receives a value *)
| EvRecvClosed           (* the consumer's receive reports a closed channel *)
| EvCancel.              (* the context is cancelled *)

Section AllKeysChan.
Context {R I : Type} `{ReaderAt R} `{HeaderCodec}.

(** The loop body from the top of the [for] to the [select]. *)
Definition loop_body (b : ReadOnly R I) (rdr : OffsetReader R) : producer R :=
  let '(l, err, rdr) := ReadUvarint rdr in
  let thisItemForNxt := Offset rdr in
  match err with
  | Some _ => Returned
  | None =>
    match ReadCid (backing b) thisItemForNxt with
    | Err _ => Returned
    | Ok (c, _) => Select c (SeekOffset rdr (int64 (thisItemForNxt + int64 l)))
    end
  end.

(** One step of the system. At the [select] both cases may be ready: the
    send when the channel has room, the receive from [done] once the context
    is cancelled; Go then picks either. *)
Inductive step (b : ReadOnly R I) : system R -> event -> system R -> Prop :=
| step_read rdr ch done rcv ended :
    step b (mkSystem (Loop rdr) ch done rcv ended) EvRead
           (mkSystem (loop_body b rdr) ch done rcv ended)
| step_send c rdr buf closed done rcv ended :
    (length buf < ch_cap)%nat -> closed = false ->
    step b (mkSystem (Select c rdr) (mkChan buf closed) done rcv ended) (EvSend c)
           (mkSystem (Loop rdr) (mkChan (buf ++ [c]) closed) done rcv ended)
| step_done c rdr ch rcv ended :
    step b (mkSystem (Select c rdr) ch true rcv ended) EvDone
           (mkSystem Returned ch true rcv ended)
| step_recv p c buf closed done rcv ended :
    step b (mkSystem p (mkChan (c :: buf) closed) done rcv ended) (EvRecv c)
           (mkSystem p (mkChan buf closed) done (rcv ++ [c]) ended)
| step_recv_closed p done rcv ended :
    step b (mkSystem p (mkChan [] true) done rcv ended) EvRecvClosed
           (mkSystem p (mkChan [] true) done rcv true)
| step_cancel p ch done rcv ended :
    step b (mkSystem p ch done rcv ended) EvCancel
           (mkSystem p ch true rcv ended).

(** Runs: the events of a finite execution, oldest first. *)
Inductive run (b : ReadOnly R I) : system R -> list event -> system R -> Prop :=
| run_nil s : run b s [] s
| run_snoc s tr s' ev s'' :
    run b s tr s' -> step b s' ev s'' -> run b s (tr ++ [ev]) s''.

(** [AllKeysChan] returns the list of keys in the CAR: it reads the header,
    makes the channel and starts the goroutine. *)
Definition AllKeysChan (b : ReadOnly R I) (ctx_done : bool) : result (system R) :=
  match ReadHeader (bufio_NewReader (NewOffsetReader (backing b) 0)) with
  | Err err => Err (Wrapped "error reading car header" err)
  | Ok header =>
    match HeaderSize header with
    | Err err => Err err
    | Ok offset =>
      let ch := mkChan [] false in
      Ok (mkSystem (Loop (NewOffsetReader (backing b) (int64 offset))) ch ctx_done [] false)
    end
  end.

(** [Roots] returns the root CIDs of the backing CAR. *)
Definition Roots_ (b : ReadOnly R I) : result (list Cid) :=
  match ReadHeader (bufio_NewReader (NewOffsetReader (backing b) 0)) with
  | Err err => Err (Wrapped "error reading car header" err)
  | Ok header => Ok (Roots header)
  end.
End AllKeysChan.

(** *** Opening a store from a CARv2 file *)

Section OpenReadOnly.
Context `{HeaderCodec}.

(** [index.Attach] and [index.ReadFrom] are not among the sources and are
    taken as parameters: the first rewrites the file at [path], the second
    parses an index. *)
Variable Attach : string -> index.multiWidthIndex -> Z -> World -> option error * World.
Variable ReadFrom : OffsetReader mmap_ReaderAt -> result index.multiWidthIndex.

(** [OpenReadOnly] opens a read-only blockstore from a CAR v2 file,
    generating an index if it does not exist. In the branch without an
    embedded index, [idx, err := index.Generate(...)] declares a new [idx]
    for that block ([idx'] below); the [idx] declared before the [if], which
    the store is built from, keeps its zero value. [fuel] bounds the walk of
    [Generate]. *)
Definition OpenReadOnly (fuel : nat) (path : string) (attachIndex : bool) (w : World)
  : option (result (ReadOnly (SectionReader mmap_ReaderAt) index.multiWidthIndex))
    * World :=
  match mmap_Open path w with
  | (Err err, w) => (Some (Err err), w)
  | (Ok reader, w) =>
    match carv2.NewReader reader with
    | Err err => (Some (Err err), w)
    | Ok v2r =>
      let idx : option index.multiWidthIndex := None in
      if negb (carv2.HasIndex (carv2.reader_Header v2r)) then
        match index.Generate fuel (carv2.CarV1Reader v2r) with
        | None => (None, w)
        | Some (Err err) => (Some (Err err), w)
        | Some (Ok idx') =>
          if attachIndex then
            match Attach path idx' (carv2.IndexOffset (carv2.reader_Header v2r)) w with
            | (Some err, w) => (Some (Err err), w)
            | (None, w) => (Some (Ok (mkReadOnly (carv2.CarV1Reader v2r) idx)), w)
            end
          else (Some (Ok (mkReadOnly (carv2.CarV1Reader v2r) idx)), w)
        end
      else
        match ReadFrom (carv2.IndexReader v2r) with
        | Err err => (Some (Err err), w)
        | Ok idx => (Some (Ok (mkReadOnly (carv2.CarV1Reader v2r) (Some idx))), w)
        end
    end
  end.
End OpenReadOnly.

End blockstore.

(** ** Well-formed CARv1 payloads

    [carv1_bytes hb blocks] is what the CARv1 writer lays out: the header
    section, then one frame per block. *)
Definition carv1_bytes (hb : list byte) (blocks : list (Cid * list byte)) : list byte :=
  LdWrite [hb] ++ concat (map frame_bytes blocks).

(** [P] is the CARv1 payload with header [h] and blocks [blocks]: the header
    body is what the codec writes for [h] and reads back as [h], the CIDs
    are well formed, and the payload is addressable with an [int64]. *)
Definition wf_CarV1 `{HeaderCodec} (P : list byte) (h : CarHeader)
    (blocks : list (Cid * list byte)) : Prop :=
  exists hb : list byte,
    DumpObject h = Ok hb /\ DecodeInto hb = Ok h /\ Version h = 1 /\
    P = carv1_bytes hb blocks /\
    Forall (fun blk => wf_Cid (fst blk)) blocks /\
    Z.of_nat (length P) < 2 ^ 63.

(** The offset of each frame's leading varint, for frames laid out from
    offset [off] on. *)
Fixpoint frame_offsets (off : Z) (blocks : list (Cid * list byte)) : list Z :=
  match blocks with
  | [] => []
  | blk :: blocks' =>
    off :: frame_offsets (off + Z.of_nat (length (frame_bytes blk))) blocks'
  end.

(** The records a sequential walk collects: each block's CID with the offset
    of its frame. *)
Definition frame_records (off : Z) (blocks : list (Cid * list byte))
  : list index.Record_ :=
  zip_with index.mkRecord (map fst blocks) (frame_offsets off blocks).

(** A bucket in digest order, and an index whose buckets are in order and
    hold digests of their width only. *)
Definition bucket_sorted (s : index.singleWidthIndex) : Prop :=
  forall (i j : nat) (a b : list byte * Z),
    (i < j)%nat -> s !! i = Some a -> s !! j = Some b ->
    index.bytes_compare (fst a) (fst b) = Lt.

Definition index_ok (idx : index.multiWidthIndex) : Prop :=
  forall (w : nat) (s : index.singleWidthIndex),
    idx !! w = Some s ->
    bucket_sorted s /\ forall e, e ∈ s -> length (fst e) = w.

(** The index holds offset [o] for digest [d]. *)
Definition index_has (idx : index.multiWidthIndex) (d : list byte) (o : Z) : Prop :=
  exists s, idx !! length d = Some s /\ (d, o) ∈ s.

(** The frame that starts at [offset] lies within [data]: once its length
    [L] and its CID (of [k] bytes) have been read, [L] covers the CID and
    the [L] bytes after the varint are there. *)
Definition frame_complete (data : list byte) (offset : Z) : Prop :=
  forall (L : Z) (o : OffsetReader (list byte)) (c : Cid) (k : Z),
    ReadUvarint (NewOffsetReader data offset) = (L, None, o) ->
    ReadCid data (Offset o) = Ok (c, k) ->
    k <= L /\ Offset o + L <= Z.of_nat (length data).

(** A byte source that fails: reads that touch offset [faulty_from] or
    beyond return an I/O error. *)
Record faulty : Type := mkFaulty { faulty_data : list byte; faulty_from : Z }.

#[global] Instance faulty_ReaderAt : ReaderAt faulty := fun r n off =>
  if faulty_from r <? off + Z.of_nat n then ([], Some (ErrIo "input/output error"))
  else ReadAt (faulty_data r) n off.

(** ** The key stream of [AllKeysChan]

    What the producer has sent so far, oldest first: the values the consumer
    took, then the values still queued. *)
Definition emitted {R : Type} (s : blockstore.system R) : list Cid :=
  blockstore.sys_received s ++ blockstore.ch_buf (blockstore.sys_ch s).

(** Where the producer stands in a payload [hd ++ frames of blocks], having
    sent the CIDs of [sent]: at the top of the loop it is positioned on the
    next frame; at the select it holds the CID of the next block and is
    positioned after that block's frame; it has returned early only if the
    context was cancelled. *)
Definition producer_at (P hd : list byte) (blocks sent : list (Cid * list byte))
    (done : bool) (p : blockstore.producer (list byte)) : Prop :=
  match p with
  | blockstore.Loop rdr =>
    exists rest, blocks = sent ++ rest /\
      rdr = mkOffsetReader P (Z.of_nat (length (hd ++ concat (map frame_bytes sent))))
  | blockstore.Select c rdr =>
    exists blk rest, blocks = sent ++ blk :: rest /\ c = fst blk /\
      rdr = mkOffsetReader P
              (Z.of_nat (length (hd ++ concat (map frame_bytes (sent ++ [blk])))))
  | blockstore.Returned =>
    exists rest, blocks = sent ++ rest /\ (done = false -> rest = [])
  end.

(** The invariant of the system over a well-formed payload. *)
Definition keys_invariant (P hd : list byte) (blocks : list (Cid * list byte))
    (s : blockstore.system (list byte)) : Prop :=
  exists sent : list (Cid * list byte),
    emitted s = map fst sent /\
    producer_at P hd blocks sent (blockstore.sys_done s) (blockstore.sys_producer s) /\
    (length (blockstore.ch_buf (blockstore.sys_ch s)) <= blockstore.ch_cap)%nat.

(** Sends and cancellations in a trace. *)
Definition is_send (ev : blockstore.event) : bool :=
  match ev with blockstore.EvSend _ => true | _ => false end.

(** The sends that follow the first cancellation in a trace. *)
Fixpoint sends_after_cancel (tr : list blockstore.event) : list blockstore.event :=
  match tr with
  | [] => []
  | blockstore.EvCancel :: tr' => filter (fun ev => is_send ev = true) tr'
  | _ :: tr' => sends_after_cancel tr'
  end.

(** ** Sample data

    A header codec for headers without roots (the DAG-CBOR map
    [{roots: [], version: 1}]), three raw blocks "a", "bb", "ccc" under
    truncated SHA-256 multihashes, and one more CID that shares a digest with
    the first under another content codec. *)
Definition empty_roots_cbor : list byte :=
  [xa2; x65; x72; x6f; x6f; x74; x73; x80;
   x67; x76; x65; x72; x73; x69; x6f; x6e; x01].

Definition empty_roots_codec : HeaderCodec := {|
  DumpObject h :=
    match Roots h with
    | [] => if Version h =? 1 then Ok empty_roots_cbor else Err (ErrIo "version")
    | _ :: _ => Err (ErrIo "roots")
    end;
  DecodeInto bs :=
    if bool_decide (bs = empty_roots_cbor) then Ok (mkCarHeader [] 1)
    else Err (ErrIo "cbor")
|}.

Definition sample_header : CarHeader := mkCarHeader [] 1.

Definition cid_a : Cid := mkCid 1 0x55 0x12 [xca; x97; x81; x12].
Definition cid_b : Cid := mkCid 1 0x55 0x12 [x3b; x64; xdb; x95].
Definition cid_c : Cid := mkCid 1 0x55 0x12 [x64; xda; xa4; x41].
Definition cid_a_pb : Cid := mkCid 1 0x70 0x12 [xca; x97; x81; x12].

Definition sample_blocks : list (Cid * list byte) :=
  [(cid_a, [x61]); (cid_b, [x62; x62]); (cid_c, [x63; x63; x63])].

Definition sample_car : list byte :=
  carv1_bytes empty_roots_cbor sample_blocks.

(** The same bytes "a" stored once as a raw block and once as a dag-pb
    block: two CIDs, one digest. *)
Definition twin_blocks : list (Cid * list byte) :=
  [(cid_a, [x61]); (cid_a_pb, [x61])].

Definition twin_car : list byte := carv1_bytes empty_roots_cbor twin_blocks.

Definition cid_d : Cid := mkCid 1 0x55 0x12 [xde; xad; xbe; xef].

(** The index of [sample_car], and the store over both. *)
Definition sample_index : index.multiWidthIndex :=
  {[ 4%nat := [([x3b; x64; xdb; x95], 28); ([x64; xda; xa4; x41], 39);
               ([xca; x97; x81; x12], 18)] ]}.

Definition sample_store : blockstore.ReadOnly (list byte) index.multiWidthIndex :=
  blockstore.ReadOnlyOf sample_car sample_index.

(** The same store over a payload that lost its last byte, and over a disk
    that fails past the header. *)
Definition truncated_store : blockstore.ReadOnly (list byte) index.multiWidthIndex :=
  blockstore.ReadOnlyOf (take 50 sample_car) sample_index.

Definition faulty_store : blockstore.ReadOnly faulty index.multiWidthIndex :=
  blockstore.ReadOnlyOf (mkFaulty sample_car 18) sample_index.

(** A CARv2 file that wraps [sample_car] without an index, a file whose
    header declares an empty payload, and a disk holding both. *)
Definition sample_carv2 : list byte :=
  carv2.PrefixBytes ++
  carv2.Header_bytes
    (carv2.mkHeader (replicate 16 x00) 51 (Z.of_nat (length sample_car)) 0) ++
  sample_car.

Definition malformed_carv2 : list byte :=
  carv2.PrefixBytes ++
  carv2.Header_bytes (carv2.mkHeader (replicate 16 x00) 51 0 0).

Definition sample_world : World :=
  mkWorld {[ "sample.car" := sample_carv2; "malformed.car" := malformed_carv2 ]} [].

(** Stand-ins for the two index operations that [OpenReadOnly] takes as
    parameters. *)
Definition no_Attach (path : string) (idx : index.multiWidthIndex) (offset : Z)
    (w : World) : option error * World :=
  (Some (ErrIo "attach"), w).

Definition no_ReadFrom (r : OffsetReader mmap_ReaderAt) : result index.multiWidthIndex :=
  Err (ErrIo "read index").

(** Stand-ins for the collaborators of the writer: a walk that yields
    [sample_car], the index generator of package [index] in place of the one
    of package [carbs], and a serialization that writes the bucket widths. *)
Definition sample_walk (_ _ : unit) (_ : list Cid) (_ : unit) : list byte * option error :=
  (sample_car, None).

Definition sample_GenerateIndex (carV1 : list byte) (_ : Z) (_ : carv2.IndexCodec)
    (_ : bool) : result index.multiWidthIndex :=
  match @index.Generate _ _ empty_roots_codec (S (length carV1)) carV1 with
  | Some r => r
  | None => Err (ErrIo "out of fuel")
  end.

Definition sample_Marshal (idx : index.multiWidthIndex) : list byte :=
  concat (map (fun kv => PutUvarint (Z.of_nat (fst kv))) (map_to_list idx)).

Definition sample_writer : carv2.Writer unit unit unit :=
  carv2.mkWriter tt carv2.IndexSorted tt 1500 3 tt [] [].


(** ** Further definitions *)

(** More stand-ins for the collaborators of the writer: a walk that fails
    after one byte, a walk that yields [twin_car], and an index that is the
    length of the payload. *)
Definition failing_walk (_ _ : unit) (_ : list Cid) (_ : unit) : list byte * option error :=
  ([x11], Some (ErrIo "block not found")).

Definition twin_walk (_ _ : unit) (_ : list Cid) (_ : unit) : list byte * option error :=
  (twin_car, None).

Definition length_GenerateIndex (carV1 : list byte) (_ : Z) (_ : carv2.IndexCodec)
    (_ : bool) : result nat :=
  Ok (length carV1).

Definition length_Marshal (n : nat) : list byte := PutUvarint (Z.of_nat n).

(** Where the producer of [AllKeysChan] stands with respect to the walk of
    [index.Generate] over the same backing: [keys] are the CIDs [Generate]
    records, the consumer holds a first part of them, the channel queues the
    next, and from the producer's position the walk of [Generate] records
    exactly the remaining ones (the first of them in hand at the [select]). *)
Definition walk_keys_invariant {R I : Type} `{ReaderAt R}
    (b : blockstore.ReadOnly R I) (keys : list Cid) (s : blockstore.system R) : Prop :=
  exists rest,
    keys = emitted s ++ rest /\
    match blockstore.sys_producer s with
    | blockstore.Loop rdr =>
      exists fuel recs,
        index.Generate_loop fuel (blockstore.backing b) rdr [] = Some (Ok recs) /\
        rest = map index.rec_Cid recs
    | blockstore.Select c rdr =>
      exists fuel recs,
        index.Generate_loop fuel (blockstore.backing b) rdr [] = Some (Ok recs) /\
        rest = c :: map index.rec_Cid recs
    | blockstore.Returned => True
    end.


(** * Properties *)

(** ** Bytes and machine integers *)

Lemma byte_to_Z_range (b : byte) : 0 <= byte_to_Z b < 256.
Proof.
  unfold byte_to_Z. pose proof (Byte.to_N_bounded b) as Hb. lia.
Qed.

Lemma byte_to_of_Z (z : Z) : 0 <= z < 256 -> byte_to_Z (byte_of_Z z) = z.
Proof.
  intros Hz. unfold byte_to_Z, byte_of_Z.
  rewrite Z.mod_small by lia.
  destruct (Byte.of_N (Z.to_N z)) as [b|] eqn:Hb.
  - apply Byte.to_of_N in Hb. rewrite Hb. lia.
  - apply Byte.of_N_None_iff in Hb. lia.
Qed.

Lemma byte_of_to_Z (b : byte) : byte_of_Z (byte_to_Z b) = b.
Proof.
  unfold byte_of_Z. pose proof (byte_to_Z_range b) as Hb.
  rewrite Z.mod_small by lia. unfold byte_to_Z.
  rewrite N2Z.id, Byte.of_to_N. reflexivity.
Qed.

Lemma uint64_small (z : Z) : 0 <= z < 2 ^ 64 -> uint64 z = z.
Proof. intros Hz. unfold uint64. apply Z.mod_small. lia. Qed.

Lemma int64_small (z : Z) : - 2 ^ 63 <= z < 2 ^ 63 -> int64 z = z.
Proof. intros Hz. unfold int64. rewrite Z.mod_small; lia. Qed.

Lemma byte_to_of_Z_mod (z : Z) : byte_to_Z (byte_of_Z z) = z mod 256.
Proof.
  assert (Hm : 0 <= z mod 256 < 256) by (apply Z.mod_pos_bound; lia).
  rewrite <- (byte_to_of_Z (z mod 256)) by exact Hm.
  unfold byte_of_Z. rewrite Z.mod_mod by lia. reflexivity.
Qed.

(** Setting the continuation bit of a byte: [byte(x) | 0x80]. *)
Lemma continuation_byte (v : Z) :
  0 <= v -> byte_to_Z (byte_of_Z (Z.lor v 0x80)) = v mod 128 + 128.
Proof.
  intros Hv. rewrite byte_to_of_Z_mod.
  change 256 with (2 ^ 8). rewrite <- Z.land_ones by lia.
  rewrite Z.land_lor_distr_l. rewrite Z.land_ones by lia.
  change (Z.land 128 (Z.ones 8)) with 128. change (2 ^ 8) with 256.
  assert (Hw : 0 <= v mod 256 < 256) by (apply Z.mod_pos_bound; lia).
  replace (v mod 128) with ((v mod 256) mod 128).
  2:{ apply Z.mod_mod_divide. exists 2. reflexivity. }
  rewrite <- (byte_to_of_Z (v mod 256)) by exact Hw.
  generalize (byte_of_Z (v mod 256)). intros b. destruct b; reflexivity.
Qed.

(** The low seven bits and the rest recombine under the decoder's shift. *)
Lemma shiftl_split7 (v s : Z) :
  0 <= s ->
  Z.lor (Z.shiftl (v mod 128) s) (Z.shiftl (Z.shiftr v 7) (s + 7)) = Z.shiftl v s.
Proof.
  intros Hs. rewrite (Z.add_comm s 7), <- Z.shiftl_shiftl by lia.
  rewrite <- Z.shiftl_lor. f_equal.
  change 128 with (2 ^ 7). rewrite <- Z.land_ones, <- Z.ldiff_ones_r by lia.
  rewrite Z.lor_comm. apply Z.lor_ldiff_and.
Qed.

(** ** Reading from a byte slice *)

Section BytesReader.
Variable data : list byte.
Hypothesis data_size : Z.of_nat (length data) < 2 ^ 63.

Lemma ReadAt_bytes_at (pre bs suf : list byte) :
  data = pre ++ bs ++ suf -> bs <> [] ->
  ReadAt data (length bs) (Z.of_nat (length pre)) = (bs, None).
Proof.
  intros -> Hne. unfold ReadAt, bytes_ReaderAt.
  destruct (Z.ltb_spec (Z.of_nat (length pre)) 0) as [?|_]; [lia|].
  destruct bs as [|b bs]; [done|].
  destruct (Z.leb_spec (Z.of_nat (length (pre ++ (b :: bs) ++ suf)))
              (Z.of_nat (length pre))) as [Hle|_].
  { rewrite !length_app in Hle. simpl in Hle. lia. }
  rewrite Nat2Z.id, drop_app_length, take_app_length.
  destruct (Nat.ltb_spec (length (b :: bs)) (length (b :: bs))) as [?|_]; [lia|done].
Qed.

Lemma Read_bytes_at (pre bs suf : list byte) :
  data = pre ++ bs ++ suf -> bs <> [] ->
  Read (mkOffsetReader data (Z.of_nat (length pre))) (length bs)
  = (bs, None, mkOffsetReader data (Z.of_nat (length pre) + Z.of_nat (length bs))).
Proof.
  intros Hd Hne. unfold Read. simpl.
  rewrite (ReadAt_bytes_at pre bs suf Hd Hne).
  rewrite int64_small; [done|].
  assert (Z.of_nat (length pre) + Z.of_nat (length bs) <= Z.of_nat (length data)).
  { rewrite Hd, !length_app. lia. }
  lia.
Qed.

Lemma ReadByte_bytes_at (pre : list byte) (b : byte) (suf : list byte) :
  data = pre ++ b :: suf ->
  ReadByte (mkOffsetReader data (Z.of_nat (length pre)))
  = (b, None, mkOffsetReader data (Z.of_nat (length pre) + 1)).
Proof.
  intros Hd. unfold ReadByte.
  change 1%nat with (length [b]).
  rewrite (Read_bytes_at pre [b] suf); [done|done|done].
Qed.

Lemma ReadFull_bytes_at (pre bs suf : list byte) :
  data = pre ++ bs ++ suf ->
  ReadFull (mkOffsetReader data (Z.of_nat (length pre))) (length bs)
  = (bs, None, mkOffsetReader data (Z.of_nat (length pre) + Z.of_nat (length bs))).
Proof.
  intros Hd. unfold ReadFull.
  destruct bs as [|b bs].
  { simpl. rewrite Z.add_0_r. done. }
  cbn [length]. change (S (length bs)) with (length (b :: bs)).
  rewrite (Read_bytes_at pre (b :: bs) suf Hd) by done.
  destruct (Nat.leb_spec (length (b :: bs)) (length (b :: bs))) as [_|?]; [done|lia].
Qed.
End BytesReader.

(** ** Varints: [ReadUvarint] inverts [PutUvarint] *)

Lemma PutUvarint_loop_length (m : nat) (v : Z) :
  (1 <= length (PutUvarint_loop m v) <= S m)%nat.
Proof.
  revert v. induction m as [|m IH]; intros v; simpl.
  - lia.
  - destruct (0x80 <=? v); simpl; [specialize (IH (Z.shiftr v 7))|]; lia.
Qed.

Lemma PutUvarint_length (x : Z) : (1 <= length (PutUvarint x) <= 10)%nat.
Proof. apply PutUvarint_loop_length. Qed.

Lemma shiftl_bound (a s k : Z) :
  0 <= s -> 0 <= k -> 0 <= a < 2 ^ k -> 0 <= Z.shiftl a s < 2 ^ (k + s).
Proof.
  intros Hs Hk Ha. rewrite Z.shiftl_mul_pow2, Z.pow_add_r by lia.
  assert (0 < 2 ^ s) by (apply Z.pow_pos_nonneg; lia). nia.
Qed.

Lemma ReadUvarint_loop_S {R : Type} `{ReaderAt R} (n : nat) (i x s : Z)
    (o : OffsetReader R) :
  ReadUvarint_loop (S n) i x s o =
  let '(b, err, o') := ReadByte o in
  match err with
  | Some e =>
    (x, Some (if (0 <? i) && bool_decide (e = EOF) then ErrUnexpectedEOF else e), o')
  | None =>
    if byte_to_Z b <? 0x80 then
      if (i =? 9) && (1 <? byte_to_Z b) then (x, Some errOverflow, o')
      else (Z.lor x (uint64 (Z.shiftl (byte_to_Z b) s)), None, o')
    else
      ReadUvarint_loop n (i + 1)
        (Z.lor x (uint64 (Z.shiftl (Z.land (byte_to_Z b) 0x7f) s))) (s + 7) o'
  end.
Proof. reflexivity. Qed.

Section Varint.
Variable data : list byte.
Hypothesis data_size : Z.of_nat (length data) < 2 ^ 63.

Lemma ReadUvarint_loop_Put (m : nat) :
  forall (i acc v : Z) (pre suf : list byte),
    i = 9 - Z.of_nat m -> (m <= 9)%nat ->
    0 <= v < 2 ^ (64 - 7 * i) ->
    data = pre ++ PutUvarint_loop m v ++ suf ->
    ReadUvarint_loop (S m) i acc (7 * i) (mkOffsetReader data (Z.of_nat (length pre)))
    = (Z.lor acc (Z.shiftl v (7 * i)), None,
       mkOffsetReader data
         (Z.of_nat (length pre) + Z.of_nat (length (PutUvarint_loop m v)))).
Proof.
  induction m as [|m IH]; intros i acc v pre suf Hi Hm Hv Hd.
  - (* the tenth byte: at most one bit is left *)
    simpl in Hd, Hi. subst i. change (64 - 7 * (9 - 0)) with 1 in Hv.
    change (2 ^ 1) with 2 in Hv.
    rewrite ReadUvarint_loop_S. cbn [PutUvarint_loop length].
    rewrite (ReadByte_bytes_at data data_size pre _ suf Hd).
    rewrite byte_to_of_Z by lia.
    destruct (Z.ltb_spec v 128) as [_|?]; [|lia].
    destruct (Z.ltb_spec 1 v) as [?|_]; [lia|].
    rewrite andb_false_r.
    rewrite uint64_small; [done|].
    pose proof (shiftl_bound v (7 * (9 - 0)) 1) as Hb.
    change (1 + 7 * (9 - 0)) with 64 in Hb. apply Hb; lia.
  - cbn [PutUvarint_loop] in Hd |- *.
    assert (Hi9 : 0 <= i <= 8) by lia.
    destruct (Z.leb_spec 128 v) as [Hge|Hlt].
    + (* a continuation byte, then the rest *)
      simpl in Hd. rewrite ReadUvarint_loop_S.
      rewrite (ReadByte_bytes_at data data_size pre _ _ Hd).
      rewrite continuation_byte by lia.
      assert (Hlow : 0 <= v mod 128 < 128) by (apply Z.mod_pos_bound; lia).
      destruct (Z.ltb_spec (v mod 128 + 128) 128) as [?|_]; [lia|].
      change 127 with (Z.ones 7). rewrite Z.land_ones by lia.
      change (2 ^ 7) with 128.
      replace ((v mod 128 + 128) mod 128) with (v mod 128).
      2:{ replace (v mod 128 + 128) with (v mod 128 + 1 * 128) by lia.
          rewrite Z.mod_add, Z.mod_mod by lia. reflexivity. }
      rewrite uint64_small.
      2:{ pose proof (shiftl_bound (v mod 128) (7 * i) 7) as Hb.
          assert (2 ^ (7 + 7 * i) <= 2 ^ 64) by (apply Z.pow_le_mono_r; lia).
          change (2 ^ 7) with 128 in Hb. lia. }
      replace (Z.of_nat (length pre) + 1) with (Z.of_nat (length (pre ++ [byte_of_Z (Z.lor v 128)])))
        by (rewrite length_app; simpl; lia).
      replace (7 * i + 7) with (7 * (i + 1)) by lia.
      rewrite (IH (i + 1) _ (Z.shiftr v 7) (pre ++ [byte_of_Z (Z.lor v 128)]) suf).
      * rewrite <- Z.lor_assoc.
        replace (7 * (i + 1)) with (7 * i + 7) by lia.
        rewrite shiftl_split7 by lia.
        rewrite length_app. cbn [length]. f_equal. f_equal. lia.
      * lia.
      * lia.
      * rewrite Z.shiftr_div_pow2 by lia. change (2 ^ 7) with 128.
        split; [apply Z.div_pos; lia|].
        apply Z.div_lt_upper_bound; [lia|].
        replace (64 - 7 * i) with (7 + (64 - 7 * (i + 1))) in Hv by lia.
        rewrite Z.pow_add_r in Hv by lia. change (2 ^ 7) with 128 in Hv. lia.
      * rewrite <- app_assoc. exact Hd.
    + (* the last byte *)
      simpl in Hd. rewrite ReadUvarint_loop_S. cbn [length].
      rewrite (ReadByte_bytes_at data data_size pre _ suf Hd).
      rewrite byte_to_of_Z by lia.
      destruct (Z.ltb_spec v 128) as [_|?]; [|lia].
      destruct (Z.eqb_spec i 9) as [?|_]; [lia|]. rewrite andb_false_l.
      rewrite uint64_small; [done|].
      pose proof (shiftl_bound v (7 * i) 7) as Hb.
      assert (2 ^ (7 + 7 * i) <= 2 ^ 64) by (apply Z.pow_le_mono_r; lia).
      change (2 ^ 7) with 128 in Hb. lia.
Qed.

Lemma ReadUvarint_PutUvarint (x : Z) (pre suf : list byte) :
  0 <= x < 2 ^ 64 ->
  data = pre ++ PutUvarint x ++ suf ->
  ReadUvarint (mkOffsetReader data (Z.of_nat (length pre)))
  = (x, None,
     mkOffsetReader data (Z.of_nat (length pre) + Z.of_nat (length (PutUvarint x)))).
Proof.
  intros Hx Hd. unfold ReadUvarint, MaxVarintLen64, PutUvarint in *.
  rewrite uint64_small in * by exact Hx.
  change 0 with (7 * 0) at 3.
  rewrite (ReadUvarint_loop_Put 9 0 0 x pre suf); [|done|lia|exact Hx|exact Hd].
  rewrite Z.shiftl_0_r. done.
Qed.
End Varint.

(** ** CIDs and frames on a byte slice *)

Section Frames.
Variable data : list byte.
Hypothesis data_size : Z.of_nat (length data) < 2 ^ 63.

Lemma within_data (pre bs suf : list byte) :
  data = pre ++ bs ++ suf ->
  Z.of_nat (length pre) + Z.of_nat (length bs) <= Z.of_nat (length data).
Proof. intros ->. rewrite !length_app. lia. Qed.

Lemma ReadCid_cid_bytes (c : Cid) (pre suf : list byte) :
  wf_Cid c ->
  data = pre ++ cid_bytes c ++ suf ->
  ReadCid data (Z.of_nat (length pre))
  = Ok (c, Z.of_nat (length (cid_bytes c))).
Proof.
  intros (Hv & Hc & Hm) Hd. unfold cid_bytes in *.
  rewrite <- !app_assoc in Hd.
  pose proof (within_data _ _ _ Hd) as Hlen.
  unfold ReadCid, NewOffsetReader.
  rewrite (ReadUvarint_PutUvarint data data_size _ pre _ Hv Hd).
  set (p1 := pre ++ PutUvarint (cid_version c)).
  replace (Z.of_nat (length pre) + Z.of_nat (length (PutUvarint (cid_version c))))
    with (Z.of_nat (length p1)) by (unfold p1; rewrite length_app; lia).
  assert (Hd1 : data = p1 ++ PutUvarint (cid_codec c) ++
                  PutUvarint (mh_code c) ++
                  PutUvarint (Z.of_nat (length (mh_digest c))) ++ mh_digest c ++ suf).
  { unfold p1. rewrite <- app_assoc. exact Hd. }
  rewrite (ReadUvarint_PutUvarint data data_size _ p1 _ Hc Hd1).
  set (p2 := p1 ++ PutUvarint (cid_codec c)).
  replace (Z.of_nat (length p1) + Z.of_nat (length (PutUvarint (cid_codec c))))
    with (Z.of_nat (length p2)) by (unfold p2; rewrite length_app; lia).
  assert (Hd2 : data = p2 ++ PutUvarint (mh_code c) ++
                  PutUvarint (Z.of_nat (length (mh_digest c))) ++ mh_digest c ++ suf).
  { unfold p2. rewrite <- app_assoc. exact Hd1. }
  rewrite (ReadUvarint_PutUvarint data data_size _ p2 _ Hm Hd2).
  set (p3 := p2 ++ PutUvarint (mh_code c)).
  replace (Z.of_nat (length p2) + Z.of_nat (length (PutUvarint (mh_code c))))
    with (Z.of_nat (length p3)) by (unfold p3; rewrite length_app; lia).
  assert (Hd3 : data = p3 ++ PutUvarint (Z.of_nat (length (mh_digest c))) ++
                  mh_digest c ++ suf).
  { unfold p3. rewrite <- app_assoc. exact Hd2. }
  assert (Hdl : 0 <= Z.of_nat (length (mh_digest c)) < 2 ^ 64).
  { assert (Z.of_nat (length (mh_digest c)) <= Z.of_nat (length data)).
    { rewrite Hd3, !length_app. lia. }
    lia. }
  rewrite (ReadUvarint_PutUvarint data data_size _ p3 _ Hdl Hd3).
  set (p4 := p3 ++ PutUvarint (Z.of_nat (length (mh_digest c)))).
  replace (Z.of_nat (length p3) +
           Z.of_nat (length (PutUvarint (Z.of_nat (length (mh_digest c))))))
    with (Z.of_nat (length p4)) by (unfold p4; rewrite length_app; lia).
  assert (Hd4 : data = p4 ++ mh_digest c ++ suf).
  { unfold p4. rewrite <- app_assoc. exact Hd3. }
  rewrite Nat2Z.id.
  rewrite (ReadFull_bytes_at data data_size p4 _ suf Hd4).
  unfold Offset. cbn [rd_off]. destruct c as [v k m d]. cbn [mh_digest] in *.
  do 2 f_equal.
  unfold p4, p3, p2, p1. cbn [cid_version cid_codec mh_code].
  rewrite !length_app. lia.
Qed.
End Frames.

Lemma frame_bytes_unfold (c : Cid) (d : list byte) :
  frame_bytes (c, d)
  = PutUvarint (Z.of_nat (length (cid_bytes c ++ d))) ++ cid_bytes c ++ d.
Proof.
  unfold frame_bytes, LdWrite. cbn [fst snd concat]. rewrite app_nil_r. reflexivity.
Qed.

Section FrameAt.
Variable data : list byte.
Hypothesis data_size : Z.of_nat (length data) < 2 ^ 63.
Variables (pre suf : list byte) (c : Cid) (d : list byte).
Hypothesis c_wf : wf_Cid c.
Hypothesis at_pre : data = pre ++ frame_bytes (c, d) ++ suf.

Let L : Z := Z.of_nat (length (cid_bytes c ++ d)).
Let vlen : Z := Z.of_nat (length (PutUvarint L)).

Lemma frame_L_range : 0 <= L < 2 ^ 64.
Proof.
  subst L. assert (Z.of_nat (length (cid_bytes c ++ d)) <= Z.of_nat (length data)).
  { rewrite at_pre, frame_bytes_unfold, !length_app. lia. }
  lia.
Qed.

Lemma frame_end_le :
  Z.of_nat (length pre) + vlen + L <= Z.of_nat (length data).
Proof.
  subst vlen L. rewrite at_pre, frame_bytes_unfold, !length_app. lia.
Qed.

Lemma frame_ReadUvarint :
  ReadUvarint (mkOffsetReader data (Z.of_nat (length pre)))
  = (L, None, mkOffsetReader data (Z.of_nat (length pre) + vlen)).
Proof.
  apply (ReadUvarint_PutUvarint data data_size L pre (cid_bytes c ++ d ++ suf)).
  - apply frame_L_range.
  - rewrite at_pre, frame_bytes_unfold, <- !app_assoc. reflexivity.
Qed.

Lemma frame_ReadCid :
  ReadCid data (Z.of_nat (length pre) + vlen)
  = Ok (c, Z.of_nat (length (cid_bytes c))).
Proof.
  replace (Z.of_nat (length pre) + vlen)
    with (Z.of_nat (length (pre ++ PutUvarint L)))
    by (subst vlen; rewrite length_app; lia).
  apply (ReadCid_cid_bytes data data_size c _ (d ++ suf) c_wf).
  rewrite at_pre, frame_bytes_unfold, <- !app_assoc. reflexivity.
Qed.

Lemma frame_ReadNode :
  ReadNode (mkOffsetReader data (Z.of_nat (length pre))) = Ok (c, d).
Proof.
  unfold ReadNode. rewrite frame_ReadUvarint. unfold Offset. cbn [rd_off rd_r].
  rewrite frame_ReadCid.
  assert (HL : L = Z.of_nat (length (cid_bytes c)) + Z.of_nat (length d)).
  { subst L. rewrite length_app. lia. }
  destruct (Z.ltb_spec L (Z.of_nat (length (cid_bytes c)))) as [?|_]; [lia|].
  replace (Z.to_nat (L - Z.of_nat (length (cid_bytes c)))) with (length d) by lia.
  pose proof frame_end_le as Hend.
  rewrite int64_small by lia.
  unfold SeekOffset. cbn [rd_r].
  replace (Z.of_nat (length pre) + vlen + Z.of_nat (length (cid_bytes c)))
    with (Z.of_nat (length (pre ++ PutUvarint L ++ cid_bytes c)))
    by (subst vlen; rewrite !length_app; lia).
  rewrite (ReadFull_bytes_at data data_size _ d suf); [done|].
  rewrite at_pre, frame_bytes_unfold, <- !app_assoc. reflexivity.
Qed.
End FrameAt.

(** ** The sequential walk of [Generate] *)

Lemma frame_bytes_length (c : Cid) (d : list byte) :
  Z.of_nat (length (frame_bytes (c, d)))
  = Z.of_nat (length (PutUvarint (Z.of_nat (length (cid_bytes c ++ d)))))
    + Z.of_nat (length (cid_bytes c ++ d)).
Proof. rewrite frame_bytes_unfold, (length_app (PutUvarint _)). lia. Qed.

Section Walk.
Variable data : list byte.
Hypothesis data_size : Z.of_nat (length data) < 2 ^ 63.

Lemma ReadUvarint_at_end :
  ReadUvarint (mkOffsetReader data (Z.of_nat (length data)))
  = (0, Some EOF, mkOffsetReader data (Z.of_nat (length data))).
Proof.
  unfold ReadUvarint, MaxVarintLen64. rewrite ReadUvarint_loop_S.
  unfold ReadByte, Read, ReadAt, bytes_ReaderAt. cbn [rd_r rd_off].
  destruct (Z.ltb_spec (Z.of_nat (length data)) 0) as [?|_]; [lia|].
  destruct (Z.leb_spec (Z.of_nat (length data)) (Z.of_nat (length data))) as [_|?]; [|lia].
  cbn. rewrite Z.add_0_r, int64_small by lia. reflexivity.
Qed.

Lemma Generate_loop_frames (blocks : list (Cid * list byte)) :
  forall (pre : list byte) (acc : list index.Record_) (fuel : nat),
    data = pre ++ concat (map frame_bytes blocks) ->
    Forall (fun blk => wf_Cid (fst blk)) blocks ->
    (length blocks < fuel)%nat ->
    index.Generate_loop fuel data (mkOffsetReader data (Z.of_nat (length pre))) acc
    = Some (Ok (acc ++ frame_records (Z.of_nat (length pre)) blocks)).
Proof.
  induction blocks as [|[c d] blocks IH]; intros pre acc fuel Hd Hwf Hfuel.
  - destruct fuel as [|fuel]; [simpl in Hfuel; lia|].
    simpl in Hd. rewrite app_nil_r in Hd. subst pre.
    cbn [index.Generate_loop]. rewrite ReadUvarint_at_end.
    rewrite bool_decide_eq_true_2 by reflexivity.
    unfold frame_records. cbn. rewrite app_nil_r. reflexivity.
  - destruct fuel as [|fuel]; [simpl in Hfuel; lia|].
    apply Forall_cons in Hwf as [Hc Hwf]. cbn [fst] in Hc.
    cbn [map concat] in Hd.
    cbn [index.Generate_loop].
    rewrite (frame_ReadUvarint data data_size pre _ c d Hd).
    unfold Offset. cbn [rd_off].
    rewrite (frame_ReadCid data data_size pre _ c d Hc Hd).
    pose proof (frame_end_le data pre _ c d Hd) as Hend.
    pose proof (frame_L_range data data_size pre _ c d Hd) as HL.
    rewrite (int64_small (Z.of_nat (length (cid_bytes c ++ d)))) by lia.
    rewrite int64_small by lia.
    rewrite uint64_small by lia.
    unfold SeekOffset. cbn [rd_r].
    replace (Z.of_nat (length pre) +
             Z.of_nat (length (PutUvarint (Z.of_nat (length (cid_bytes c ++ d))))) +
             Z.of_nat (length (cid_bytes c ++ d)))
      with (Z.of_nat (length (pre ++ frame_bytes (c, d))))
      by (rewrite length_app, Nat2Z.inj_add, frame_bytes_length; lia).
    rewrite (IH (pre ++ frame_bytes (c, d))).
    + rewrite <- app_assoc. unfold frame_records. cbn [map frame_offsets fst zip_with].
      rewrite length_app, Nat2Z.inj_add. reflexivity.
    + rewrite <- app_assoc. exact Hd.
    + exact Hwf.
    + simpl in Hfuel. lia.
Qed.
End Walk.

(** ** The CARv1 header of a well-formed payload *)

Lemma LdWrite_single (hb : list byte) :
  LdWrite [hb] = PutUvarint (Z.of_nat (length hb)) ++ hb.
Proof. unfold LdWrite. cbn [concat]. rewrite app_nil_r. reflexivity. Qed.

Lemma LdSize_LdWrite (hb : list byte) :
  LdSize hb = Z.of_nat (length (LdWrite [hb])).
Proof. rewrite LdWrite_single, length_app. unfold LdSize. lia. Qed.

Section Header.
Context `{HeaderCodec}.
Variables (P : list byte) (h : CarHeader) (blocks : list (Cid * list byte)).
Hypothesis P_wf : wf_CarV1 P h blocks.

Lemma wf_ReadHeader :
  ReadHeader (bufio_NewReader (NewOffsetReader P 0)) = Ok h.
Proof.
  destruct P_wf as (hb & Hdump & Hdec & Hver & HP & _ & Hsize).
  unfold carv1_bytes in HP. rewrite LdWrite_single, <- app_assoc in HP.
  assert (Hlen : Z.of_nat (length hb) <= Z.of_nat (length P)).
  { rewrite HP, !length_app. lia. }
  unfold ReadHeader, bufio_NewReader, NewOffsetReader, LdRead.
  change 0 with (Z.of_nat (length (@nil byte))).
  rewrite (ReadUvarint_PutUvarint P Hsize (Z.of_nat (length hb)) []
             (hb ++ concat (map frame_bytes blocks)));
    [|lia|exact HP].
  rewrite Nat2Z.id.
  replace (Z.of_nat (length (@nil byte)) +
           Z.of_nat (length (PutUvarint (Z.of_nat (length hb)))))
    with (Z.of_nat (length ([] ++ PutUvarint (Z.of_nat (length hb)))))
    by (rewrite length_app; lia).
  rewrite (ReadFull_bytes_at P Hsize _ hb (concat (map frame_bytes blocks)));
    [|rewrite <- app_assoc; exact HP].
  cbn [fst]. rewrite Hdec, Hver. reflexivity.
Qed.

Lemma wf_HeaderSize :
  exists hb : list byte,
    P = LdWrite [hb] ++ concat (map frame_bytes blocks) /\
    HeaderSize h = Ok (Z.of_nat (length (LdWrite [hb]))).
Proof.
  destruct P_wf as (hb & Hdump & Hdec & Hver & HP & _ & Hsize).
  exists hb. split; [exact HP|].
  unfold HeaderSize. rewrite Hdump, LdSize_LdWrite, uint64_small; [done|].
  assert (Z.of_nat (length (LdWrite [hb])) <= Z.of_nat (length P)).
  { rewrite HP. unfold carv1_bytes. rewrite length_app. lia. }
  lia.
Qed.
End Header.

(** ** The sorted index *)

Lemma bytes_compare_refl (a : list byte) : index.bytes_compare a a = Eq.
Proof.
  induction a as [|x a IH]; [reflexivity|].
  cbn. rewrite N.compare_refl. exact IH.
Qed.

Lemma bytes_compare_eq (a b : list byte) : index.bytes_compare a b = Eq -> a = b.
Proof.
  revert b. induction a as [|x a IH]; intros [|y b]; cbn; try done.
  destruct (N.compare_spec (Byte.to_N x) (Byte.to_N y)) as [Heq|?|?]; try done.
  intros Hc. apply IH in Hc. subst b.
  f_equal. pose proof (Byte.of_to_N x) as Hx.
  rewrite Heq, Byte.of_to_N in Hx. congruence.
Qed.

Lemma bytes_compare_antisym (a b : list byte) :
  index.bytes_compare a b = CompOpp (index.bytes_compare b a).
Proof.
  revert b. induction a as [|x a IH]; intros [|y b]; cbn; try done.
  rewrite (N.compare_antisym (Byte.to_N x) (Byte.to_N y)).
  destruct (Byte.to_N x ?= Byte.to_N y)%N; cbn; auto.
Qed.

Lemma bytes_compare_trans (a b c : list byte) :
  index.bytes_compare a b = Lt -> index.bytes_compare b c = Lt ->
  index.bytes_compare a c = Lt.
Proof.
  revert b c. induction a as [|x a IH]; intros [|y b] [|z c]; cbn; try done.
  destruct (N.compare_spec (Byte.to_N x) (Byte.to_N y)) as [Hxy|Hxy|Hxy]; try done;
    destruct (N.compare_spec (Byte.to_N y) (Byte.to_N z)) as [Hyz|Hyz|Hyz]; try done;
    intros H1 H2.
  - rewrite Hxy, Hyz, N.compare_refl. eauto.
  - rewrite Hxy. apply N.compare_lt_iff in Hyz. rewrite Hyz. done.
  - rewrite <- Hyz. apply N.compare_lt_iff in Hxy. rewrite Hxy. done.
  - assert (Hxz : (Byte.to_N x < Byte.to_N z)%N) by lia.
    apply N.compare_lt_iff in Hxz. rewrite Hxz. done.
Qed.

(** [sort.Search] on a predicate that, once true, stays true. *)
Lemma Search_loop_spec (n : nat) (f : nat -> bool) :
  (forall a b, (a <= b < n)%nat -> f a = true -> f b = true) ->
  forall (rounds i j : nat),
    (i <= j <= n)%nat -> (j - i <= rounds)%nat ->
    (forall k, (k < i)%nat -> f k = false) ->
    (forall k, (j <= k < n)%nat -> f k = true) ->
    let r := index.Search_loop rounds f i j in
    (r <= n)%nat /\ (forall k, (k < r)%nat -> f k = false) /\
    (forall k, (r <= k < n)%nat -> f k = true).
Proof.
  intros Hmono rounds. induction rounds as [|rounds IH]; intros i j Hij Hr Hlo Hhi.
  - cbn. replace j with i in * by lia. split; [lia|]. split; auto.
  - cbn [index.Search_loop].
    destruct (Nat.ltb_spec i j) as [Hlt|Hge].
    + pose proof (Nat.div_mod_eq (i + j) 2) as Hdm.
      pose proof (Nat.mod_upper_bound (i + j) 2 ltac:(lia)) as Hm.
      set (h := ((i + j) / 2)%nat) in *.
      assert (Hh : (i <= h < j)%nat) by lia.
      destruct (f h) eqn:Hf.
      * apply IH; [lia|lia|exact Hlo|].
        intros k Hk. apply (Hmono h k); [lia|exact Hf].
      * apply IH; [lia|lia| |exact Hhi].
        intros k Hk. destruct (f k) eqn:Hfk; [|done].
        rewrite (Hmono k h) in Hf; [done|lia|exact Hfk].
    + replace j with i in * by lia. split; [lia|]. split; auto.
Qed.

Lemma Search_spec (n : nat) (f : nat -> bool) :
  (forall a b, (a <= b < n)%nat -> f a = true -> f b = true) ->
  (index.Search n f <= n)%nat /\
  (forall k, (k < index.Search n f)%nat -> f k = false) /\
  (forall k, (index.Search n f <= k < n)%nat -> f k = true).
Proof.
  intros Hmono. unfold index.Search.
  apply (Search_loop_spec n f Hmono n 0%nat n); [lia|lia| |]; intros k Hk; lia.
Qed.

Lemma bucket_sorted_nil : bucket_sorted [].
Proof. intros i j a b _ Hi. rewrite lookup_nil in Hi. done. Qed.

Lemma bucket_sorted_cons (a : list byte * Z) (s : index.singleWidthIndex) :
  bucket_sorted (a :: s) <->
  (forall b, b ∈ s -> index.bytes_compare (fst a) (fst b) = Lt) /\ bucket_sorted s.
Proof.
  split.
  - intros Hs. split.
    + intros b Hb. apply list_elem_of_lookup in Hb as [j Hj].
      apply (Hs 0%nat (S j) a b); [lia|done|done].
    + intros i j x y Hij Hx Hy. apply (Hs (S i) (S j) x y); [lia|done|done].
  - intros [Hhd Htl] i j x y Hij Hx Hy.
    destruct j as [|j]; [lia|]. cbn in Hy.
    destruct i as [|i]; cbn in Hx.
    + injection Hx as <-. apply Hhd. apply list_elem_of_lookup. eauto.
    + apply (Htl i j x y); [lia|done|done].
Qed.

Lemma singleWidth_get_sound (s : index.singleWidthIndex) (d : list byte) (o : Z) :
  index.singleWidth_get s d = Ok o -> (d, o) ∈ s.
Proof.
  unfold index.singleWidth_get.
  destruct (s !! index.Search _ _) as [[d' o']|] eqn:Hl; [|done].
  case_bool_decide; [|done]. intros [= <-]. subst d'.
  apply list_elem_of_lookup. eauto.
Qed.

Lemma singleWidth_get_cases (s : index.singleWidthIndex) (d : list byte) :
  (exists o, index.singleWidth_get s d = Ok o) \/
  index.singleWidth_get s d = Err ErrNotFound.
Proof.
  unfold index.singleWidth_get.
  destruct (s !! index.Search _ _) as [[d' o']|]; [|by right].
  case_bool_decide; [left; eauto|by right].
Qed.

Lemma singleWidth_get_found (s : index.singleWidthIndex) (d : list byte) (o : Z) :
  bucket_sorted s -> (d, o) ∈ s -> index.singleWidth_get s d = Ok o.
Proof.
  intros Hs Hin. apply list_elem_of_lookup in Hin as [k Hk].
  unfold index.singleWidth_get.
  set (f := fun i : nat => match s !! i with
                           | Some (d', _) => index.bytes_ge d' d
                           | None => true
                           end).
  assert (Hmono : forall a b, (a <= b < length s)%nat -> f a = true -> f b = true).
  { intros a b Hab Hfa. destruct (decide (a = b)) as [->|Hne]; [done|].
    unfold f in *.
    destruct (s !! a) as [[da oa]|] eqn:Ha.
    2:{ apply lookup_ge_None in Ha. lia. }
    destruct (s !! b) as [[db ob]|] eqn:Hb; [|done].
    pose proof (Hs a b _ _ ltac:(lia) Ha Hb) as Hlt. cbn in Hlt.
    unfold index.bytes_ge in *.
    destruct (index.bytes_compare db d) eqn:Hc; try done.
    rewrite (bytes_compare_trans da db d Hlt Hc) in Hfa. done. }
  destruct (Search_spec (length s) f Hmono) as (Hle & Hlo & Hhi).
  set (r := index.Search (length s) f) in *.
  assert (Hklt : (k < length s)%nat) by (apply lookup_lt_is_Some; eauto).
  assert (Hfk : f k = true).
  { unfold f. rewrite Hk. unfold index.bytes_ge. rewrite bytes_compare_refl. done. }
  assert (Hrk : (r <= k)%nat).
  { destruct (Nat.le_gt_cases r k) as [?|Hgt]; [done|].
    rewrite (Hlo k Hgt) in Hfk. done. }
  assert (r = k) as ->.
  { destruct (decide (r = k)) as [?|Hne]; [done|].
    assert (Hfr : f r = true) by (apply Hhi; lia).
    unfold f in Hfr.
    destruct (s !! r) as [[dr or]|] eqn:Hr.
    2:{ apply lookup_ge_None in Hr. lia. }
    pose proof (Hs r k _ _ ltac:(lia) Hr Hk) as Hlt. cbn in Hlt.
    unfold index.bytes_ge in Hfr. rewrite Hlt in Hfr. done. }
  rewrite Hk. rewrite bool_decide_eq_true_2; done.
Qed.

Lemma insert_sorted_ok (d : list byte) (o : Z) (s : index.singleWidthIndex) :
  bucket_sorted s -> (forall o', (d, o') ∉ s) ->
  exists s', index.insert_sorted d o s = Ok s' /\ bucket_sorted s' /\
             forall e, e ∈ s' <-> e = (d, o) \/ e ∈ s.
Proof.
  induction s as [|[d' o'] s IH]; intros Hs Hfresh.
  - exists [(d, o)]. split; [done|]. split.
    + apply bucket_sorted_cons. split; [|apply bucket_sorted_nil].
      intros b Hb. apply elem_of_nil in Hb. done.
    + intros e. rewrite list_elem_of_singleton, elem_of_nil. tauto.
  - apply bucket_sorted_cons in Hs as [Hhd Htl]. cbn [fst] in Hhd.
    cbn [index.insert_sorted].
    destruct (index.bytes_compare d d') eqn:Hc.
    + apply bytes_compare_eq in Hc. subst d'.
      exfalso. apply (Hfresh o'). apply elem_of_cons. by left.
    + eexists. split; [done|]. split.
      * apply bucket_sorted_cons. split.
        -- intros b Hb. cbn [fst]. apply elem_of_cons in Hb as [->|Hb]; [done|].
           apply (bytes_compare_trans d d' (fst b) Hc). by apply Hhd.
        -- apply bucket_sorted_cons. done.
      * intros e. rewrite (elem_of_cons _ e (d, o)). tauto.
    + destruct IH as (s' & Hins & Hs' & Hmem); [done| |].
      { intros o'' Hin. apply (Hfresh o''). apply elem_of_cons. by right. }
      rewrite Hins. eexists. split; [done|]. split.
      * apply bucket_sorted_cons. split; [|done].
        intros b Hb. cbn [fst]. apply Hmem in Hb as [->|Hb]; [|by apply Hhd].
        cbn [fst]. rewrite bytes_compare_antisym, Hc. done.
      * intros e. rewrite !elem_of_cons, Hmem. tauto.
Qed.

Lemma index_ok_empty : index_ok index.mkSorted.
Proof. intros w s Hl. unfold index.mkSorted in Hl. rewrite lookup_empty in Hl. done. Qed.

Lemma Load_spec (records : list index.Record_) :
  forall idx : index.multiWidthIndex,
    index_ok idx ->
    NoDup (map (fun r => mh_digest (index.rec_Cid r)) records) ->
    (forall r o, r ∈ records -> ~ index_has idx (mh_digest (index.rec_Cid r)) o) ->
    exists idx' : index.multiWidthIndex,
      index.Load idx records = Ok idx' /\ index_ok idx' /\
      forall d o, index_has idx' d o <->
                  index_has idx d o \/
                  exists r, r ∈ records /\ mh_digest (index.rec_Cid r) = d /\
                            index.rec_Idx r = o.
Proof.
  induction records as [|r records IH]; intros idx Hok Hnd Hfresh.
  - exists idx. split; [done|]. split; [done|].
    intros d o. split; [tauto|]. intros [?|(r & Hr & _)]; [done|].
    apply elem_of_nil in Hr. done.
  - cbn [map] in Hnd. apply NoDup_cons in Hnd as [Hnotin Hnd].
    cbn [index.Load].
    set (d := mh_digest (index.rec_Cid r)) in *.
    set (s := default [] (idx !! length d)).
    assert (Hs : bucket_sorted s /\ forall e, e ∈ s -> length (fst e) = length d).
    { unfold s. destruct (idx !! length d) as [s0|] eqn:Hl; cbn.
      - apply (Hok _ _ Hl).
      - split; [apply bucket_sorted_nil|]. intros e He. apply elem_of_nil in He. done. }
    destruct Hs as [Hsorted Hwidth].
    assert (Hnew : forall o', (d, o') ∉ s).
    { intros o' Hin. apply (Hfresh r o'); [apply elem_of_cons; by left|].
      unfold s in Hin. destruct (idx !! length d) as [s0|] eqn:Hl; cbn in Hin.
      - exists s0. done.
      - apply elem_of_nil in Hin. done. }
    destruct (insert_sorted_ok d (index.rec_Idx r) s Hsorted Hnew)
      as (s' & Hins & Hs' & Hmem).
    rewrite Hins.
    assert (Hhas : forall d2 o2,
               index_has (<[length d := s']> idx) d2 o2 <->
               index_has idx d2 o2 \/ (d2 = d /\ o2 = index.rec_Idx r)).
    { intros d2 o2. unfold index_has.
      destruct (decide (length d2 = length d)) as [Heq|Hne].
      - rewrite Heq, lookup_insert_eq. split.
        + intros (s2 & [= <-] & Hin). apply Hmem in Hin as [[= -> ->]|Hin]; [by right|].
          left. unfold s in Hin.
          destruct (idx !! length d) as [s0|] eqn:Hl; cbn in Hin; [eauto|].
          apply elem_of_nil in Hin. done.
        + intros [(s2 & Hl & Hin)|[-> ->]].
          * exists s'. split; [done|]. apply Hmem. right. unfold s. rewrite Hl. done.
          * exists s'. split; [done|]. apply Hmem. by left.
      - rewrite lookup_insert_ne by done. split; [tauto|].
        intros [?|[-> _]]; [done|]. done. }
    destruct (IH (<[length d := s']> idx)) as (idx' & Hload & Hok' & Hhas').
    + intros w s2 Hl. destruct (decide (w = length d)) as [->|Hne].
      * rewrite lookup_insert_eq in Hl. injection Hl as <-. split; [done|].
        intros e He. apply Hmem in He as [->|He]; [done|by apply Hwidth].
      * rewrite lookup_insert_ne in Hl by done. apply (Hok _ _ Hl).
    + exact Hnd.
    + intros r' o' Hr' Hin. apply Hhas in Hin as [Hin|[Hd _]].
      * apply (Hfresh r' o'); [apply elem_of_cons; by right|done].
      * apply Hnotin. rewrite <- Hd. apply list_elem_of_fmap.
        exists r'. done.
    + exists idx'. split; [done|]. split; [done|].
      intros d2 o2. rewrite Hhas', Hhas. split.
      * intros [[?|[-> ->]]|(r' & Hr' & ?)]; [by left| |].
        -- right. exists r. split; [apply elem_of_cons; by left|done].
        -- right. exists r'. split; [apply elem_of_cons; by right|done].
      * intros [?|(r' & Hr' & Hd2 & Ho2)]; [by left; left|].
        apply elem_of_cons in Hr' as [->|Hr'].
        -- left; right. done.
        -- right. eauto.
Qed.

Lemma Get_has (idx : index.multiWidthIndex) (c : Cid) (o : Z) :
  index_ok idx -> index_has idx (mh_digest c) o -> index.Get idx c = Ok o.
Proof.
  intros Hok (s & Hl & Hin). unfold index.Get, index.multiWidth_Get.
  rewrite Hl. apply singleWidth_get_found; [|done]. apply (Hok _ _ Hl).
Qed.

Lemma Get_sound (idx : index.multiWidthIndex) (c : Cid) (o : Z) :
  index.Get idx c = Ok o -> index_has idx (mh_digest c) o.
Proof.
  unfold index.Get, index.multiWidth_Get.
  destruct (idx !! length (mh_digest c)) as [s|] eqn:Hl; [|done].
  intros Hg. exists s. split; [done|]. by apply singleWidth_get_sound.
Qed.

Lemma Get_absent (idx : index.multiWidthIndex) (c : Cid) :
  (forall o, ~ index_has idx (mh_digest c) o) ->
  index.Get idx c = Err ErrNotFound.
Proof.
  intros Habs. pose proof (Get_sound idx c) as Hsound.
  unfold index.Get, index.multiWidth_Get in *.
  destruct (idx !! length (mh_digest c)) as [s|]; [|done].
  destruct (singleWidth_get_cases s (mh_digest c)) as [[o Ho]|Hn]; [|done].
  exfalso. apply (Habs o). by apply Hsound.
Qed.

(** ** [Generate] on a well-formed payload *)

Lemma frame_records_digests (off : Z) (blocks : list (Cid * list byte)) :
  map (fun r => mh_digest (index.rec_Cid r)) (frame_records off blocks)
  = map (fun blk => mh_digest (fst blk)) blocks.
Proof.
  revert off. induction blocks as [|blk blocks IH]; intros off; [done|].
  unfold frame_records in *. cbn. f_equal. apply IH.
Qed.

Lemma frame_records_of_block (blocks : list (Cid * list byte)) :
  forall (off : Z) (blk : Cid * list byte),
    blk ∈ blocks ->
    exists pre suf : list byte,
      concat (map frame_bytes blocks) = pre ++ frame_bytes blk ++ suf /\
      index.mkRecord (fst blk) (off + Z.of_nat (length pre)) ∈ frame_records off blocks.
Proof.
  induction blocks as [|b0 blocks IH]; intros off blk Hin.
  - apply elem_of_nil in Hin. done.
  - apply elem_of_cons in Hin as [->|Hin].
    + exists [], (concat (map frame_bytes blocks)). split; [done|].
      unfold frame_records. cbn [map frame_offsets fst zip_with length app].
      rewrite Z.add_0_r. apply elem_of_cons. by left.
    + destruct (IH (off + Z.of_nat (length (frame_bytes b0))) blk Hin)
        as (pre & suf & Hcat & Hrec).
      exists (frame_bytes b0 ++ pre), suf. split.
      * cbn [map concat]. rewrite Hcat, <- app_assoc. done.
      * unfold frame_records in *. cbn [map frame_offsets fst zip_with].
        apply elem_of_cons. right.
        rewrite length_app, Nat2Z.inj_add, Z.add_assoc. exact Hrec.
Qed.

(** C5 (as amended). For every well-formed CARv1 payload [P] whose frames
    carry pairwise distinct multihash digests, [Generate] returns an index
    (given fuel for one round per frame and one more for the end of the
    payload), and for every block [(c, d)] of [P] the index's [Get c] returns
    the offset [o] of the leading varint of that block's frame; reading a
    frame at [o] yields CID [c] and payload [d]. *)
Theorem Generate_finds_every_frame `{HeaderCodec} (P : list byte) (h : CarHeader)
    (blocks : list (Cid * list byte)) (fuel : nat) :
  wf_CarV1 P h blocks ->
  NoDup (map (fun blk => mh_digest (fst blk)) blocks) ->
  (length blocks < fuel)%nat ->
  exists idx : index.multiWidthIndex,
    index.Generate fuel P = Some (Ok idx) /\
    forall (c : Cid) (d : list byte),
      (c, d) ∈ blocks ->
      exists (o : Z) (pre suf : list byte),
        index.Get idx c = Ok o /\
        P = pre ++ frame_bytes (c, d) ++ suf /\ o = Z.of_nat (length pre) /\
        ReadNode (NewOffsetReader P o) = Ok (c, d).
Proof.
  intros Hwf Hnd Hfuel.
  pose proof (wf_ReadHeader P h blocks Hwf) as Hrh.
  destruct (wf_HeaderSize P h blocks Hwf) as (hb & HP & Hhs).
  destruct Hwf as (hb0 & _ & _ & _ & _ & Hcids & Hsize).
  assert (Hhlen : Z.of_nat (length (LdWrite [hb])) <= Z.of_nat (length P)).
  { rewrite HP, length_app. lia. }
  set (recs := frame_records (Z.of_nat (length (LdWrite [hb]))) blocks).
  destruct (Load_spec recs index.mkSorted index_ok_empty) as (idx & Hload & Hok & Hhas).
  { unfold recs. rewrite frame_records_digests. exact Hnd. }
  { intros r o _ (s & Hl & _). unfold index.mkSorted in Hl.
    rewrite lookup_empty in Hl. done. }
  exists idx. split.
  - unfold index.Generate. rewrite Hrh, Hhs.
    unfold NewOffsetReader. rewrite int64_small by lia.
    rewrite (Generate_loop_frames P Hsize blocks (LdWrite [hb]) [] fuel HP Hcids Hfuel).
    cbn [app]. fold recs. rewrite Hload. reflexivity.
  - intros c d Hin.
    destruct (frame_records_of_block blocks (Z.of_nat (length (LdWrite [hb]))) (c, d) Hin)
      as (pre & suf & Hcat & Hrec).
    cbn [fst] in Hrec. fold recs in Hrec.
    assert (HPc : P = (LdWrite [hb] ++ pre) ++ frame_bytes (c, d) ++ suf).
    { rewrite HP, Hcat, <- app_assoc. reflexivity. }
    exists (Z.of_nat (length (LdWrite [hb] ++ pre))), (LdWrite [hb] ++ pre), suf.
    split; [|split; [exact HPc|split; [reflexivity|]]].
    + apply Get_has; [exact Hok|]. apply Hhas. right.
      eexists. split; [exact Hrec|]. cbn [index.rec_Cid index.rec_Idx].
      split; [reflexivity|]. rewrite length_app. lia.
    + assert (Hc : wf_Cid c).
      { rewrite Forall_forall in Hcids. apply (Hcids (c, d)). exact Hin. }
      apply (frame_ReadNode P Hsize _ suf c d Hc HPc).
Qed.

Lemma sample_car_wf :
  @wf_CarV1 empty_roots_codec sample_car sample_header sample_blocks.
Proof.
  exists empty_roots_cbor.
  split; [reflexivity|]. split; [reflexivity|]. split; [reflexivity|].
  split; [reflexivity|]. split.
  - repeat constructor; cbn; lia.
  - vm_compute. reflexivity.
Qed.

Lemma sample_blocks_digests_NoDup :
  NoDup (map (fun blk : Cid * list byte => mh_digest (fst blk)) sample_blocks).
Proof. apply (bool_decide_unpack _). vm_compute. exact I. Qed.

Lemma Generate_finds_every_frame_witness :
  exists idx : index.multiWidthIndex,
    @index.Generate _ _ empty_roots_codec 4 sample_car = Some (Ok idx) /\
    forall (c : Cid) (d : list byte),
      (c, d) ∈ sample_blocks ->
      exists (o : Z) (pre suf : list byte),
        index.Get idx c = Ok o /\
        sample_car = pre ++ frame_bytes (c, d) ++ suf /\ o = Z.of_nat (length pre) /\
        ReadNode (NewOffsetReader sample_car o) = Ok (c, d).
Proof.
  apply (@Generate_finds_every_frame empty_roots_codec
           sample_car sample_header sample_blocks 4).
  - exact sample_car_wf.
  - exact sample_blocks_digests_NoDup.
  - simpl. lia.
Defined.

Lemma twin_car_wf :
  @wf_CarV1 empty_roots_codec twin_car sample_header twin_blocks.
Proof.
  exists empty_roots_cbor.
  split; [reflexivity|]. split; [reflexivity|]. split; [reflexivity|].
  split; [reflexivity|]. split.
  - repeat constructor; cbn; lia.
  - vm_compute. reflexivity.
Qed.

(** C5 (as stated) fails: a well-formed payload that stores the bytes "a"
    under a raw CID and under a dag-pb CID has two frames with one digest;
    the bulk load rejects the second, and [Generate] returns no index,
    whatever the fuel. *)
Lemma Generate_twin_digest_no_index :
  @wf_CarV1 empty_roots_codec twin_car sample_header twin_blocks /\
  (cid_a, [x61]) ∈ twin_blocks /\ (cid_a_pb, [x61]) ∈ twin_blocks /\
  @index.Generate _ _ empty_roots_codec 3 twin_car = Some (Err ErrDuplicateKey) /\
  forall (fuel : nat) (idx : index.multiWidthIndex),
    @index.Generate _ _ empty_roots_codec fuel twin_car <> Some (Ok idx).
Proof.
  split; [exact twin_car_wf|].
  split; [apply elem_of_cons; by left|].
  split; [apply elem_of_cons; right; apply elem_of_cons; by left|].
  split; [vm_compute; reflexivity|].
  intros fuel idx.
  destruct fuel as [|[|[|fuel]]]; vm_compute; discriminate.
Qed.

(** ** The read-only block store *)

Lemma sample_index_generated :
  @index.Generate _ _ empty_roots_codec 4 sample_car = Some (Ok sample_index).
Proof. vm_compute. reflexivity. Qed.

(** C2 (as amended). For every ReadOnly store and every CID for which the
    index lookup fails (NotFound, for a CID absent from the index), [Has]
    returns [false] together with the index's error, not [(false, nil)]. The
    backing is not read, whatever byte source it is, so the error is never an
    I/O error of the backing. *)
Theorem Has_absent_returns_index_error {R I : Type} `{ReaderAt R} `{index.Index I}
    (b : blockstore.ReadOnly R I) (i : I) (key : Cid) (e : error) :
  blockstore.idx b = Some i ->
  index.Get i key = Err e ->
  blockstore.Has b key = blockstore.Return (false, Some e).
Proof.
  intros Hi Hget. unfold blockstore.Has. rewrite Hi, Hget. reflexivity.
Qed.

Lemma Has_absent_returns_index_error_witness :
  blockstore.Has faulty_store cid_d = blockstore.Return (false, Some ErrNotFound).
Proof.
  apply (Has_absent_returns_index_error faulty_store sample_index cid_d ErrNotFound).
  - reflexivity.
  - vm_compute. reflexivity.
Defined.

(** With the sorted index, a CID whose digest the index does not hold is
    reported as NotFound. *)
Lemma Has_absent_sorted {R : Type} `{ReaderAt R} (backing : R)
    (idx : index.multiWidthIndex) (key : Cid) :
  (forall o, ~ index_has idx (mh_digest key) o) ->
  blockstore.Has (blockstore.ReadOnlyOf backing idx) key
  = blockstore.Return (false, Some ErrNotFound).
Proof.
  intros Habs. unfold blockstore.Has, blockstore.ReadOnlyOf. cbn [blockstore.idx].
  rewrite (Get_absent idx key Habs). reflexivity.
Qed.

(** C2 (as stated) fails: [cid_d] is absent from the index of the sample
    store, and [Has] returns the NotFound error with its [false]. *)
Lemma Has_absent_not_nil_error :
  index.Get sample_index cid_d = Err ErrNotFound /\
  blockstore.Has sample_store cid_d = blockstore.Return (false, Some ErrNotFound) /\
  blockstore.Has sample_store cid_d <> blockstore.Return (false, None).
Proof.
  split; [vm_compute; reflexivity|]. split; [vm_compute; reflexivity|].
  vm_compute. discriminate.
Qed.

(** [Get] on the sample data: an I/O error of the backing, a frame under
    another CID, and a hit. *)
Example Get_io_error_is_NotFound :
  blockstore.readBlock faulty_store (int64 28) = Err (ErrIo "input/output error") /\
  blockstore.Get faulty_store cid_b = blockstore.Return (Err ErrNotFound).
Proof. split; vm_compute; reflexivity. Qed.

Example Get_cid_mismatch_is_NotFound :
  index.Get sample_index cid_a_pb = Ok 18 /\
  blockstore.readBlock sample_store (int64 18) = Ok (cid_a, [x61]) /\
  blockstore.Get sample_store cid_a_pb = blockstore.Return (Err ErrNotFound).
Proof. repeat split; vm_compute; reflexivity. Qed.

Example Get_hit_returns_data :
  blockstore.Get sample_store cid_b
  = blockstore.Return (Ok (blockstore.mkBlock [x62; x62] cid_b)).
Proof. vm_compute. reflexivity. Qed.

(** A well-formed frame under the queried CID is returned with its data. *)
Lemma Get_well_formed_frame {I : Type} `{index.Index I} (data : list byte) (i : I)
    (key : Cid) (d pre suf : list byte) :
  Z.of_nat (length data) < 2 ^ 63 -> wf_Cid key ->
  data = pre ++ frame_bytes (key, d) ++ suf ->
  index.Get i key = Ok (Z.of_nat (length pre)) ->
  blockstore.Get (blockstore.ReadOnlyOf data i) key
  = blockstore.Return (Ok (blockstore.mkBlock d key)).
Proof.
  intros Hsize Hwf Hd Hget.
  assert (Hpre : Z.of_nat (length pre) <= Z.of_nat (length data)).
  { rewrite Hd, length_app. lia. }
  unfold blockstore.Get, blockstore.ReadOnlyOf, blockstore.readBlock.
  cbn [blockstore.idx blockstore.backing]. rewrite Hget.
  unfold bufio_NewReader, NewOffsetReader. rewrite int64_small by lia.
  rewrite (frame_ReadNode data Hsize pre suf key d Hwf Hd).
  unfold Equals. rewrite bool_decide_eq_true_2 by reflexivity. reflexivity.
Qed.

(** C3 fails on the code. The frame of [cid_a] in the sample store starts at
    offset 18: its varint is the single byte 9, its CID follows at offset 19
    and is [cid_a], and [Has] finds it. [GetSize] reads the CID at offset
    18 + 9 = 27 instead, inside the frame's data, and returns an error where
    the claim has it return 9. *)
Theorem GetSize_reads_cid_at_idx_plus_length :
  index.Get sample_index cid_a = Ok 18 /\
  sample_car = take 18 sample_car ++ frame_bytes (cid_a, [x61]) ++ drop 28 sample_car /\
  ReadUvarint (NewOffsetReader sample_car 18) = (9, None, mkOffsetReader sample_car 19) /\
  ReadCid sample_car 19 = Ok (cid_a, 8) /\
  blockstore.Has sample_store cid_a = blockstore.Return (true, None) /\
  ReadCid sample_car (int64 (uint64 (18 + 9))) = Err ErrUnexpectedEOF /\
  blockstore.GetSize sample_store cid_a = blockstore.Return (0, Some ErrUnexpectedEOF).
Proof. repeat split; vm_compute; reflexivity. Qed.

(** ** Offsets of successful reads on a byte slice *)

Lemma ReadUvarint_loop_rd_r {R : Type} `{ReaderAt R} (n : nat) :
  forall (i x s : Z) (o : OffsetReader R),
    rd_r (ReadUvarint_loop n i x s o).2 = rd_r o.
Proof.
  induction n as [|n IH]; intros i x s o; [reflexivity|].
  rewrite ReadUvarint_loop_S. unfold ReadByte, Read.
  destruct (ReadAt (rd_r o) 1 (rd_off o)) as [bs [e|]]; [reflexivity|].
  destruct (byte_to_Z _ <? 128); [|rewrite IH; reflexivity].
  destruct (_ && _); reflexivity.
Qed.

Lemma ReadUvarint_rd_r {R : Type} `{ReaderAt R} (o o' : OffsetReader R) (v : Z)
    (err : option error) :
  ReadUvarint o = (v, err, o') -> rd_r o' = rd_r o.
Proof.
  intros Hr. pose proof (ReadUvarint_loop_rd_r MaxVarintLen64 0 0 0 o) as Hl.
  unfold ReadUvarint in Hr. rewrite Hr in Hl. exact Hl.
Qed.

Section Offsets.
Variable data : list byte.
Hypothesis data_size : Z.of_nat (length data) < 2 ^ 63.

Lemma ReadByte_bytes_ok (off : Z) (b : byte) (o' : OffsetReader (list byte)) :
  ReadByte (mkOffsetReader data off) = (b, None, o') ->
  0 <= off < Z.of_nat (length data) /\ o' = mkOffsetReader data (off + 1).
Proof.
  unfold ReadByte, Read, ReadAt, bytes_ReaderAt. cbn [rd_r rd_off].
  destruct (Z.ltb_spec off 0) as [?|Hoff]; [intros [= ]|].
  destruct (Z.leb_spec (Z.of_nat (length data)) off) as [?|Hlt]; [intros [= ]|].
  assert (Hlen : length (take 1 (drop (Z.to_nat off) data)) = 1%nat).
  { rewrite length_take, length_drop. lia. }
  rewrite Hlen. cbn. intros [= _ <-].
  split; [lia|]. rewrite int64_small by lia. reflexivity.
Qed.

Lemma ReadUvarint_loop_bytes_ok (n : nat) :
  forall (i x s off v : Z) (o' : OffsetReader (list byte)),
    ReadUvarint_loop n i x s (mkOffsetReader data off) = (v, None, o') ->
    0 <= off /\ off < rd_off o' <= Z.of_nat (length data) /\ rd_r o' = data.
Proof.
  induction n as [|n IH]; intros i x s off v o'; [intros [= ]|].
  rewrite ReadUvarint_loop_S.
  destruct (ReadByte (mkOffsetReader data off)) as [[b [e|]] o1] eqn:Hb; [intros [= ]|].
  apply ReadByte_bytes_ok in Hb as [Hoff ->].
  destruct (byte_to_Z b <? 128).
  - destruct (_ && _); [intros [= ]|]. intros [= _ <-]. cbn.
    split; [lia|split; [lia|reflexivity]].
  - intros Hr. apply IH in Hr as (? & ? & ?).
    split; [lia|split; [lia|assumption]].
Qed.

Lemma ReadUvarint_bytes_ok (off v : Z) (o' : OffsetReader (list byte)) :
  ReadUvarint (mkOffsetReader data off) = (v, None, o') ->
  0 <= off /\ off < rd_off o' <= Z.of_nat (length data) /\ rd_r o' = data.
Proof. apply ReadUvarint_loop_bytes_ok. Qed.

Lemma ReadFull_bytes_range (off : Z) (n : nat) :
  0 <= off -> off + Z.of_nat n <= Z.of_nat (length data) ->
  ReadFull (mkOffsetReader data off) n
  = (take n (drop (Z.to_nat off) data), None, mkOffsetReader data (off + Z.of_nat n)).
Proof.
  intros Hoff Hend.
  set (pre := take (Z.to_nat off) data).
  set (bs := take n (drop (Z.to_nat off) data)).
  set (suf := drop n (drop (Z.to_nat off) data)).
  assert (Hd : data = pre ++ bs ++ suf).
  { unfold pre, bs, suf. rewrite take_drop, take_drop. reflexivity. }
  assert (Hpre : Z.of_nat (length pre) = off).
  { unfold pre. rewrite length_take. lia. }
  assert (Hbs : length bs = n).
  { unfold bs. rewrite length_take, length_drop. lia. }
  rewrite <- Hpre at 1. rewrite <- Hbs at 1.
  rewrite (ReadFull_bytes_at data data_size pre bs suf Hd).
  rewrite Hpre, Hbs. reflexivity.
Qed.

Lemma ReadFull_bytes_ok (off : Z) (n : nat) (bs : list byte)
    (o' : OffsetReader (list byte)) :
  ReadFull (mkOffsetReader data off) n = (bs, None, o') ->
  off <= rd_off o'.
Proof.
  unfold ReadFull. destruct n as [|n]; [intros [= _ <-]; cbn; lia|].
  unfold Read, ReadAt, bytes_ReaderAt. cbn [rd_r rd_off].
  destruct (Z.ltb_spec off 0) as [?|Hoff]; [cbn; intros [= ]|].
  destruct (Z.leb_spec (Z.of_nat (length data)) off) as [?|Hlt]; [cbn; intros [= ]|].
  set (got := take (S n) (drop (Z.to_nat off) data)).
  assert (Hgot : Z.of_nat (length got) <= Z.of_nat (length data) - off).
  { unfold got. rewrite length_take, length_drop. lia. }
  destruct (S n <=? length got)%nat; [|destruct (length got <? S n)%nat; intros [= ]].
  intros [= _ <-]. cbn. rewrite int64_small by lia. lia.
Qed.

Lemma ReadCid_bytes_ok (at_ : Z) (c : Cid) (k : Z) :
  ReadCid data at_ = Ok (c, k) -> 0 <= at_ /\ 0 < k.
Proof.
  unfold ReadCid, NewOffsetReader.
  destruct (ReadUvarint (mkOffsetReader data at_)) as [[v1 [e|]] o1] eqn:H1; [done|].
  apply ReadUvarint_bytes_ok in H1 as (Hat & Ho1 & Hr1).
  destruct o1 as [r1 off1]. cbn in Hr1, Ho1. subst r1.
  destruct (ReadUvarint (mkOffsetReader data off1)) as [[v2 [e|]] o2] eqn:H2; [done|].
  apply ReadUvarint_bytes_ok in H2 as (_ & Ho2 & Hr2).
  destruct o2 as [r2 off2]. cbn in Hr2, Ho2. subst r2.
  destruct (ReadUvarint (mkOffsetReader data off2)) as [[v3 [e|]] o3] eqn:H3; [done|].
  apply ReadUvarint_bytes_ok in H3 as (_ & Ho3 & Hr3).
  destruct o3 as [r3 off3]. cbn in Hr3, Ho3. subst r3.
  destruct (ReadUvarint (mkOffsetReader data off3)) as [[v4 [e|]] o4] eqn:H4; [done|].
  apply ReadUvarint_bytes_ok in H4 as (_ & Ho4 & Hr4).
  destruct o4 as [r4 off4]. cbn in Hr4, Ho4. subst r4.
  destruct (ReadFull (mkOffsetReader data off4) (Z.to_nat v4)) as [[dg [e|]] o5] eqn:H5;
    [done|].
  apply ReadFull_bytes_ok in H5.
  intros [= _ <-]. unfold Offset. lia.
Qed.
End Offsets.

(** ** A frame that the input cuts short *)

Section CutFrame.
Variable data : list byte.
Hypothesis data_size : Z.of_nat (length data) < 2 ^ 63.

Lemma ReadByte_bytes_end :
  ReadByte (mkOffsetReader data (Z.of_nat (length data)))
  = (x00, Some EOF, mkOffsetReader data (Z.of_nat (length data))).
Proof.
  unfold ReadByte, Read, ReadAt, bytes_ReaderAt. cbn [rd_r rd_off].
  destruct (Z.ltb_spec (Z.of_nat (length data)) 0) as [?|_]; [lia|].
  destruct (Z.leb_spec (Z.of_nat (length data)) (Z.of_nat (length data))) as [_|?]; [|lia].
  cbn. rewrite Z.add_0_r, int64_small by lia. reflexivity.
Qed.

(** A varint that lost its last bytes does not decode: every byte that is
    left asks for another one. *)
Lemma ReadUvarint_loop_cut (m : nat) :
  forall (i acc s v : Z) (pre : list byte) (n : nat),
    0 <= v -> (n < length (PutUvarint_loop m v))%nat ->
    data = pre ++ take n (PutUvarint_loop m v) ->
    exists x e o,
      ReadUvarint_loop (S m) i acc s (mkOffsetReader data (Z.of_nat (length pre)))
      = (x, Some e, o).
Proof.
  induction m as [|m IH]; intros i acc s v pre n Hv Hn Hd.
  - cbn [PutUvarint_loop length] in Hn, Hd.
    assert (n = 0%nat) as -> by lia. rewrite take_0, app_nil_r in Hd. subst pre.
    rewrite ReadUvarint_loop_S, ReadByte_bytes_end. eauto.
  - cbn [PutUvarint_loop] in Hn, Hd.
    destruct (Z.leb_spec 128 v) as [Hge|Hlt].
    + destruct n as [|n].
      * rewrite take_0, app_nil_r in Hd. subst pre.
        rewrite ReadUvarint_loop_S, ReadByte_bytes_end. eauto.
      * cbn [take length] in Hn, Hd.
        rewrite ReadUvarint_loop_S.
        rewrite (ReadByte_bytes_at data data_size pre _ _ Hd).
        rewrite continuation_byte by lia.
        assert (Hlow : 0 <= v mod 128 < 128) by (apply Z.mod_pos_bound; lia).
        destruct (Z.ltb_spec (v mod 128 + 128) 128) as [?|_]; [lia|].
        replace (Z.of_nat (length pre) + 1)
          with (Z.of_nat (length (pre ++ [byte_of_Z (Z.lor v 128)])))
          by (rewrite length_app; simpl; lia).
        apply (IH _ _ _ (Z.shiftr v 7) _ n).
        -- apply Z.shiftr_nonneg. exact Hv.
        -- lia.
        -- rewrite <- app_assoc. exact Hd.
    + cbn [length] in Hn. assert (n = 0%nat) as -> by lia.
      rewrite take_0, app_nil_r in Hd. subst pre.
      rewrite ReadUvarint_loop_S, ReadByte_bytes_end. eauto.
Qed.

Lemma ReadUvarint_cut (x : Z) (pre : list byte) (n : nat) :
  (n < length (PutUvarint x))%nat ->
  data = pre ++ take n (PutUvarint x) ->
  exists v e o,
    ReadUvarint (mkOffsetReader data (Z.of_nat (length pre))) = (v, Some e, o).
Proof.
  intros Hn Hd. unfold ReadUvarint, MaxVarintLen64, PutUvarint in *.
  apply (ReadUvarint_loop_cut 9 0 0 0 (uint64 x) pre n); [|exact Hn|exact Hd].
  unfold uint64. apply Z.mod_pos_bound. lia.
Qed.

Lemma ReadFull_bytes_end (off : Z) (n : nat) (bs : list byte)
    (o' : OffsetReader (list byte)) :
  ReadFull (mkOffsetReader data off) n = (bs, None, o') ->
  off <= Z.of_nat (length data) ->
  rd_off o' <= Z.of_nat (length data) /\
  ((0 < n)%nat -> 0 <= off /\ off + Z.of_nat n <= Z.of_nat (length data)).
Proof.
  unfold ReadFull. destruct n as [|n]; [intros [= _ <-] Hoff; cbn; split; [lia|lia]|].
  unfold Read, ReadAt, bytes_ReaderAt. cbn [rd_r rd_off].
  destruct (Z.ltb_spec off 0) as [?|Hoff]; [cbn; intros [= ]|].
  destruct (Z.leb_spec (Z.of_nat (length data)) off) as [?|Hlt]; [cbn; intros [= ]|].
  set (got := take (S n) (drop (Z.to_nat off) data)).
  assert (Hgot : Z.of_nat (length got) <= Z.of_nat (length data) - off).
  { unfold got. rewrite length_take, length_drop. lia. }
  destruct (Nat.leb_spec (S n) (length got)) as [Hle|?];
    [|destruct (length got <? S n)%nat; intros [= ]].
  intros [= _ <-] _. cbn. rewrite int64_small by lia. lia.
Qed.

Lemma ReadCid_bytes_end (at_ : Z) (c : Cid) (k : Z) :
  ReadCid data at_ = Ok (c, k) -> at_ + k <= Z.of_nat (length data).
Proof.
  unfold ReadCid, NewOffsetReader.
  destruct (ReadUvarint (mkOffsetReader data at_)) as [[v1 [e|]] o1] eqn:H1; [done|].
  apply (ReadUvarint_bytes_ok data data_size) in H1 as (Hat & Ho1 & Hr1).
  destruct o1 as [r1 off1]. cbn in Hr1, Ho1. subst r1.
  destruct (ReadUvarint (mkOffsetReader data off1)) as [[v2 [e|]] o2] eqn:H2; [done|].
  apply (ReadUvarint_bytes_ok data data_size) in H2 as (_ & Ho2 & Hr2).
  destruct o2 as [r2 off2]. cbn in Hr2, Ho2. subst r2.
  destruct (ReadUvarint (mkOffsetReader data off2)) as [[v3 [e|]] o3] eqn:H3; [done|].
  apply (ReadUvarint_bytes_ok data data_size) in H3 as (_ & Ho3 & Hr3).
  destruct o3 as [r3 off3]. cbn in Hr3, Ho3. subst r3.
  destruct (ReadUvarint (mkOffsetReader data off3)) as [[v4 [e|]] o4] eqn:H4; [done|].
  apply (ReadUvarint_bytes_ok data data_size) in H4 as (_ & Ho4 & Hr4).
  destruct o4 as [r4 off4]. cbn in Hr4, Ho4. subst r4.
  destruct (ReadFull (mkOffsetReader data off4) (Z.to_nat v4)) as [[dg [e|]] o5] eqn:H5;
    [done|].
  apply ReadFull_bytes_end in H5 as [H5 _]; [|lia].
  intros [= _ <-]. unfold Offset. lia.
Qed.

(** Reading a frame fails when the input ends anywhere inside it. *)
Lemma ReadNode_cut_frame (pre : list byte) (c : Cid) (d : list byte) (n : nat) :
  Z.of_nat (length (frame_bytes (c, d))) < 2 ^ 63 ->
  (n < length (frame_bytes (c, d)))%nat ->
  data = pre ++ take n (frame_bytes (c, d)) ->
  exists e, ReadNode (mkOffsetReader data (Z.of_nat (length pre))) = Err e.
Proof.
  intros Hframe Hn Hd. rewrite frame_bytes_unfold in Hframe, Hn, Hd.
  set (L := Z.of_nat (length (cid_bytes c ++ d))) in *.
  rewrite (length_app (PutUvarint L)) in Hframe. fold L in Hframe.
  unfold ReadNode.
  destruct (Nat.lt_ge_cases n (length (PutUvarint L))) as [Hcut|Hfull].
  - rewrite take_app_le in Hd by lia.
    destruct (ReadUvarint_cut L pre n Hcut Hd) as (v & e & o & ->). eauto.
  - rewrite take_app_ge in Hd by exact Hfull.
    rewrite (length_app (PutUvarint L)) in Hn. fold L in Hn.
    assert (Hlen : Z.of_nat (length data)
                   = Z.of_nat (length pre) + Z.of_nat n).
    { rewrite Hd, !length_app, length_take. lia. }
    assert (HL : 0 <= L < 2 ^ 64) by lia.
    rewrite (ReadUvarint_PutUvarint data data_size L pre _ HL Hd).
    unfold Offset. cbn [rd_off rd_r].
    set (p := Z.of_nat (length pre) + Z.of_nat (length (PutUvarint L))).
    destruct (ReadCid data p) as [[c' k]|e] eqn:Hc; [|eauto].
    pose proof (ReadCid_bytes_end _ _ _ Hc) as Hend.
    destruct (ReadCid_bytes_ok data data_size _ _ _ Hc) as [Hp Hk].
    destruct (Z.ltb_spec L k) as [?|HkL]; [eauto|].
    unfold SeekOffset. cbn [rd_r]. rewrite int64_small by lia.
    destruct (ReadFull _ _) as [[payload [e|]] o'] eqn:Hf; [eauto|].
    exfalso. apply ReadFull_bytes_end in Hf as [_ Hf]; [|lia].
    destruct (Z.eq_dec L k) as [Heq|Hne]; [lia|].
    assert (0 < Z.to_nat (L - k))%nat as Hpos by lia.
    specialize (Hf Hpos). lia.
Qed.
End CutFrame.

(** ** [Get] *)

Lemma Get_at_frame {I : Type} `{index.Index I} (data : list byte) (i : I)
    (key c : Cid) (d pre suf : list byte) :
  Z.of_nat (length data) < 2 ^ 63 -> wf_Cid c ->
  data = pre ++ frame_bytes (c, d) ++ suf ->
  index.Get i key = Ok (Z.of_nat (length pre)) ->
  blockstore.Get (blockstore.ReadOnlyOf data i) key
  = blockstore.Return (if Equals c key then Ok (blockstore.mkBlock d key)
                       else Err ErrNotFound).
Proof.
  intros Hsize Hwf Hd Hget.
  assert (Hpre : Z.of_nat (length pre) <= Z.of_nat (length data)).
  { rewrite Hd, length_app. lia. }
  unfold blockstore.Get, blockstore.ReadOnlyOf, blockstore.readBlock.
  cbn [blockstore.idx blockstore.backing]. rewrite Hget.
  unfold bufio_NewReader, NewOffsetReader. rewrite int64_small by lia.
  rewrite (frame_ReadNode data Hsize pre suf c d Hwf Hd).
  destruct (Equals c key); reflexivity.
Qed.

Lemma Get_cut_frame {I : Type} `{index.Index I} (data : list byte) (i : I)
    (key c : Cid) (d pre : list byte) (n : nat) :
  Z.of_nat (length data) < 2 ^ 63 ->
  Z.of_nat (length (frame_bytes (c, d))) < 2 ^ 63 ->
  (n < length (frame_bytes (c, d)))%nat ->
  data = pre ++ take n (frame_bytes (c, d)) ->
  index.Get i key = Ok (Z.of_nat (length pre)) ->
  blockstore.Get (blockstore.ReadOnlyOf data i) key
  = blockstore.Return (Err ErrNotFound).
Proof.
  intros Hsize Hframe Hn Hd Hget.
  assert (Hpre : Z.of_nat (length pre) <= Z.of_nat (length data)).
  { rewrite Hd, length_app. lia. }
  unfold blockstore.Get, blockstore.ReadOnlyOf, blockstore.readBlock.
  cbn [blockstore.idx blockstore.backing]. rewrite Hget.
  unfold bufio_NewReader, NewOffsetReader. rewrite int64_small by lia.
  destruct (ReadNode_cut_frame data Hsize pre c d n Hframe Hn Hd) as (e & ->).
  reflexivity.
Qed.

Lemma Get_error_is_NotFound {R I : Type} `{ReaderAt R} `{index.Index I}
    (b : blockstore.ReadOnly R I) (i : I) (key : Cid) (offset : Z) :
  blockstore.idx b = Some i ->
  index.Get i key = Ok offset ->
  (forall e, blockstore.readBlock b (int64 offset) = Err e ->
             blockstore.Get b key = blockstore.Return (Err ErrNotFound)) /\
  (forall blk, blockstore.Get b key = blockstore.Return (Ok blk) ->
               blockstore.block_Cid blk = key /\
               blockstore.readBlock b (int64 offset)
               = Ok (key, blockstore.RawData blk)) /\
  (blockstore.Get b key = blockstore.Return (Err ErrNotFound) \/
   exists bytes, blockstore.Get b key
                 = blockstore.Return (Ok (blockstore.mkBlock bytes key))).
Proof.
  intros Hi Hget. unfold blockstore.Get. rewrite Hi, Hget.
  split; [intros e ->; reflexivity|].
  destruct (blockstore.readBlock b (int64 offset)) as [[entry bytes]|e];
    [|split; [intros blk [= ]|by left]].
  unfold Equals. destruct (bool_decide_reflect (entry = key)) as [->|Hne]; cbn [negb].
  - split; [|right; eexists; reflexivity].
    unfold blockstore.NewBlockWithCid. intros blk [= <-]. done.
  - split; [intros blk [= ]|by left].
Qed.

(** C4. For every CID [key] for which the index returns an offset:
    over a byte slice that holds at that offset the frame of a block
    [(c, d)], [Get] returns the block made of [key] and the frame's data
    bytes [d] when [c] is [key], and exactly NotFound when [c] is another
    CID; if the slice ends anywhere inside that frame, so that reading the
    frame runs into the end of the input, [Get] returns exactly NotFound;
    and over any backing whatsoever every error of reading the frame is
    turned into NotFound, a block that is returned carries [key] and the
    data bytes that reading the frame yielded, and [Get] returns NotFound or
    a block under [key], never another error. *)
Theorem Get_NotFound_or_frame_data {I : Type} `{index.Index I} (i : I)
    (key c : Cid) (pre d suf : list byte) :
  Z.of_nat (length (pre ++ frame_bytes (c, d) ++ suf)) < 2 ^ 63 ->
  wf_Cid c ->
  index.Get i key = Ok (Z.of_nat (length pre)) ->
  blockstore.Get (blockstore.ReadOnlyOf (pre ++ frame_bytes (c, d) ++ suf) i) key
  = blockstore.Return (if bool_decide (c = key)
                       then Ok (blockstore.mkBlock d key)
                       else Err ErrNotFound) /\
  (forall n : nat,
      (n < length (frame_bytes (c, d)))%nat ->
      blockstore.Get (blockstore.ReadOnlyOf (pre ++ take n (frame_bytes (c, d))) i) key
      = blockstore.Return (Err ErrNotFound)) /\
  (forall (R : Type) (HR : ReaderAt R) (backing : R),
      (forall e,
          blockstore.readBlock (blockstore.ReadOnlyOf backing i)
            (int64 (Z.of_nat (length pre))) = Err e ->
          blockstore.Get (blockstore.ReadOnlyOf backing i) key
          = blockstore.Return (Err ErrNotFound)) /\
      (forall blk,
          blockstore.Get (blockstore.ReadOnlyOf backing i) key
          = blockstore.Return (Ok blk) ->
          blockstore.block_Cid blk = key /\
          blockstore.readBlock (blockstore.ReadOnlyOf backing i)
            (int64 (Z.of_nat (length pre))) = Ok (key, blockstore.RawData blk)) /\
      (blockstore.Get (blockstore.ReadOnlyOf backing i) key
       = blockstore.Return (Err ErrNotFound) \/
       exists bytes,
         blockstore.Get (blockstore.ReadOnlyOf backing i) key
         = blockstore.Return (Ok (blockstore.mkBlock bytes key)))).
Proof.
  intros Hsize Hwf Hget. split; [|split].
  - apply (Get_at_frame _ i key c d pre suf Hsize Hwf eq_refl Hget).
  - intros n Hn. rewrite !length_app in Hsize.
    apply (Get_cut_frame _ i key c d pre n); [|lia|exact Hn|reflexivity|exact Hget].
    rewrite length_app, length_take. lia.
  - intros R HR backing.
    apply (Get_error_is_NotFound (blockstore.ReadOnlyOf backing i) i key);
      [reflexivity|exact Hget].
Qed.

Lemma Get_NotFound_or_frame_data_witness :
  blockstore.Get
    (blockstore.ReadOnlyOf
       (take 28 sample_car ++ frame_bytes (cid_b, [x62; x62]) ++ drop 39 sample_car)
       sample_index) cid_b
  = blockstore.Return (if bool_decide (cid_b = cid_b)
                       then Ok (blockstore.mkBlock [x62; x62] cid_b)
                       else Err ErrNotFound) /\
  (forall n : nat,
      (n < length (frame_bytes (cid_b, [x62; x62])))%nat ->
      blockstore.Get
        (blockstore.ReadOnlyOf
           (take 28 sample_car ++ take n (frame_bytes (cid_b, [x62; x62])))
           sample_index) cid_b
      = blockstore.Return (Err ErrNotFound)) /\
  (forall (R : Type) (HR : ReaderAt R) (backing : R),
      (forall e,
          blockstore.readBlock (blockstore.ReadOnlyOf backing sample_index)
            (int64 (Z.of_nat (length (take 28 sample_car)))) = Err e ->
          blockstore.Get (blockstore.ReadOnlyOf backing sample_index) cid_b
          = blockstore.Return (Err ErrNotFound)) /\
      (forall blk,
          blockstore.Get (blockstore.ReadOnlyOf backing sample_index) cid_b
          = blockstore.Return (Ok blk) ->
          blockstore.block_Cid blk = cid_b /\
          blockstore.readBlock (blockstore.ReadOnlyOf backing sample_index)
            (int64 (Z.of_nat (length (take 28 sample_car))))
          = Ok (cid_b, blockstore.RawData blk)) /\
      (blockstore.Get (blockstore.ReadOnlyOf backing sample_index) cid_b
       = blockstore.Return (Err ErrNotFound) \/
       exists bytes,
         blockstore.Get (blockstore.ReadOnlyOf backing sample_index) cid_b
         = blockstore.Return (Ok (blockstore.mkBlock bytes cid_b)))).
Proof.
  apply (Get_NotFound_or_frame_data sample_index cid_b cid_b (take 28 sample_car)
           [x62; x62] (drop 39 sample_car)).
  - vm_compute. reflexivity.
  - vm_compute. repeat split; discriminate.
  - vm_compute. reflexivity.
Defined.


(** C10 (as amended). For every ReadOnly store over a byte slice and every
    CID [key]: whenever [Get] returns a block, [Has] returns [(true, nil)];
    and whenever [Has] returns [(true, nil)] and the frame at the indexed
    offset lies within the backing (its length covers its CID and that many
    bytes follow its varint), [Get] returns a block. Both come from the same
    index lookup and the same comparison of the frame's CID with [key]; [Get]
    reads the whole frame in addition. *)
Theorem Has_Get_agree_on_complete_frames {I : Type} `{index.Index I}
    (b : blockstore.ReadOnly (list byte) I) (key : Cid) :
  Z.of_nat (length (blockstore.backing b)) < 2 ^ 63 ->
  (forall blk, blockstore.Get b key = blockstore.Return (Ok blk) ->
               blockstore.Has b key = blockstore.Return (true, None)) /\
  ((forall i offset, blockstore.idx b = Some i -> index.Get i key = Ok offset ->
                     frame_complete (blockstore.backing b) (int64 offset)) ->
   blockstore.Has b key = blockstore.Return (true, None) ->
   exists data, blockstore.Get b key
                = blockstore.Return (Ok (blockstore.mkBlock data key))).
Proof.
  intros Hsize. destruct b as [data oi]. cbn [blockstore.backing blockstore.idx] in *.
  split.
  - intros blk. unfold blockstore.Get, blockstore.Has, blockstore.readBlock.
    cbn [blockstore.backing blockstore.idx].
    destruct oi as [i|]; [|done].
    destruct (index.Get i key) as [offset|e]; [|intros [= ]].
    unfold ReadNode, bufio_NewReader.
    destruct (ReadUvarint (NewOffsetReader data (int64 offset))) as [[L [e|]] o] eqn:Hu;
      [intros [= ]|].
    pose proof (ReadUvarint_rd_r _ _ _ _ Hu) as Hr. cbn in Hr. rewrite Hr.
    destruct (ReadCid data (Offset o)) as [[c k]|e]; [|intros [= ]].
    destruct (L <? k); [intros [= ]|].
    destruct (ReadFull _ _) as [[payload [e|]] o2]; [intros [= ]|].
    destruct (Equals c key); [|intros [= ]]. reflexivity.
  - intros Hcomplete. unfold blockstore.Get, blockstore.Has, blockstore.readBlock.
    cbn [blockstore.backing blockstore.idx].
    destruct oi as [i|]; [|done].
    destruct (index.Get i key) as [offset|e] eqn:Hget; [|intros [= ]].
    specialize (Hcomplete i offset eq_refl Hget).
    unfold ReadNode, bufio_NewReader.
    destruct (ReadUvarint (NewOffsetReader data (int64 offset))) as [[L [e|]] o] eqn:Hu;
      [intros [= ]|].
    pose proof (ReadUvarint_rd_r _ _ _ _ Hu) as Hr. cbn in Hr. rewrite Hr.
    destruct (ReadCid data (Offset o)) as [[c k]|e] eqn:Hc; [|intros [= ]].
    intros [= Heq].
    destruct (Hcomplete L o c k Hu Hc) as [HkL Hend].
    destruct (ReadCid_bytes_ok data Hsize _ _ _ Hc) as [Hp Hk].
    destruct (Z.ltb_spec L k) as [?|_]; [lia|].
    unfold SeekOffset. rewrite Hr, int64_small by lia.
    rewrite (ReadFull_bytes_range data Hsize) by lia.
    rewrite Heq. cbn [negb]. eexists. reflexivity.
Qed.

Lemma sample_car_length : length sample_car = 51%nat.
Proof. vm_compute. reflexivity. Qed.

Lemma sample_Get_cid_b : index.Get sample_index cid_b = Ok 28.
Proof. vm_compute. reflexivity. Qed.

Lemma sample_ReadUvarint_28 :
  ReadUvarint (NewOffsetReader sample_car (int64 28))
  = (10, None, mkOffsetReader sample_car 29).
Proof. vm_compute. reflexivity. Qed.

Lemma sample_ReadCid_29 : ReadCid sample_car 29 = Ok (cid_b, 8).
Proof. vm_compute. reflexivity. Qed.

Lemma sample_frames_complete (i : index.multiWidthIndex) (offset : Z) :
  blockstore.idx sample_store = Some i -> index.Get i cid_b = Ok offset ->
  frame_complete (blockstore.backing sample_store) (int64 offset).
Proof.
  change (blockstore.idx sample_store) with (Some sample_index).
  change (blockstore.backing sample_store) with sample_car.
  intros [= <-]. rewrite sample_Get_cid_b. intros [= <-].
  intros L o c k Hu. rewrite sample_ReadUvarint_28 in Hu. injection Hu as <- <-.
  unfold Offset. cbn [rd_off]. rewrite sample_ReadCid_29. intros [= <- <-].
  rewrite sample_car_length. lia.
Qed.

Lemma Has_Get_agree_on_complete_frames_witness :
  (forall blk, blockstore.Get sample_store cid_b = blockstore.Return (Ok blk) ->
               blockstore.Has sample_store cid_b = blockstore.Return (true, None)) /\
  ((forall i offset, blockstore.idx sample_store = Some i ->
                     index.Get i cid_b = Ok offset ->
                     frame_complete (blockstore.backing sample_store) (int64 offset)) ->
   blockstore.Has sample_store cid_b = blockstore.Return (true, None) ->
   exists data, blockstore.Get sample_store cid_b
                = blockstore.Return (Ok (blockstore.mkBlock data cid_b))).
Proof.
  apply (Has_Get_agree_on_complete_frames sample_store cid_b).
  vm_compute. reflexivity.
Defined.

(** C10 (as stated) fails: over the sample payload without its last byte the
    index that [Generate] builds still lists [cid_c]; [Has] reads the frame's
    varint and CID and answers [(true, nil)], while [Get] reads the whole
    frame, hits the end of the payload and answers NotFound. *)
Lemma Has_true_Get_NotFound_on_truncated_frame :
  @index.Generate _ _ empty_roots_codec 4 (take 50 sample_car) = Some (Ok sample_index) /\
  blockstore.Has truncated_store cid_c = blockstore.Return (true, None) /\
  blockstore.Get truncated_store cid_c = blockstore.Return (Err ErrNotFound).
Proof. repeat split; vm_compute; reflexivity. Qed.

(** ** [AllKeysChan] *)

Section KeysChannel.
Context {R I : Type} `{ReaderAt R} `{HeaderCodec}.
Variable b : blockstore.ReadOnly R I.

Lemma AllKeysChan_initial (ctx_done : bool) (s0 : blockstore.system R) :
  blockstore.AllKeysChan b ctx_done = Ok s0 ->
  exists rdr, s0 = blockstore.mkSystem (blockstore.Loop rdr)
                     (blockstore.mkChan [] false) ctx_done [] false.
Proof.
  unfold blockstore.AllKeysChan.
  destruct (ReadHeader _) as [hdr|e]; [|done].
  destruct (HeaderSize hdr) as [offset|e]; [|done].
  intros [= <-]. eauto.
Qed.

Lemma step_never_closes (s s' : blockstore.system R) (ev : blockstore.event) :
  blockstore.step b s ev s' ->
  blockstore.ch_closed (blockstore.sys_ch s) = false ->
  blockstore.sys_ended s = false ->
  blockstore.ch_closed (blockstore.sys_ch s') = false /\
  blockstore.sys_ended s' = false /\ ev <> blockstore.EvRecvClosed.
Proof.
  intros Hstep. destruct Hstep; cbn; intros Hc He; done.
Qed.

Lemma run_never_closes (s0 s : blockstore.system R) (tr : list blockstore.event) :
  blockstore.run b s0 tr s ->
  blockstore.ch_closed (blockstore.sys_ch s0) = false ->
  blockstore.sys_ended s0 = false ->
  blockstore.ch_closed (blockstore.sys_ch s) = false /\
  blockstore.sys_ended s = false /\ (blockstore.EvRecvClosed ∉ tr).
Proof.
  intros Hrun Hc0 He0.
  induction Hrun as [s|s tr s' ev s'' Hrun IH Hstep].
  - split; [done|]. split; [done|]. apply not_elem_of_nil.
  - destruct (IH Hc0 He0) as (Hc & He & Htr).
    destruct (step_never_closes _ _ _ Hstep Hc He) as (Hc' & He' & Hev).
    split; [done|]. split; [done|].
    rewrite elem_of_app, list_elem_of_singleton. intros [?|?]; [done|].
    by apply Hev.
Qed.

(** C9. For every ReadOnly store, in every execution of the system that
    [AllKeysChan] starts (whether the scan reaches the end of the payload,
    hits a read error or is cancelled) the channel is never closed and no
    receive reports end-of-sequence; once the producer has returned and the
    queue is empty, no receive can take place: the only step left is a
    cancellation, so a consumer that keeps receiving stays blocked. *)
Theorem AllKeysChan_never_closes_channel (ctx_done : bool)
    (s0 s : blockstore.system R) (tr : list blockstore.event) :
  blockstore.AllKeysChan b ctx_done = Ok s0 ->
  blockstore.run b s0 tr s ->
  blockstore.ch_closed (blockstore.sys_ch s) = false /\
  blockstore.sys_ended s = false /\
  (blockstore.EvRecvClosed ∉ tr) /\
  (blockstore.sys_producer s = blockstore.Returned ->
   blockstore.ch_buf (blockstore.sys_ch s) = [] ->
   forall ev s', blockstore.step b s ev s' -> ev = blockstore.EvCancel).
Proof.
  intros Hinit Hrun.
  apply AllKeysChan_initial in Hinit as [rdr ->].
  destruct (run_never_closes _ _ _ Hrun eq_refl eq_refl) as (Hc & He & Htr).
  split; [done|]. split; [done|]. split; [done|].
  intros Hp Hbuf ev s' Hstep.
  destruct Hstep; cbn in *; try done.
Qed.
End KeysChannel.

Section KeysOrder.
Context {I : Type} `{HeaderCodec}.
Variables (P : list byte) (h : CarHeader) (blocks : list (Cid * list byte)).
Variable oi : option I.
Hypothesis P_wf : wf_CarV1 P h blocks.

Local Abbreviation b := (blockstore.mkReadOnly P oi).

Lemma P_size : Z.of_nat (length P) < 2 ^ 63.
Proof. destruct P_wf as (hb & _ & _ & _ & _ & _ & Hs). exact Hs. Qed.

Lemma loop_body_at_end :
  blockstore.loop_body b (mkOffsetReader P (Z.of_nat (length P))) = blockstore.Returned.
Proof.
  unfold blockstore.loop_body. rewrite (ReadUvarint_at_end P P_size). reflexivity.
Qed.

Lemma loop_body_at_frame (pre suf : list byte) (blk : Cid * list byte) :
  P = pre ++ frame_bytes blk ++ suf -> wf_Cid (fst blk) ->
  blockstore.loop_body b (mkOffsetReader P (Z.of_nat (length pre)))
  = blockstore.Select (fst blk)
      (mkOffsetReader P (Z.of_nat (length (pre ++ frame_bytes blk)))).
Proof.
  destruct blk as [c d]. cbn [fst]. intros Hd Hc.
  unfold blockstore.loop_body.
  rewrite (frame_ReadUvarint P P_size pre suf c d Hd).
  unfold Offset. cbn [rd_off blockstore.backing].
  rewrite (frame_ReadCid P P_size pre suf c d Hc Hd).
  pose proof (frame_end_le P pre suf c d Hd) as Hend.
  pose proof (frame_L_range P P_size pre suf c d Hd) as HL.
  pose proof P_size as Hs.
  rewrite (int64_small (Z.of_nat (length (cid_bytes c ++ d)))) by lia.
  rewrite int64_small by lia.
  unfold SeekOffset. cbn [rd_r]. do 2 f_equal.
  rewrite (length_app pre), Nat2Z.inj_add, frame_bytes_length. lia.
Qed.

Lemma step_keys_invariant (hd : list byte) (s s' : blockstore.system (list byte))
    (ev : blockstore.event) :
  P = hd ++ concat (map frame_bytes blocks) ->
  blockstore.step b s ev s' ->
  keys_invariant P hd blocks s -> keys_invariant P hd blocks s'.
Proof.
  intros HP Hstep (sent & Hem & Hat & Hcap).
  assert (Hcids : Forall (fun blk => wf_Cid (fst blk)) blocks).
  { destruct P_wf as (hb & _ & _ & _ & _ & Hc & _). exact Hc. }
  unfold keys_invariant.
  destruct Hstep; unfold emitted in *;
    cbn [blockstore.sys_received blockstore.sys_ch blockstore.ch_buf
         blockstore.sys_done blockstore.sys_producer] in *.
  - (* the loop body *)
    exists sent. split; [done|]. split; [|done].
    cbn [producer_at] in Hat. destruct Hat as (rest & Hb & ->).
    destruct rest as [|blk rest].
    + rewrite app_nil_r in Hb. subst sent.
      rewrite <- HP, loop_body_at_end. exists []. rewrite app_nil_r. done.
    + rewrite (loop_body_at_frame _ (concat (map frame_bytes rest)) blk).
      * exists blk, rest. split; [done|]. split; [done|].
        rewrite map_app, concat_app. cbn [map concat].
        rewrite app_nil_r, app_assoc. reflexivity.
      * rewrite HP, Hb, map_app, concat_app, <- !app_assoc. reflexivity.
      * rewrite Forall_forall in Hcids. apply Hcids. rewrite Hb.
        apply elem_of_app. right. apply elem_of_cons. by left.
  - (* select: send *)
    cbn [producer_at] in Hat. destruct Hat as (blk & rest & Hb & -> & ->).
    exists (sent ++ [blk]). split; [|split].
    + rewrite (app_assoc rcv), Hem, map_app. reflexivity.
    + exists rest. split; [|done]. rewrite <- app_assoc. exact Hb.
    + rewrite length_app. cbn [length]. unfold blockstore.ch_cap in *. lia.
  - (* select: done *)
    cbn [producer_at] in Hat. destruct Hat as (blk & rest & Hb & -> & ->).
    exists sent. split; [done|]. split; [|done].
    exists (blk :: rest). split; [done|]. done.
  - (* receive *)
    exists sent. split; [|split].
    + rewrite <- app_assoc. exact Hem.
    + exact Hat.
    + cbn [length] in Hcap. lia.
  - (* receive on a closed channel *)
    exists sent. done.
  - (* cancel *)
    exists sent. split; [done|]. split; [|done].
    destruct p as [rdr|c rdr|]; cbn [producer_at] in *; [done|done|].
    destruct Hat as (rest & Hb & _). exists rest. done.
Qed.
End KeysOrder.

Lemma run_cons {R I : Type} `{ReaderAt R} (b : blockstore.ReadOnly R I)
    (s s1 s2 : blockstore.system R) (ev : blockstore.event)
    (tr : list blockstore.event) :
  blockstore.step b s ev s1 -> blockstore.run b s1 tr s2 ->
  blockstore.run b s (ev :: tr) s2.
Proof.
  intros Hstep Hrun. induction Hrun as [s1|s1 tr s' ev' s'' Hrun IH Hstep'].
  - apply (blockstore.run_snoc b s [] s ev s1); [constructor|exact Hstep].
  - rewrite app_comm_cons. eapply blockstore.run_snoc; [apply IH; exact Hstep|exact Hstep'].
Qed.

Section KeysRuns.
Context {I : Type} `{HeaderCodec}.
Variables (P : list byte) (h : CarHeader) (blocks : list (Cid * list byte)).
Variable oi : option I.
Hypothesis P_wf : wf_CarV1 P h blocks.

Local Abbreviation b := (blockstore.mkReadOnly P oi).

Lemma AllKeysChan_wf (ctx_done : bool) :
  exists hd : list byte,
    P = hd ++ concat (map frame_bytes blocks) /\
    blockstore.AllKeysChan b ctx_done
    = Ok (blockstore.mkSystem
            (blockstore.Loop (mkOffsetReader P (Z.of_nat (length hd))))
            (blockstore.mkChan [] false) ctx_done [] false).
Proof.
  pose proof (wf_ReadHeader P h blocks P_wf) as Hrh.
  destruct (wf_HeaderSize P h blocks P_wf) as (hb & HP & Hhs).
  exists (LdWrite [hb]). split; [exact HP|].
  unfold blockstore.AllKeysChan. cbn [blockstore.backing].
  rewrite Hrh, Hhs. unfold NewOffsetReader.
  pose proof (P_size P h blocks P_wf) as Hs.
  assert (Z.of_nat (length (LdWrite [hb])) <= Z.of_nat (length P)).
  { rewrite HP, length_app. lia. }
  rewrite int64_small by lia. reflexivity.
Qed.

Lemma run_keys_invariant (hd : list byte) (s0 s : blockstore.system (list byte))
    (tr : list blockstore.event) :
  P = hd ++ concat (map frame_bytes blocks) ->
  keys_invariant P hd blocks s0 ->
  blockstore.run b s0 tr s -> keys_invariant P hd blocks s.
Proof.
  intros HP Hinv Hrun. induction Hrun as [s|s tr s' ev s'' Hrun IH Hstep]; [done|].
  apply (step_keys_invariant P h blocks oi P_wf hd s' s'' ev HP Hstep).
  apply IH. exact Hinv.
Qed.

(** Without cancellation a consumer that takes each key as it comes is
    served every key of the payload, after which the producer returns. *)
Lemma run_all_frames (hd : list byte) (rest : list (Cid * list byte)) :
  P = hd ++ concat (map frame_bytes blocks) ->
  forall sent : list (Cid * list byte),
    blocks = sent ++ rest ->
    exists tr : list blockstore.event,
      (blockstore.EvCancel ∉ tr) /\
      blockstore.run b
        (blockstore.mkSystem
           (blockstore.Loop
              (mkOffsetReader P (Z.of_nat (length (hd ++ concat (map frame_bytes sent))))))
           (blockstore.mkChan [] false) false (map fst sent) false)
        tr
        (blockstore.mkSystem blockstore.Returned (blockstore.mkChan [] false) false
           (map fst blocks) false).
Proof.
  intros HP.
  assert (Hcids : Forall (fun blk => wf_Cid (fst blk)) blocks).
  { destruct P_wf as (hb & _ & _ & _ & _ & Hc & _). exact Hc. }
  induction rest as [|blk rest IH]; intros sent Hb.
  - rewrite app_nil_r in Hb. subst sent.
    exists [blockstore.EvRead]. split.
    { rewrite list_elem_of_singleton. done. }
    rewrite <- HP, <- (loop_body_at_end P h blocks oi P_wf).
    eapply run_cons; [apply blockstore.step_read|apply blockstore.run_nil].
  - destruct (IH (sent ++ [blk])) as (tr & Hnc & Hrun).
    { rewrite <- app_assoc. exact Hb. }
    exists (blockstore.EvRead :: blockstore.EvSend (fst blk) ::
            blockstore.EvRecv (fst blk) :: tr).
    split.
    { rewrite !elem_of_cons. intros [?|[?|[?|?]]]; done. }
    assert (Hbody :
      blockstore.loop_body b
        (mkOffsetReader P (Z.of_nat (length (hd ++ concat (map frame_bytes sent)))))
      = blockstore.Select (fst blk)
          (mkOffsetReader P
             (Z.of_nat (length (hd ++ concat (map frame_bytes (sent ++ [blk]))))))).
    { rewrite (loop_body_at_frame P h blocks oi P_wf
                 (hd ++ concat (map frame_bytes sent))
                 (concat (map frame_bytes rest)) blk).
      - rewrite map_app, concat_app. cbn [map concat].
        rewrite app_nil_r, app_assoc. reflexivity.
      - rewrite HP, Hb, map_app, concat_app, <- !app_assoc. reflexivity.
      - rewrite Forall_forall in Hcids. apply Hcids. rewrite Hb.
        apply elem_of_app. right. apply elem_of_cons. by left. }
    eapply run_cons; [apply blockstore.step_read|]. rewrite Hbody.
    eapply run_cons.
    { apply blockstore.step_send; [|reflexivity].
      unfold blockstore.ch_cap. cbn [length]. lia. }
    cbn [app].
    eapply run_cons; [apply blockstore.step_recv|].
    rewrite (map_app fst) in Hrun. exact Hrun.
Qed.
End KeysRuns.

(** C6 (as amended). For every ReadOnly store over a well-formed CARv1
    payload, [AllKeysChan] starts a producer such that, in every execution:
    the CIDs sent so far are those of a leading run of the payload's frames,
    in on-disk order; at most five are queued; if the context is not
    cancelled the producer returns only after sending every CID; and once the
    context is cancelled the producer can return at each [select] it reaches,
    and it neither sends nor reads on while the queue is full. While the
    queue has room a cancelled producer may still send. Without cancellation
    a consumer that keeps receiving is handed every CID. *)
Theorem AllKeysChan_keys_in_frame_order {I : Type} `{HeaderCodec}
    (P : list byte) (h : CarHeader) (blocks : list (Cid * list byte))
    (oi : option I) (ctx_done : bool) :
  wf_CarV1 P h blocks ->
  exists s0 : blockstore.system (list byte),
    blockstore.AllKeysChan (blockstore.mkReadOnly P oi) ctx_done = Ok s0 /\
    (forall tr s,
        blockstore.run (blockstore.mkReadOnly P oi) s0 tr s ->
        (exists sent rest, blocks = sent ++ rest /\ emitted s = map fst sent) /\
        (length (blockstore.ch_buf (blockstore.sys_ch s)) <= blockstore.ch_cap)%nat /\
        (blockstore.sys_done s = false ->
         blockstore.sys_producer s = blockstore.Returned ->
         emitted s = map fst blocks) /\
        (blockstore.sys_done s = true ->
         forall c rdr, blockstore.sys_producer s = blockstore.Select c rdr ->
           (exists s', blockstore.step (blockstore.mkReadOnly P oi) s blockstore.EvDone s' /\
                       blockstore.sys_producer s' = blockstore.Returned) /\
           (length (blockstore.ch_buf (blockstore.sys_ch s)) = blockstore.ch_cap ->
            forall ev s', blockstore.step (blockstore.mkReadOnly P oi) s ev s' ->
                          is_send ev = false /\ ev <> blockstore.EvRead))) /\
    (ctx_done = false ->
     exists tr s,
       blockstore.run (blockstore.mkReadOnly P oi) s0 tr s /\
       (blockstore.EvCancel ∉ tr) /\
       blockstore.sys_received s = map fst blocks /\
       blockstore.sys_producer s = blockstore.Returned).
Proof.
  intros Hwf.
  destruct (AllKeysChan_wf P h blocks oi Hwf ctx_done) as (hd & HP & Hinit).
  eexists. split; [exact Hinit|]. split.
  - intros tr s Hrun.
    assert (Hinv : keys_invariant P hd blocks s).
    { eapply (run_keys_invariant P h blocks oi Hwf hd _ s tr HP); [|exact Hrun].
      exists []. unfold emitted.
      cbn [blockstore.sys_received blockstore.sys_ch blockstore.ch_buf
           blockstore.sys_done blockstore.sys_producer producer_at
           map app concat length].
      split; [done|]. split; [|unfold blockstore.ch_cap; lia].
      exists blocks. split; [done|]. rewrite app_nil_r. reflexivity. }
    destruct Hinv as (sent & Hem & Hat & Hcap).
    split; [|split; [exact Hcap|split]].
    + destruct (blockstore.sys_producer s) as [rdr|c rdr|]; cbn in Hat.
      * destruct Hat as (rest & Hb & _). eauto.
      * destruct Hat as (blk & rest & Hb & _). eauto.
      * destruct Hat as (rest & Hb & _). eauto.
    + intros Hdone Hp. rewrite Hp in Hat. cbn in Hat.
      destruct Hat as (rest & Hb & Hrest). rewrite (Hrest Hdone), app_nil_r in Hb.
      rewrite Hem, Hb. reflexivity.
    + intros Hdone c rdr Hp.
      destruct s as [p ch done rcv ended]. cbn in Hdone, Hp. subst p done. split.
      * eexists. split; [apply blockstore.step_done|reflexivity].
      * cbn. intros Hfull ev s' Hstep. unfold blockstore.ch_cap in *.
        inversion Hstep; subst; cbn in *; try done.
        unfold blockstore.ch_cap in *. lia.
  - intros ->.
    destruct (run_all_frames P h blocks oi Hwf hd blocks HP []) as (tr & Hnc & Hrun);
      [reflexivity|].
    cbn [map concat] in Hrun. rewrite app_nil_r in Hrun.
    eexists _, _. split; [exact Hrun|]. split; [exact Hnc|]. split; reflexivity.
Qed.

Lemma AllKeysChan_keys_in_frame_order_witness :
  exists s0 : blockstore.system (list byte),
    @blockstore.AllKeysChan _ _ _ empty_roots_codec sample_store false = Ok s0 /\
    (forall tr s,
        blockstore.run sample_store s0 tr s ->
        (exists sent rest, sample_blocks = sent ++ rest /\ emitted s = map fst sent) /\
        (length (blockstore.ch_buf (blockstore.sys_ch s)) <= blockstore.ch_cap)%nat /\
        (blockstore.sys_done s = false ->
         blockstore.sys_producer s = blockstore.Returned ->
         emitted s = map fst sample_blocks) /\
        (blockstore.sys_done s = true ->
         forall c rdr, blockstore.sys_producer s = blockstore.Select c rdr ->
           (exists s', blockstore.step sample_store s blockstore.EvDone s' /\
                       blockstore.sys_producer s' = blockstore.Returned) /\
           (length (blockstore.ch_buf (blockstore.sys_ch s)) = blockstore.ch_cap ->
            forall ev s', blockstore.step sample_store s ev s' ->
                          is_send ev = false /\ ev <> blockstore.EvRead))) /\
    (false = false ->
     exists tr s,
       blockstore.run sample_store s0 tr s /\
       (blockstore.EvCancel ∉ tr) /\
       blockstore.sys_received s = map fst sample_blocks /\
       blockstore.sys_producer s = blockstore.Returned).
Proof.
  apply (@AllKeysChan_keys_in_frame_order _ empty_roots_codec
           sample_car sample_header sample_blocks (Some sample_index) false).
  exact sample_car_wf.
Defined.

(** Concrete executions are built one event at a time. *)
Ltac run_event :=
  eapply run_cons;
  [ first [ apply blockstore.step_read
          | apply blockstore.step_send; [unfold blockstore.ch_cap; cbn; lia|reflexivity]
          | apply blockstore.step_done
          | apply blockstore.step_recv
          | apply blockstore.step_cancel ]
  | vm_compute ].

Lemma sample_AllKeysChan :
  @blockstore.AllKeysChan _ _ _ empty_roots_codec sample_store false
  = Ok (blockstore.mkSystem (blockstore.Loop (mkOffsetReader sample_car 18))
          (blockstore.mkChan [] false) false [] false).
Proof. vm_compute. reflexivity. Qed.

(** C6 (as stated) fails in its second half: on the sample store the context
    is cancelled while the producer stands at its first [select]; the queue
    has room, so each [select] may still take the send case, and the producer
    sends all three CIDs, crossing two further frame boundaries. *)
Lemma AllKeysChan_sends_after_cancel :
  @blockstore.AllKeysChan _ _ _ empty_roots_codec sample_store false
  = Ok (blockstore.mkSystem (blockstore.Loop (mkOffsetReader sample_car 18))
          (blockstore.mkChan [] false) false [] false) /\
  blockstore.run sample_store
    (blockstore.mkSystem (blockstore.Loop (mkOffsetReader sample_car 18))
       (blockstore.mkChan [] false) false [] false)
    [blockstore.EvRead; blockstore.EvCancel;
     blockstore.EvSend cid_a; blockstore.EvRead;
     blockstore.EvSend cid_b; blockstore.EvRead;
     blockstore.EvSend cid_c]
    (blockstore.mkSystem (blockstore.Loop (mkOffsetReader sample_car 51))
       (blockstore.mkChan [cid_a; cid_b; cid_c] false) true [] false) /\
  sends_after_cancel
    [blockstore.EvRead; blockstore.EvCancel;
     blockstore.EvSend cid_a; blockstore.EvRead;
     blockstore.EvSend cid_b; blockstore.EvRead;
     blockstore.EvSend cid_c]
  = [blockstore.EvSend cid_a; blockstore.EvSend cid_b; blockstore.EvSend cid_c].
Proof.
  split; [exact sample_AllKeysChan|]. split; [|reflexivity].
  vm_compute.
  do 7 run_event. apply blockstore.run_nil.
Qed.

Lemma AllKeysChan_never_closes_channel_witness :
  blockstore.ch_closed (blockstore.sys_ch
    (blockstore.mkSystem (@blockstore.Returned (list byte))
       (blockstore.mkChan [] false) true [cid_a] false)) = false /\
  blockstore.sys_ended
    (blockstore.mkSystem (@blockstore.Returned (list byte))
       (blockstore.mkChan [] false) true [cid_a] false) = false /\
  (blockstore.EvRecvClosed ∉
    [blockstore.EvRead; blockstore.EvSend cid_a; blockstore.EvRead;
     blockstore.EvCancel; blockstore.EvDone; blockstore.EvRecv cid_a]) /\
  (blockstore.sys_producer
     (blockstore.mkSystem (@blockstore.Returned (list byte))
        (blockstore.mkChan [] false) true [cid_a] false) = blockstore.Returned ->
   blockstore.ch_buf (blockstore.sys_ch
     (blockstore.mkSystem (@blockstore.Returned (list byte))
        (blockstore.mkChan [] false) true [cid_a] false)) = [] ->
   forall ev s',
     blockstore.step sample_store
       (blockstore.mkSystem blockstore.Returned
          (blockstore.mkChan [] false) true [cid_a] false) ev s' ->
     ev = blockstore.EvCancel).
Proof.
  apply (@AllKeysChan_never_closes_channel _ _ _ empty_roots_codec sample_store false
           (blockstore.mkSystem (blockstore.Loop (mkOffsetReader sample_car 18))
              (blockstore.mkChan [] false) false [] false)).
  - exact sample_AllKeysChan.
  - vm_compute. do 6 run_event. apply blockstore.run_nil.
Defined.

(** ** Opening a store from a CARv2 file *)

Section Open.
Context `{HeaderCodec}.
Variable Attach : string -> index.multiWidthIndex -> Z -> World -> option error * World.
Variable ReadFrom : OffsetReader mmap_ReaderAt -> result index.multiWidthIndex.

(** C1 fails on the code. For every CARv2 file that opens, whose header has
    index offset zero and over whose payload [Generate] returns an index,
    [OpenReadOnly] with [attachIndex = false] returns a store whose index is
    nil: the generated index is bound to a variable local to the branch and
    dropped. [Has], [Get] and [GetSize] on that store panic for every key. *)
Theorem OpenReadOnly_drops_generated_index (fuel : nat) (path : string)
    (w w' : World) (reader : mmap_ReaderAt) (v2r : carv2.Reader mmap_ReaderAt)
    (generated : index.multiWidthIndex) :
  mmap_Open path w = (Ok reader, w') ->
  carv2.NewReader reader = Ok v2r ->
  carv2.IndexOffset (carv2.reader_Header v2r) = 0 ->
  index.Generate fuel (carv2.CarV1Reader v2r) = Some (Ok generated) ->
  blockstore.OpenReadOnly Attach ReadFrom fuel path false w
  = (Some (Ok (blockstore.mkReadOnly (carv2.CarV1Reader v2r) None)), w') /\
  forall key : Cid,
    blockstore.Has (blockstore.mkReadOnly (I := index.multiWidthIndex)
                      (carv2.CarV1Reader v2r) None) key = blockstore.Panic /\
    blockstore.Get (blockstore.mkReadOnly (I := index.multiWidthIndex)
                      (carv2.CarV1Reader v2r) None) key = blockstore.Panic /\
    blockstore.GetSize (blockstore.mkReadOnly (I := index.multiWidthIndex)
                          (carv2.CarV1Reader v2r) None) key = blockstore.Panic.
Proof.
  intros Hopen Hnew Hoff Hgen. split.
  - unfold blockstore.OpenReadOnly. rewrite Hopen, Hnew.
    unfold carv2.HasIndex. rewrite Hoff. cbn [Z.eqb negb]. rewrite Hgen. reflexivity.
  - intros key. repeat split.
Qed.

(** C8 fails on the code. Whenever the file opens and the CARv2 reader
    rejects it, [OpenReadOnly] returns the error and the mapping it opened
    is still open: no exit path closes it. *)
Theorem OpenReadOnly_leaves_mapping_open_on_error (fuel : nat) (path : string)
    (attachIndex : bool) (w w' : World) (reader : mmap_ReaderAt) (e : error) :
  mmap_Open path w = (Ok reader, w') ->
  carv2.NewReader reader = Err e ->
  blockstore.OpenReadOnly Attach ReadFrom fuel path attachIndex w = (Some (Err e), w') /\
  mapped w' = path :: mapped w.
Proof.
  intros Hopen Hnew. split.
  - unfold blockstore.OpenReadOnly. rewrite Hopen, Hnew. reflexivity.
  - unfold mmap_Open in Hopen. destruct (files w !! path); [|done].
    injection Hopen as _ <-. reflexivity.
Qed.

(** No path through [OpenReadOnly] closes a mapping: the open mappings never
    shrink, and they grow whenever the file could be opened. *)
Lemma OpenReadOnly_never_closes (fuel : nat) (path : string) (attachIndex : bool)
    (w w' : World) res :
  (forall p i o w0, mapped (Attach p i o w0).2 = mapped w0) ->
  blockstore.OpenReadOnly Attach ReadFrom fuel path attachIndex w = (res, w') ->
  mapped w' = mapped w \/ mapped w' = path :: mapped w.
Proof.
  intros Hattach. unfold blockstore.OpenReadOnly, mmap_Open.
  destruct (files w !! path) as [data|]; [|intros [= _ <-]; by left].
  destruct (carv2.NewReader _) as [v2r|e]; [|intros [= _ <-]; by right].
  destruct (negb _).
  - destruct (index.Generate _ _) as [[idx'|e]|]; try (intros [= _ <-]; by right).
    destruct attachIndex; [|intros [= _ <-]; by right].
    destruct (Attach _ _ _ _) as [[e|] w1] eqn:Ha;
      pose proof (Hattach path idx' (carv2.IndexOffset (carv2.reader_Header v2r))
                    (mkWorld (files w) (path :: mapped w))) as Hm;
      rewrite Ha in Hm; intros [= _ <-]; right; exact Hm.
  - destruct (ReadFrom _); intros [= _ <-]; by right.
Qed.
End Open.

(** The sibling [GenerateFromFile] closes the mapping it opened whenever it
    returns, on success and on error alike. *)
Lemma GenerateFromFile_closes_mapping `{HeaderCodec} (fuel : nat) (path : string)
    (w w' : World) (r : result index.multiWidthIndex) :
  index.GenerateFromFile fuel path w = (Some r, w') -> mapped w' = mapped w.
Proof.
  unfold index.GenerateFromFile, mmap_Open.
  destruct (files w !! path) as [data|]; [|intros [= _ <-]; reflexivity].
  destruct (index.Generate fuel _) as [r'|]; [|intros [= ]].
  intros [= _ <-]. cbn. rewrite bool_decide_eq_true_2; reflexivity.
Qed.

Lemma OpenReadOnly_drops_generated_index_witness :
  @blockstore.OpenReadOnly empty_roots_codec no_Attach no_ReadFrom 4 "sample.car"
    false sample_world
  = (Some (Ok (blockstore.mkReadOnly
                 (carv2.CarV1Reader
                    (carv2.mkReader
                       (carv2.mkHeader (replicate 16 x00) 51 51 0)
                       (mkMmap "sample.car" sample_carv2)))
                 None)),
     mkWorld (files sample_world) ["sample.car"]) /\
  forall key : Cid,
    blockstore.Has (blockstore.mkReadOnly (I := index.multiWidthIndex)
                      (carv2.CarV1Reader
                         (carv2.mkReader
                            (carv2.mkHeader (replicate 16 x00) 51 51 0)
                            (mkMmap "sample.car" sample_carv2)))
                      None) key = blockstore.Panic /\
    blockstore.Get (blockstore.mkReadOnly (I := index.multiWidthIndex)
                      (carv2.CarV1Reader
                         (carv2.mkReader
                            (carv2.mkHeader (replicate 16 x00) 51 51 0)
                            (mkMmap "sample.car" sample_carv2)))
                      None) key = blockstore.Panic /\
    blockstore.GetSize (blockstore.mkReadOnly (I := index.multiWidthIndex)
                          (carv2.CarV1Reader
                             (carv2.mkReader
                                (carv2.mkHeader (replicate 16 x00) 51 51 0)
                                (mkMmap "sample.car" sample_carv2)))
                          None) key = blockstore.Panic.
Proof.
  apply (@OpenReadOnly_drops_generated_index empty_roots_codec no_Attach no_ReadFrom
           4 "sample.car" sample_world (mkWorld (files sample_world) ["sample.car"])
           (mkMmap "sample.car" sample_carv2)
           (carv2.mkReader (carv2.mkHeader (replicate 16 x00) 51 51 0)
              (mkMmap "sample.car" sample_carv2))
           sample_index).
  - vm_compute. reflexivity.
  - vm_compute. reflexivity.
  - reflexivity.
  - vm_compute. reflexivity.
Defined.

Lemma OpenReadOnly_leaves_mapping_open_on_error_witness :
  @blockstore.OpenReadOnly empty_roots_codec no_Attach no_ReadFrom 4 "malformed.car"
    false sample_world
  = (Some (Err ErrInvalidHeader), mkWorld (files sample_world) ["malformed.car"]) /\
  mapped (mkWorld (files sample_world) ["malformed.car"])
  = "malformed.car" :: mapped sample_world.
Proof.
  apply (@OpenReadOnly_leaves_mapping_open_on_error empty_roots_codec
           no_Attach no_ReadFrom 4 "malformed.car" false sample_world
           (mkWorld (files sample_world) ["malformed.car"])
           (mkMmap "malformed.car" malformed_carv2) ErrInvalidHeader).
  - vm_compute. reflexivity.
  - vm_compute. reflexivity.
Defined.

(** ** The CARv2 writer *)



Section WriterLayout.
Context {NodeGetter WalkFunc Ctx CarbsIndex : Type}.
Variable WriteCarWithWalker :
  Ctx -> NodeGetter -> list Cid -> WalkFunc -> list byte * option error.
Variable GenerateIndex : list byte -> Z -> carv2.IndexCodec -> bool -> result CarbsIndex.
Variable Marshal : CarbsIndex -> list byte.

End WriterLayout.




(** * Further properties of the code *)

(** ** [padding.WriteTo] and [Writer.WriteTo] *)

Lemma padding_bulk_buffer_count (iter : nat) :
  forall (n : Z) (buf : list byte),
    0 <= n -> n + Z.of_nat iter * 1024 < 2 ^ 63 ->
    carv2.padding_bulk iter n buf
    = (n + Z.of_nat iter * 1024, None, buf ++ replicate (iter * 1024) x00).
Proof.
  induction iter as [|iter IH]; intros n buf Hn Hfit.
  - cbn. rewrite app_nil_r, Z.add_0_r. reflexivity.
  - cbn [carv2.padding_bulk]. unfold carv2.Write at 1, carv2.Buffer_Write at 1.
    unfold carv2.bulkPaddingBytesSize.
    rewrite int64_small by lia.
    rewrite IH by lia.
    f_equal; [f_equal; lia|].
    rewrite <- app_assoc. f_equal.
Qed.

Lemma padding_WriteTo_zeros (p : Z) (buf : list byte) :
  0 <= p < 2 ^ 63 ->
  carv2.padding_WriteTo p buf = (p, None, buf ++ replicate (Z.to_nat p) x00).
Proof.
  intros Hp. unfold carv2.padding_WriteTo, carv2.bulkPaddingBytesSize.
  destruct (Z.ltb_spec 1024 p) as [Hbig|Hsmall].
  - assert (Hq : 0 <= p / 1024 < 2 ^ 53).
    { split; [apply Z.div_pos; lia|]. apply Z.div_lt_upper_bound; lia. }
    assert (Hr : 0 <= p mod 1024 < 1024) by (apply Z.mod_pos_bound; lia).
    pose proof (Z.div_mod p 1024 ltac:(lia)) as Hdm.
    rewrite (int64_small (p / 1024)) by lia.
    rewrite (int64_small (p mod 1024)) by lia.
    rewrite (padding_bulk_buffer_count (Z.to_nat (p / 1024)) 0 buf) by lia.
    unfold carv2.Write, carv2.Buffer_Write.
    rewrite int64_small by lia.
    f_equal; [f_equal; lia|].
    rewrite <- app_assoc, <- replicate_add. do 2 f_equal. lia.
  - rewrite int64_small by lia.
    unfold carv2.Write, carv2.Buffer_Write.
    rewrite int64_small by lia. reflexivity.
Qed.

(** [padding.WriteTo] into a buffer: for every padding below 2^63 it appends
    exactly that many zero bytes, in 1 KiB chunks and a remainder, and
    reports that many bytes written. *)
Theorem padding_WriteTo_writes_p_zero_bytes (p : Z) (buf : list byte) :
  0 <= p < 2 ^ 63 ->
  carv2.padding_WriteTo p buf = (p, None, buf ++ replicate (Z.to_nat p) x00).
Proof. exact (padding_WriteTo_zeros p buf). Qed.

Lemma padding_WriteTo_writes_p_zero_bytes_witness :
  carv2.padding_WriteTo 2500 [x01]
  = (2500, None, [x01] ++ replicate (Z.to_nat 2500) x00).
Proof. apply padding_WriteTo_writes_p_zero_bytes. lia. Defined.

Lemma Header_bytes_length (h : carv2.Header) :
  length (carv2.Characteristics h) = 16%nat ->
  length (carv2.Header_bytes h) = 40%nat.
Proof.
  intros Hc. unfold carv2.Header_bytes, carv2.PutUint64.
  rewrite !length_app, !length_map, Hc. reflexivity.
Qed.

Section WriterRuns.
Context {NodeGetter WalkFunc Ctx CarbsIndex : Type}.
Variable WriteCarWithWalker :
  Ctx -> NodeGetter -> list Cid -> WalkFunc -> list byte * option error.
Variable GenerateIndex : list byte -> Z -> carv2.IndexCodec -> bool -> result CarbsIndex.
Variable Marshal : CarbsIndex -> list byte.

(** The writer after a walk that appended [written] to its buffer. *)
Lemma WriteTo_run (w : carv2.Writer NodeGetter WalkFunc Ctx)
    (out written : list byte) (gen : result CarbsIndex) :
  WriteCarWithWalker (carv2.ctx w) (carv2.writer_NodeGetter w) (carv2.roots w)
    (carv2.Walk w) = (written, None) ->
  let payload := carv2.encodedCarV1 w ++ written in
  GenerateIndex payload (int64 (Z.of_nat (length payload))) carv2.IndexSorted true = gen ->
  0 <= carv2.CarV1Padding w -> 0 <= carv2.IndexPadding w ->
  carv2.PrefixBytesSize + carv2.HeaderBytesSize + carv2.CarV1Padding w
  + Z.of_nat (length payload) + carv2.IndexPadding w < 2 ^ 63 ->
  let header :=
    carv2.mkHeader (replicate 16 x00)
      (carv2.PrefixBytesSize + carv2.HeaderBytesSize + carv2.CarV1Padding w)
      (Z.of_nat (length payload))
      (carv2.PrefixBytesSize + carv2.HeaderBytesSize + carv2.CarV1Padding w
       + Z.of_nat (length payload) + carv2.IndexPadding w) in
  let body :=
    out ++ carv2.PrefixBytes ++ carv2.Header_bytes header ++
    replicate (Z.to_nat (carv2.CarV1Padding w)) x00 ++ payload ++
    replicate (Z.to_nat (carv2.IndexPadding w)) x00 in
  let count :=
    carv2.PrefixBytesSize + carv2.HeaderBytesSize + carv2.CarV1Padding w
    + Z.of_nat (length payload) + carv2.IndexPadding w in
  let w' :=
    carv2.mkWriter (carv2.Walk w) (carv2.writer_IndexCodec w) (carv2.writer_NodeGetter w)
      (carv2.CarV1Padding w) (carv2.IndexPadding w) (carv2.ctx w) (carv2.roots w)
      payload in
  carv2.WriteTo WriteCarWithWalker GenerateIndex Marshal w out
  = match gen with
    | Ok index => (count, None, body ++ Marshal index, w')
    | Err e => (count, Some e, body, w')
    end.
Proof.
  intros Hwalk payload Hgen Hp1 Hp2 Hfit header body count w'.
  unfold carv2.PrefixBytesSize, carv2.HeaderBytesSize in *.
  unfold carv2.WriteTo.
  unfold carv2.Write at 1, carv2.Buffer_Write at 1.
  rewrite Hwalk. cbn [carv2.encodedCarV1 carv2.CarV1Padding carv2.IndexPadding].
  fold payload.
  unfold carv2.writeHeader, carv2.Header_WriteTo.
  cbn [carv2.encodedCarV1 carv2.CarV1Padding carv2.IndexPadding].
  assert (Hhdr : carv2.WithIndexPadding
                   (carv2.WithCarV1Padding
                      (carv2.NewHeader (uint64 (Z.of_nat (length payload))))
                      (carv2.CarV1Padding w))
                   (carv2.IndexPadding w) = header).
  { unfold carv2.WithIndexPadding, carv2.WithCarV1Padding, carv2.NewHeader, header.
    cbn [carv2.Characteristics carv2.DataOffset carv2.DataSize carv2.IndexOffset].
    unfold carv2.PrefixBytesSize, carv2.HeaderBytesSize, carv2.CharacteristicsBytesSize.
    rewrite (uint64_small (Z.of_nat (length payload))) by lia.
    rewrite (uint64_small (11 + 40 + carv2.CarV1Padding w)) by lia.
    rewrite (uint64_small (11 + 40 + Z.of_nat (length payload))) by lia.
    rewrite (uint64_small (11 + 40 + Z.of_nat (length payload) + carv2.CarV1Padding w))
      by lia.
    rewrite uint64_small by lia.
    f_equal; lia. }
  rewrite Hhdr.
  unfold carv2.Write at 1, carv2.Buffer_Write at 1.
  assert (Hhl : length (carv2.Header_bytes header) = 40%nat)
    by (apply Header_bytes_length; reflexivity).
  rewrite Hhl.
  rewrite padding_WriteTo_zeros by lia.
  unfold carv2.Write at 1, carv2.Buffer_Write at 1.
  rewrite padding_WriteTo_zeros by lia.
  unfold carv2.writeIndex. rewrite Hgen.
  change (Z.of_nat 40) with 40. unfold carv2.PrefixBytesSize.
  rewrite !(int64_small (0 + 11)) by lia.
  rewrite !(int64_small (0 + 11 + 40)) by lia.
  rewrite !(int64_small (0 + 11 + 40 + carv2.CarV1Padding w)) by lia.
  rewrite !(int64_small (0 + 11 + 40 + carv2.CarV1Padding w + Z.of_nat (length payload)))
    by lia.
  rewrite !(int64_small (0 + 11 + 40 + carv2.CarV1Padding w + Z.of_nat (length payload)
                         + carv2.IndexPadding w)) by lia.
  destruct gen as [index|e].
  - unfold carv2.Write at 1, carv2.Buffer_Write at 1.
    rewrite int64_small by lia.
    unfold count, body, w'. rewrite <- !app_assoc.
    do 3 f_equal; lia.
  - unfold count, body, w'. rewrite <- !app_assoc.
    do 3 f_equal; lia.
Qed.

(** The count that [WriteTo] returns leaves the index out: on success it is
    the prefix, the header, both paddings and the CARv1 payload, while the
    output has grown by that count plus the length of the marshalled index
    ([writeIndex] reports zero bytes). *)
Theorem WriteTo_count_excludes_index (w : carv2.Writer NodeGetter WalkFunc Ctx)
    (out written : list byte) (index : CarbsIndex) :
  WriteCarWithWalker (carv2.ctx w) (carv2.writer_NodeGetter w) (carv2.roots w)
    (carv2.Walk w) = (written, None) ->
  GenerateIndex (carv2.encodedCarV1 w ++ written)
    (int64 (Z.of_nat (length (carv2.encodedCarV1 w ++ written))))
    carv2.IndexSorted true = Ok index ->
  0 <= carv2.CarV1Padding w -> 0 <= carv2.IndexPadding w ->
  carv2.PrefixBytesSize + carv2.HeaderBytesSize + carv2.CarV1Padding w
  + Z.of_nat (length (carv2.encodedCarV1 w ++ written)) + carv2.IndexPadding w < 2 ^ 63 ->
  exists (n : Z) (out' : list byte) (w' : carv2.Writer NodeGetter WalkFunc Ctx),
    carv2.WriteTo WriteCarWithWalker GenerateIndex Marshal w out = (n, None, out', w') /\
    n = 11 + 40 + carv2.CarV1Padding w
        + Z.of_nat (length (carv2.encodedCarV1 w ++ written)) + carv2.IndexPadding w /\
    Z.of_nat (length out')
    = Z.of_nat (length out) + n + Z.of_nat (length (Marshal index)).
Proof.
  intros Hwalk Hgen Hp1 Hp2 Hfit.
  rewrite (WriteTo_run w out written (Ok index) Hwalk Hgen Hp1 Hp2 Hfit).
  eexists _, _, _. split; [reflexivity|]. split; [reflexivity|].
  unfold carv2.PrefixBytesSize, carv2.HeaderBytesSize in *.
  rewrite !length_app, !length_replicate, Header_bytes_length by reflexivity.
  cbn [carv2.PrefixBytes length]. lia.
Qed.

(** When the DAG walk fails, [WriteTo] has already written the prefix and
    nothing else: it returns the walk's error with a count of 11, and keeps
    whatever the walk had appended to the writer's buffer. *)
Theorem WriteTo_walk_error_leaves_prefix (w : carv2.Writer NodeGetter WalkFunc Ctx)
    (out written : list byte) (e : error) :
  WriteCarWithWalker (carv2.ctx w) (carv2.writer_NodeGetter w) (carv2.roots w)
    (carv2.Walk w) = (written, Some e) ->
  exists w' : carv2.Writer NodeGetter WalkFunc Ctx,
    carv2.WriteTo WriteCarWithWalker GenerateIndex Marshal w out
    = (11, Some e, out ++ carv2.PrefixBytes, w') /\
    carv2.encodedCarV1 w' = carv2.encodedCarV1 w ++ written.
Proof.
  intros Hwalk. unfold carv2.WriteTo.
  unfold carv2.Write at 1, carv2.Buffer_Write at 1. rewrite Hwalk.
  eexists. split; reflexivity.
Qed.

(** When index generation fails, [WriteTo] returns its error after the
    prefix, the header, both paddings and the payload have been written: the
    header it wrote announces an index at an offset that is exactly where the
    output written by this call ends. *)
Theorem WriteTo_index_error_leaves_dangling_offset
    (w : carv2.Writer NodeGetter WalkFunc Ctx) (written : list byte) (e : error) :
  WriteCarWithWalker (carv2.ctx w) (carv2.writer_NodeGetter w) (carv2.roots w)
    (carv2.Walk w) = (written, None) ->
  GenerateIndex (carv2.encodedCarV1 w ++ written)
    (int64 (Z.of_nat (length (carv2.encodedCarV1 w ++ written))))
    carv2.IndexSorted true = Err e ->
  0 <= carv2.CarV1Padding w -> 0 <= carv2.IndexPadding w ->
  carv2.PrefixBytesSize + carv2.HeaderBytesSize + carv2.CarV1Padding w
  + Z.of_nat (length (carv2.encodedCarV1 w ++ written)) + carv2.IndexPadding w < 2 ^ 63 ->
  exists (n : Z) (header : carv2.Header) (rest : list byte)
         (w' : carv2.Writer NodeGetter WalkFunc Ctx),
    carv2.WriteTo WriteCarWithWalker GenerateIndex Marshal w []
    = (n, Some e, carv2.PrefixBytes ++ carv2.Header_bytes header ++ rest, w') /\
    carv2.HasIndex header = true /\
    carv2.IndexOffset header
    = Z.of_nat (length (carv2.PrefixBytes ++ carv2.Header_bytes header ++ rest)).
Proof.
  intros Hwalk Hgen Hp1 Hp2 Hfit.
  rewrite (WriteTo_run w [] written (Err e) Hwalk Hgen Hp1 Hp2 Hfit).
  cbn [app]. eexists _, _, _, _. split; [reflexivity|].
  unfold carv2.PrefixBytesSize, carv2.HeaderBytesSize in *.
  unfold carv2.HasIndex. cbn [carv2.IndexOffset]. split.
  - destruct (Z.eqb_spec (11 + 40 + carv2.CarV1Padding w
                          + Z.of_nat (length (carv2.encodedCarV1 w ++ written))
                          + carv2.IndexPadding w) 0) as [?|_]; [lia|reflexivity].
  - rewrite !length_app, !length_replicate, Header_bytes_length by reflexivity.
    cbn [carv2.PrefixBytes length]. lia.
Qed.

(** The header that [WriteTo] writes tells the truth about the file: in the
    bytes written to an empty output, the CARv1 payload is the [data_size]
    bytes found at [data_offset], and the marshalled index is everything from
    [index_offset] on. *)
Theorem WriteTo_header_offsets_locate_payload_and_index
    (w : carv2.Writer NodeGetter WalkFunc Ctx) (written : list byte)
    (index : CarbsIndex) :
  WriteCarWithWalker (carv2.ctx w) (carv2.writer_NodeGetter w) (carv2.roots w)
    (carv2.Walk w) = (written, None) ->
  GenerateIndex (carv2.encodedCarV1 w ++ written)
    (int64 (Z.of_nat (length (carv2.encodedCarV1 w ++ written))))
    carv2.IndexSorted true = Ok index ->
  0 <= carv2.CarV1Padding w -> 0 <= carv2.IndexPadding w ->
  carv2.PrefixBytesSize + carv2.HeaderBytesSize + carv2.CarV1Padding w
  + Z.of_nat (length (carv2.encodedCarV1 w ++ written)) + carv2.IndexPadding w < 2 ^ 63 ->
  exists (n : Z) (header : carv2.Header) (file : list byte)
         (w' : carv2.Writer NodeGetter WalkFunc Ctx),
    carv2.WriteTo WriteCarWithWalker GenerateIndex Marshal w [] = (n, None, file, w') /\
    take 51 file = carv2.PrefixBytes ++ carv2.Header_bytes header /\
    take (Z.to_nat (carv2.DataSize header)) (drop (Z.to_nat (carv2.DataOffset header)) file)
    = carv2.encodedCarV1 w ++ written /\
    drop (Z.to_nat (carv2.IndexOffset header)) file = Marshal index.
Proof.
  intros Hwalk Hgen Hp1 Hp2 Hfit.
  rewrite (WriteTo_run w [] written (Ok index) Hwalk Hgen Hp1 Hp2 Hfit).
  cbn [app].
  set (payload := carv2.encodedCarV1 w ++ written) in *.
  set (header := carv2.mkHeader _ _ _ _).
  eexists _, header, _, _. split; [reflexivity|].
  unfold carv2.PrefixBytesSize, carv2.HeaderBytesSize in *.
  cbn [carv2.DataSize carv2.DataOffset carv2.IndexOffset header].
  assert (Hhl : length (carv2.Header_bytes header) = 40%nat)
    by (apply Header_bytes_length; reflexivity).
  set (z1 := replicate (Z.to_nat (carv2.CarV1Padding w)) x00).
  set (z2 := replicate (Z.to_nat (carv2.IndexPadding w)) x00).
  assert (Hz1 : length z1 = Z.to_nat (carv2.CarV1Padding w)) by apply length_replicate.
  assert (Hz2 : length z2 = Z.to_nat (carv2.IndexPadding w)) by apply length_replicate.
  rewrite <- !app_assoc.
  split; [|split].
  - replace (carv2.PrefixBytes ++ carv2.Header_bytes header ++ z1 ++ payload ++
             z2 ++ Marshal index)
      with ((carv2.PrefixBytes ++ carv2.Header_bytes header) ++ z1 ++ payload ++
            z2 ++ Marshal index) by (rewrite <- !app_assoc; reflexivity).
    apply take_app_length'. rewrite length_app, Hhl. reflexivity.
  - replace (carv2.PrefixBytes ++ carv2.Header_bytes header ++ z1 ++ payload ++
             z2 ++ Marshal index)
      with ((carv2.PrefixBytes ++ carv2.Header_bytes header ++ z1) ++ payload ++
            z2 ++ Marshal index) by (rewrite <- !app_assoc; reflexivity).
    rewrite drop_app_length'.
    2:{ rewrite !length_app, Hhl, Hz1. cbn [carv2.PrefixBytes length]. lia. }
    rewrite Nat2Z.id. apply take_app_length.
  - replace (carv2.PrefixBytes ++ carv2.Header_bytes header ++ z1 ++ payload ++
             z2 ++ Marshal index)
      with ((carv2.PrefixBytes ++ carv2.Header_bytes header ++ z1 ++ payload ++ z2)
            ++ Marshal index) by (rewrite <- !app_assoc; reflexivity).
    apply drop_app_length'.
    rewrite !length_app, Hhl, Hz1, Hz2. cbn [carv2.PrefixBytes length]. lia.
Qed.

(** [WriteTo] never empties the writer's buffer: after a first call that
    succeeded, a second call on the same writer appends the walk's bytes to
    those of the first, so it writes the CARv1 payload twice under a header
    that counts both, and generates the index over the doubled bytes. If
    that generation fails the second call returns its error after the second
    padding; if it succeeds the index follows. *)
Theorem WriteTo_twice_repeats_payload (w : carv2.Writer NodeGetter WalkFunc Ctx)
    (out1 out2 carv1 : list byte) (index1 : CarbsIndex) :
  carv2.encodedCarV1 w = [] ->
  WriteCarWithWalker (carv2.ctx w) (carv2.writer_NodeGetter w) (carv2.roots w)
    (carv2.Walk w) = (carv1, None) ->
  GenerateIndex carv1 (int64 (Z.of_nat (length carv1))) carv2.IndexSorted true
  = Ok index1 ->
  0 <= carv2.CarV1Padding w -> 0 <= carv2.IndexPadding w ->
  carv2.PrefixBytesSize + carv2.HeaderBytesSize + carv2.CarV1Padding w
  + Z.of_nat (length (carv1 ++ carv1)) + carv2.IndexPadding w < 2 ^ 63 ->
  let gen2 :=
    GenerateIndex (carv1 ++ carv1) (int64 (Z.of_nat (length (carv1 ++ carv1))))
      carv2.IndexSorted true in
  exists (n1 n2 : Z) (file1 : list byte) (w1 w2 : carv2.Writer NodeGetter WalkFunc Ctx),
    carv2.WriteTo WriteCarWithWalker GenerateIndex Marshal w out1
    = (n1, None, out1 ++ file1, w1) /\
    carv2.WriteTo WriteCarWithWalker GenerateIndex Marshal w1 out2
    = (n2,
       match gen2 with Ok _ => None | Err e => Some e end,
       out2 ++ carv2.PrefixBytes ++
       carv2.Header_bytes
         (carv2.mkHeader (replicate 16 x00)
            (11 + 40 + carv2.CarV1Padding w)
            (2 * Z.of_nat (length carv1))
            (11 + 40 + carv2.CarV1Padding w + 2 * Z.of_nat (length carv1)
             + carv2.IndexPadding w)) ++
       replicate (Z.to_nat (carv2.CarV1Padding w)) x00 ++
       (carv1 ++ carv1) ++
       replicate (Z.to_nat (carv2.IndexPadding w)) x00 ++
       match gen2 with Ok index2 => Marshal index2 | Err _ => [] end,
       w2) /\
    carv2.encodedCarV1 w2 = carv1 ++ carv1 /\
    n2 = n1 + Z.of_nat (length carv1).
Proof.
  intros Hbuf Hwalk Hgen1 Hp1 Hp2 Hfit gen2.
  assert (Hlen2 : Z.of_nat (length (carv1 ++ carv1)) = 2 * Z.of_nat (length carv1))
    by (rewrite length_app; lia).
  rewrite (WriteTo_run w out1 carv1 (Ok index1) Hwalk).
  2:{ rewrite Hbuf. exact Hgen1. }
  2,3: assumption.
  2:{ rewrite Hbuf. cbn [app]. lia. }
  rewrite Hbuf. cbn [app].
  eexists _, _, _, _, _. split.
  { rewrite <- !app_assoc. reflexivity. }
  rewrite (WriteTo_run _ out2 carv1 gen2); cbn [carv2.encodedCarV1
    carv2.CarV1Padding carv2.IndexPadding carv2.ctx carv2.writer_NodeGetter
    carv2.roots carv2.Walk]; try assumption; try reflexivity.
  rewrite Hlen2. unfold carv2.PrefixBytesSize, carv2.HeaderBytesSize.
  destruct gen2 as [index2|e].
  - rewrite <- !app_assoc. split; [reflexivity|]. split; [reflexivity|]. lia.
  - rewrite <- !app_assoc, app_nil_r. split; [reflexivity|].
    split; [reflexivity|]. lia.
Qed.
End WriterRuns.

Lemma WriteTo_count_excludes_index_witness :
  exists (n : Z) (out' : list byte) (w' : carv2.Writer unit unit unit),
    carv2.WriteTo sample_walk sample_GenerateIndex sample_Marshal sample_writer [x01]
    = (n, None, out', w') /\
    n = 11 + 40 + carv2.CarV1Padding sample_writer
        + Z.of_nat (length (carv2.encodedCarV1 sample_writer ++ sample_car))
        + carv2.IndexPadding sample_writer /\
    Z.of_nat (length out')
    = Z.of_nat (length [x01]) + n + Z.of_nat (length (sample_Marshal sample_index)).
Proof.
  apply (WriteTo_count_excludes_index sample_walk sample_GenerateIndex sample_Marshal
           sample_writer [x01] sample_car sample_index).
  - reflexivity.
  - vm_compute. reflexivity.
  - vm_compute. discriminate.
  - vm_compute. discriminate.
  - vm_compute. reflexivity.
Defined.

Lemma WriteTo_walk_error_leaves_prefix_witness :
  exists w' : carv2.Writer unit unit unit,
    carv2.WriteTo failing_walk sample_GenerateIndex sample_Marshal sample_writer [x01]
    = (11, Some (ErrIo "block not found"), [x01] ++ carv2.PrefixBytes, w') /\
    carv2.encodedCarV1 w' = carv2.encodedCarV1 sample_writer ++ [x11].
Proof.
  apply (WriteTo_walk_error_leaves_prefix failing_walk sample_GenerateIndex
           sample_Marshal sample_writer [x01] [x11] (ErrIo "block not found")).
  reflexivity.
Defined.

Lemma WriteTo_index_error_leaves_dangling_offset_witness :
  exists (n : Z) (header : carv2.Header) (rest : list byte)
         (w' : carv2.Writer unit unit unit),
    carv2.WriteTo twin_walk sample_GenerateIndex sample_Marshal sample_writer []
    = (n, Some ErrDuplicateKey,
       carv2.PrefixBytes ++ carv2.Header_bytes header ++ rest, w') /\
    carv2.HasIndex header = true /\
    carv2.IndexOffset header
    = Z.of_nat (length (carv2.PrefixBytes ++ carv2.Header_bytes header ++ rest)).
Proof.
  apply (WriteTo_index_error_leaves_dangling_offset twin_walk sample_GenerateIndex
           sample_Marshal sample_writer twin_car ErrDuplicateKey).
  - reflexivity.
  - vm_compute. reflexivity.
  - vm_compute. discriminate.
  - vm_compute. discriminate.
  - vm_compute. reflexivity.
Defined.

Lemma WriteTo_header_offsets_locate_payload_and_index_witness :
  exists (n : Z) (header : carv2.Header) (file : list byte)
         (w' : carv2.Writer unit unit unit),
    carv2.WriteTo sample_walk sample_GenerateIndex sample_Marshal sample_writer []
    = (n, None, file, w') /\
    take 51 file = carv2.PrefixBytes ++ carv2.Header_bytes header /\
    take (Z.to_nat (carv2.DataSize header)) (drop (Z.to_nat (carv2.DataOffset header)) file)
    = carv2.encodedCarV1 sample_writer ++ sample_car /\
    drop (Z.to_nat (carv2.IndexOffset header)) file = sample_Marshal sample_index.
Proof.
  apply (WriteTo_header_offsets_locate_payload_and_index sample_walk
           sample_GenerateIndex sample_Marshal sample_writer sample_car sample_index).
  - reflexivity.
  - vm_compute. reflexivity.
  - vm_compute. discriminate.
  - vm_compute. discriminate.
  - vm_compute. reflexivity.
Defined.

Lemma sample_GenerateIndex_twice :
  sample_GenerateIndex (sample_car ++ sample_car)
    (int64 (Z.of_nat (length (sample_car ++ sample_car)))) carv2.IndexSorted true
  = Err ErrUnexpectedEOF.
Proof. vm_compute. reflexivity. Qed.

Lemma WriteTo_twice_repeats_payload_witness :
  exists (n1 n2 : Z) (file1 : list byte) (w1 w2 : carv2.Writer unit unit unit),
    carv2.WriteTo sample_walk sample_GenerateIndex sample_Marshal sample_writer [x01]
    = (n1, None, [x01] ++ file1, w1) /\
    carv2.WriteTo sample_walk sample_GenerateIndex sample_Marshal w1 [x02]
    = (n2,
       Some ErrUnexpectedEOF,
       [x02] ++ carv2.PrefixBytes ++
       carv2.Header_bytes
         (carv2.mkHeader (replicate 16 x00)
            (11 + 40 + carv2.CarV1Padding sample_writer)
            (2 * Z.of_nat (length sample_car))
            (11 + 40 + carv2.CarV1Padding sample_writer
             + 2 * Z.of_nat (length sample_car)
             + carv2.IndexPadding sample_writer)) ++
       replicate (Z.to_nat (carv2.CarV1Padding sample_writer)) x00 ++
       (sample_car ++ sample_car) ++
       replicate (Z.to_nat (carv2.IndexPadding sample_writer)) x00 ++
       [],
       w2) /\
    carv2.encodedCarV1 w2 = sample_car ++ sample_car /\
    n2 = n1 + Z.of_nat (length sample_car).
Proof.
  pose proof (WriteTo_twice_repeats_payload sample_walk sample_GenerateIndex
                sample_Marshal sample_writer [x01] [x02] sample_car sample_index) as Hw.
  cbv zeta in Hw. rewrite sample_GenerateIndex_twice in Hw.
  apply Hw.
  - reflexivity.
  - reflexivity.
  - vm_compute. reflexivity.
  - vm_compute. discriminate.
  - vm_compute. discriminate.
  - vm_compute. reflexivity.
Defined.

(** ** Walking frames that are followed by other bytes *)

Lemma HeaderSize_of_dump `{HeaderCodec} (hb : list byte) (h : CarHeader) :
  DumpObject h = Ok hb ->
  Z.of_nat (length (LdWrite [hb])) < 2 ^ 64 ->
  HeaderSize h = Ok (Z.of_nat (length (LdWrite [hb]))).
Proof.
  intros Hdump Hlt. unfold HeaderSize.
  rewrite Hdump, LdSize_LdWrite, uint64_small; [reflexivity|lia].
Qed.

Section WalkPrefix.
Context `{HeaderCodec}.
Variable data : list byte.
Hypothesis data_size : Z.of_nat (length data) < 2 ^ 63.

Lemma ReadHeader_at_start (hb rest : list byte) (h : CarHeader) :
  DecodeInto hb = Ok h -> Version h = 1 ->
  data = LdWrite [hb] ++ rest ->
  ReadHeader (bufio_NewReader (NewOffsetReader data 0)) = Ok h.
Proof.
  intros Hdec Hver Hd. rewrite LdWrite_single, <- app_assoc in Hd.
  assert (Hlen : Z.of_nat (length hb) <= Z.of_nat (length data)).
  { rewrite Hd, !length_app. lia. }
  unfold ReadHeader, bufio_NewReader, NewOffsetReader, LdRead.
  change 0 with (Z.of_nat (length (@nil byte))).
  rewrite (ReadUvarint_PutUvarint data data_size (Z.of_nat (length hb)) [] (hb ++ rest));
    [|lia|exact Hd].
  rewrite Nat2Z.id.
  replace (Z.of_nat (length (@nil byte)) +
           Z.of_nat (length (PutUvarint (Z.of_nat (length hb)))))
    with (Z.of_nat (length ([] ++ PutUvarint (Z.of_nat (length hb)))))
    by (rewrite length_app; lia).
  rewrite (ReadFull_bytes_at data data_size _ hb rest);
    [|rewrite <- app_assoc; exact Hd].
  cbn [fst]. rewrite Hdec, Hver. reflexivity.
Qed.

(** The walk of [Generate] passes over whole frames, whatever follows. *)
Lemma Generate_loop_skip_frames (blocks : list (Cid * list byte)) :
  forall (pre tail : list byte) (acc : list index.Record_) (fuel : nat),
    data = pre ++ concat (map frame_bytes blocks) ++ tail ->
    Forall (fun blk => wf_Cid (fst blk)) blocks ->
    index.Generate_loop (length blocks + fuel) data
      (mkOffsetReader data (Z.of_nat (length pre))) acc
    = index.Generate_loop fuel data
        (mkOffsetReader data
           (Z.of_nat (length (pre ++ concat (map frame_bytes blocks)))))
        (acc ++ frame_records (Z.of_nat (length pre)) blocks).
Proof.
  induction blocks as [|[c d] blocks IH]; intros pre tail acc fuel Hd Hwf.
  - cbn [map concat length Nat.add]. unfold frame_records. cbn [map frame_offsets zip_with].
    rewrite !app_nil_r. reflexivity.
  - apply Forall_cons in Hwf as [Hc Hwf]. cbn [fst] in Hc.
    cbn [map concat] in Hd. rewrite <- app_assoc in Hd.
    cbn [length Nat.add index.Generate_loop].
    rewrite (frame_ReadUvarint data data_size pre _ c d Hd).
    unfold Offset. cbn [rd_off].
    rewrite (frame_ReadCid data data_size pre _ c d Hc Hd).
    pose proof (frame_end_le data pre _ c d Hd) as Hend.
    pose proof (frame_L_range data data_size pre _ c d Hd) as HL.
    rewrite (int64_small (Z.of_nat (length (cid_bytes c ++ d)))) by lia.
    rewrite int64_small by lia.
    rewrite uint64_small by lia.
    unfold SeekOffset. cbn [rd_r].
    replace (Z.of_nat (length pre) +
             Z.of_nat (length (PutUvarint (Z.of_nat (length (cid_bytes c ++ d))))) +
             Z.of_nat (length (cid_bytes c ++ d)))
      with (Z.of_nat (length (pre ++ frame_bytes (c, d))))
      by (rewrite length_app, Nat2Z.inj_add, frame_bytes_length; lia).
    rewrite (IH (pre ++ frame_bytes (c, d)) tail).
    + rewrite <- !app_assoc. unfold frame_records.
      cbn [map concat frame_offsets fst zip_with].
      rewrite (length_app pre (frame_bytes (c, d))), Nat2Z.inj_add. reflexivity.
    + rewrite <- app_assoc. exact Hd.
    + exact Hwf.
Qed.

Lemma ReadUvarint_past_end (off : Z) :
  Z.of_nat (length data) <= off < 2 ^ 63 ->
  ReadUvarint (mkOffsetReader data off) = (0, Some EOF, mkOffsetReader data off).
Proof.
  intros Hoff. unfold ReadUvarint, MaxVarintLen64. rewrite ReadUvarint_loop_S.
  unfold ReadByte, Read, ReadAt, bytes_ReaderAt. cbn [rd_r rd_off].
  destruct (Z.ltb_spec off 0) as [?|_]; [lia|].
  destruct (Z.leb_spec (Z.of_nat (length data)) off) as [_|?]; [|lia].
  cbn. rewrite Z.add_0_r, int64_small by lia. reflexivity.
Qed.
End WalkPrefix.

(** ** What [Generate] puts in the index, and what the store answers *)

Lemma frame_records_split (blocks : list (Cid * list byte)) :
  forall (off : Z) (r : index.Record_),
    r ∈ frame_records off blocks <->
    exists (sent : list (Cid * list byte)) (blk : Cid * list byte)
           (rest : list (Cid * list byte)),
      blocks = sent ++ blk :: rest /\
      r = index.mkRecord (fst blk)
            (off + Z.of_nat (length (concat (map frame_bytes sent)))).
Proof.
  induction blocks as [|b0 blocks IH]; intros off r.
  - unfold frame_records. cbn [map frame_offsets zip_with]. split.
    + intros Hin. apply elem_of_nil in Hin. done.
    + intros (sent & blk & rest & Hb & _). destruct sent; discriminate.
  - unfold frame_records in *. cbn [map frame_offsets zip_with].
    rewrite elem_of_cons, IH. split.
    + intros [->|(sent & blk & rest & -> & ->)].
      * exists [], b0, blocks. split; [reflexivity|].
        cbn [map concat length]. rewrite Z.add_0_r. reflexivity.
      * exists (b0 :: sent), blk, rest. split; [reflexivity|].
        cbn [map concat]. rewrite length_app, Nat2Z.inj_add, Z.add_assoc. reflexivity.
    + intros (sent & blk & rest & Hb & ->). destruct sent as [|b1 sent].
      * injection Hb as <- <-. left.
        cbn [map concat length]. rewrite Z.add_0_r. reflexivity.
      * injection Hb as <- ->. right. exists sent, blk, rest. split; [reflexivity|].
        cbn [map concat]. rewrite length_app, Nat2Z.inj_add, Z.add_assoc. reflexivity.
Qed.

Lemma Has_at_frame {I : Type} `{index.Index I} (data : list byte) (i : I)
    (key c : Cid) (d pre suf : list byte) :
  Z.of_nat (length data) < 2 ^ 63 -> wf_Cid c ->
  data = pre ++ frame_bytes (c, d) ++ suf ->
  index.Get i key = Ok (Z.of_nat (length pre)) ->
  blockstore.Has (blockstore.ReadOnlyOf data i) key
  = blockstore.Return (Equals c key, None).
Proof.
  intros Hsize Hwf Hd Hget.
  assert (Hpre : Z.of_nat (length pre) <= Z.of_nat (length data)).
  { rewrite Hd, length_app. lia. }
  unfold blockstore.Has, blockstore.ReadOnlyOf.
  cbn [blockstore.idx blockstore.backing]. rewrite Hget.
  unfold NewOffsetReader. rewrite int64_small by lia.
  rewrite (frame_ReadUvarint data Hsize pre suf c d Hd).
  unfold Offset. cbn [rd_off].
  rewrite (frame_ReadCid data Hsize pre suf c d Hwf Hd). reflexivity.
Qed.

Section Generated.
Context `{HeaderCodec}.
Variables (P : list byte) (h : CarHeader) (blocks : list (Cid * list byte)).
Hypothesis P_wf : wf_CarV1 P h blocks.
Hypothesis digests_NoDup : NoDup (map (fun blk => mh_digest (fst blk)) blocks).

(** The index that [Generate] returns, described by its contents. *)
Lemma Generate_contents (fuel : nat) :
  (length blocks < fuel)%nat ->
  exists (idx : index.multiWidthIndex) (hd : list byte),
    P = hd ++ concat (map frame_bytes blocks) /\
    index.Generate fuel P = Some (Ok idx) /\
    index_ok idx /\
    forall d o, index_has idx d o <->
                exists r, r ∈ frame_records (Z.of_nat (length hd)) blocks /\
                          mh_digest (index.rec_Cid r) = d /\ index.rec_Idx r = o.
Proof.
  intros Hfuel.
  pose proof (wf_ReadHeader P h blocks P_wf) as Hrh.
  destruct (wf_HeaderSize P h blocks P_wf) as (hb & HP & Hhs).
  destruct P_wf as (hb0 & _ & _ & _ & _ & Hcids & Hsize).
  assert (Hhlen : Z.of_nat (length (LdWrite [hb])) <= Z.of_nat (length P)).
  { rewrite HP, length_app. lia. }
  set (recs := frame_records (Z.of_nat (length (LdWrite [hb]))) blocks).
  destruct (Load_spec recs index.mkSorted index_ok_empty) as (idx & Hload & Hok & Hhas).
  { unfold recs. rewrite frame_records_digests. exact digests_NoDup. }
  { intros r o _ (s & Hl & _). unfold index.mkSorted in Hl.
    rewrite lookup_empty in Hl. done. }
  exists idx, (LdWrite [hb]). split; [exact HP|]. split; [|split; [exact Hok|]].
  - unfold index.Generate. rewrite Hrh, Hhs.
    unfold NewOffsetReader. rewrite int64_small by lia.
    rewrite (Generate_loop_frames P Hsize blocks (LdWrite [hb]) [] fuel HP Hcids Hfuel).
    cbn [app]. fold recs. rewrite Hload. reflexivity.
  - intros d o. rewrite Hhas. split.
    + intros [(s & Hl & _)|Hr]; [|exact Hr].
      unfold index.mkSorted in Hl. rewrite lookup_empty in Hl. done.
    + intros Hr. right. exact Hr.
Qed.

(** The generated index holds the frames and nothing else: [Get] returns an
    offset for a CID exactly when that offset is where a frame of the payload
    starts whose CID carries the queried digest. *)
Theorem Generate_index_holds_exactly_the_frames (fuel : nat) :
  (length blocks < fuel)%nat ->
  exists (idx : index.multiWidthIndex) (hd : list byte),
    P = hd ++ concat (map frame_bytes blocks) /\
    index.Generate fuel P = Some (Ok idx) /\
    forall (c : Cid) (o : Z),
      index.Get idx c = Ok o <->
      exists (sent : list (Cid * list byte)) (blk : Cid * list byte)
             (rest : list (Cid * list byte)),
        blocks = sent ++ blk :: rest /\ mh_digest (fst blk) = mh_digest c /\
        o = Z.of_nat (length (hd ++ concat (map frame_bytes sent))).
Proof.
  intros Hfuel.
  destruct (Generate_contents fuel Hfuel) as (idx & hd & HP & Hgen & Hok & Hhas).
  exists idx, hd. split; [exact HP|]. split; [exact Hgen|]. intros c o. split.
  - intros Hget. apply Get_sound in Hget. apply Hhas in Hget as (r & Hr & Hd & Ho).
    apply frame_records_split in Hr as (sent & blk & rest & Hb & ->).
    cbn [index.rec_Cid index.rec_Idx] in Hd, Ho.
    exists sent, blk, rest. split; [exact Hb|]. split; [exact Hd|].
    rewrite length_app. lia.
  - intros (sent & blk & rest & Hb & Hd & ->).
    apply Get_has; [exact Hok|]. apply Hhas.
    exists (index.mkRecord (fst blk)
              (Z.of_nat (length hd) + Z.of_nat (length (concat (map frame_bytes sent))))).
    split; [apply frame_records_split; eauto|].
    cbn [index.rec_Cid index.rec_Idx]. split; [exact Hd|].
    rewrite length_app. lia.
Qed.

(** A store over a well-formed payload and the index generated from it
    answers for every block of the payload: [Has] says [(true, nil)] and
    [Get] returns the block with the frame's data. *)
Theorem generated_store_serves_every_block (fuel : nat) :
  (length blocks < fuel)%nat ->
  exists idx : index.multiWidthIndex,
    index.Generate fuel P = Some (Ok idx) /\
    forall (c : Cid) (d : list byte),
      (c, d) ∈ blocks ->
      blockstore.Has (blockstore.ReadOnlyOf P idx) c = blockstore.Return (true, None) /\
      blockstore.Get (blockstore.ReadOnlyOf P idx) c
      = blockstore.Return (Ok (blockstore.mkBlock d c)).
Proof.
  intros Hfuel.
  destruct (Generate_contents fuel Hfuel) as (idx & hd & HP & Hgen & Hok & Hhas).
  exists idx. split; [exact Hgen|]. intros c d Hin.
  destruct P_wf as (hb0 & _ & _ & _ & _ & Hcids & Hsize).
  assert (Hc : wf_Cid c).
  { rewrite Forall_forall in Hcids. apply (Hcids (c, d)). exact Hin. }
  apply list_elem_of_split in Hin as (sent & rest & Hb).
  set (pre := hd ++ concat (map frame_bytes sent)).
  assert (HPc : P = pre ++ frame_bytes (c, d) ++ concat (map frame_bytes rest)).
  { unfold pre. rewrite HP, Hb, map_app, concat_app, <- !app_assoc. reflexivity. }
  assert (Hget : index.Get idx c = Ok (Z.of_nat (length pre))).
  { apply Get_has; [exact Hok|]. apply Hhas.
    exists (index.mkRecord c
              (Z.of_nat (length hd) + Z.of_nat (length (concat (map frame_bytes sent))))).
    split; [apply frame_records_split; exists sent, (c, d), rest; split; [exact Hb|reflexivity]|].
    cbn [index.rec_Cid index.rec_Idx]. split; [reflexivity|].
    unfold pre. rewrite length_app. lia. }
  split.
  - rewrite (Has_at_frame P idx c c d pre _ Hsize Hc HPc Hget).
    unfold Equals. rewrite bool_decide_eq_true_2 by reflexivity. reflexivity.
  - rewrite (Get_at_frame P idx c c d pre _ Hsize Hc HPc Hget).
    unfold Equals. rewrite bool_decide_eq_true_2 by reflexivity. reflexivity.
Qed.

(** The index is keyed by digest, the store compares CIDs: for a key that
    shares its digest with a block of the payload but is another CID (another
    version or codec), [Has] answers [(false, nil)] and [Get] NotFound. *)
Theorem generated_store_rejects_other_cid_with_same_digest (fuel : nat)
    (c key : Cid) (d : list byte) :
  (length blocks < fuel)%nat ->
  (c, d) ∈ blocks -> mh_digest key = mh_digest c -> key <> c ->
  exists idx : index.multiWidthIndex,
    index.Generate fuel P = Some (Ok idx) /\
    blockstore.Has (blockstore.ReadOnlyOf P idx) key = blockstore.Return (false, None) /\
    blockstore.Get (blockstore.ReadOnlyOf P idx) key = blockstore.Return (Err ErrNotFound).
Proof.
  intros Hfuel Hin Hdig Hne.
  destruct (Generate_contents fuel Hfuel) as (idx & hd & HP & Hgen & Hok & Hhas).
  exists idx. split; [exact Hgen|].
  destruct P_wf as (hb0 & _ & _ & _ & _ & Hcids & Hsize).
  assert (Hc : wf_Cid c).
  { rewrite Forall_forall in Hcids. apply (Hcids (c, d)). exact Hin. }
  apply list_elem_of_split in Hin as (sent & rest & Hb).
  set (pre := hd ++ concat (map frame_bytes sent)).
  assert (HPc : P = pre ++ frame_bytes (c, d) ++ concat (map frame_bytes rest)).
  { unfold pre. rewrite HP, Hb, map_app, concat_app, <- !app_assoc. reflexivity. }
  assert (Hget : index.Get idx key = Ok (Z.of_nat (length pre))).
  { apply Get_has; [exact Hok|]. apply Hhas.
    exists (index.mkRecord c
              (Z.of_nat (length hd) + Z.of_nat (length (concat (map frame_bytes sent))))).
    split; [apply frame_records_split; exists sent, (c, d), rest; split; [exact Hb|reflexivity]|].
    cbn [index.rec_Cid index.rec_Idx]. split; [symmetry; exact Hdig|].
    unfold pre. rewrite length_app. lia. }
  split.
  - rewrite (Has_at_frame P idx key c d pre _ Hsize Hc HPc Hget).
    unfold Equals. rewrite bool_decide_eq_false_2 by congruence. reflexivity.
  - rewrite (Get_at_frame P idx key c d pre _ Hsize Hc HPc Hget).
    unfold Equals. rewrite bool_decide_eq_false_2 by congruence. reflexivity.
Qed.
End Generated.

Lemma Generate_index_holds_exactly_the_frames_witness :
  exists (idx : index.multiWidthIndex) (hd : list byte),
    sample_car = hd ++ concat (map frame_bytes sample_blocks) /\
    @index.Generate _ _ empty_roots_codec 4 sample_car = Some (Ok idx) /\
    forall (c : Cid) (o : Z),
      index.Get idx c = Ok o <->
      exists (sent : list (Cid * list byte)) (blk : Cid * list byte)
             (rest : list (Cid * list byte)),
        sample_blocks = sent ++ blk :: rest /\ mh_digest (fst blk) = mh_digest c /\
        o = Z.of_nat (length (hd ++ concat (map frame_bytes sent))).
Proof.
  apply (@Generate_index_holds_exactly_the_frames empty_roots_codec
           sample_car sample_header sample_blocks sample_car_wf
           sample_blocks_digests_NoDup 4).
  simpl. lia.
Defined.

Lemma generated_store_serves_every_block_witness :
  exists idx : index.multiWidthIndex,
    @index.Generate _ _ empty_roots_codec 4 sample_car = Some (Ok idx) /\
    forall (c : Cid) (d : list byte),
      (c, d) ∈ sample_blocks ->
      blockstore.Has (blockstore.ReadOnlyOf sample_car idx) c
      = blockstore.Return (true, None) /\
      blockstore.Get (blockstore.ReadOnlyOf sample_car idx) c
      = blockstore.Return (Ok (blockstore.mkBlock d c)).
Proof.
  apply (@generated_store_serves_every_block empty_roots_codec
           sample_car sample_header sample_blocks sample_car_wf
           sample_blocks_digests_NoDup 4).
  simpl. lia.
Defined.

Lemma generated_store_rejects_other_cid_with_same_digest_witness :
  exists idx : index.multiWidthIndex,
    @index.Generate _ _ empty_roots_codec 4 sample_car = Some (Ok idx) /\
    blockstore.Has (blockstore.ReadOnlyOf sample_car idx) cid_a_pb
    = blockstore.Return (false, None) /\
    blockstore.Get (blockstore.ReadOnlyOf sample_car idx) cid_a_pb
    = blockstore.Return (Err ErrNotFound).
Proof.
  apply (@generated_store_rejects_other_cid_with_same_digest empty_roots_codec
           sample_car sample_header sample_blocks sample_car_wf
           sample_blocks_digests_NoDup 4 cid_a cid_a_pb [x61]).
  - simpl. lia.
  - apply elem_of_cons. by left.
  - reflexivity.
  - discriminate.
Defined.

(** ** [Roots] *)

(** [Roots] returns the roots of the payload's header; it reads the backing
    only, so it also answers on a store whose index is nil. *)
Theorem Roots_returns_header_roots {I : Type} `{HeaderCodec} (P : list byte)
    (h : CarHeader) (blocks : list (Cid * list byte)) (oi : option I) :
  wf_CarV1 P h blocks ->
  blockstore.Roots_ (blockstore.mkReadOnly P oi) = Ok (Roots h).
Proof.
  intros Hwf. unfold blockstore.Roots_. cbn [blockstore.backing].
  rewrite (wf_ReadHeader P h blocks Hwf). reflexivity.
Qed.

Lemma Roots_returns_header_roots_witness :
  @blockstore.Roots_ _ index.multiWidthIndex _ empty_roots_codec
    (blockstore.mkReadOnly sample_car None) = Ok (Roots sample_header).
Proof.
  apply (@Roots_returns_header_roots index.multiWidthIndex empty_roots_codec
           sample_car sample_header sample_blocks None).
  exact sample_car_wf.
Defined.

(** ** Frames whose length does not fit a signed offset *)

Lemma PutUvarint_wrapping_length : length (PutUvarint (2 ^ 64 - 10)) = 10%nat.
Proof. vm_compute. reflexivity. Qed.

Lemma int64_wrapping_length : int64 (2 ^ 64 - 10) = -10.
Proof. vm_compute. reflexivity. Qed.

Section WrappingLength.
Context `{HeaderCodec}.
Variables (hb rest : list byte) (h : CarHeader) (c : Cid).
Hypothesis h_dump : DumpObject h = Ok hb.
Hypothesis h_decode : DecodeInto hb = Ok h.
Hypothesis h_version : Version h = 1.
Hypothesis c_wf : wf_Cid c.

Let P : list byte := LdWrite [hb] ++ PutUvarint (2 ^ 64 - 10) ++ cid_bytes c ++ rest.
Hypothesis P_size : Z.of_nat (length P) < 2 ^ 63.

Lemma wrapping_round (fuel : nat) :
  forall acc : list index.Record_,
    index.Generate_loop fuel P
      (mkOffsetReader P (Z.of_nat (length (LdWrite [hb])))) acc = None.
Proof.
  induction fuel as [|fuel IH]; intros acc; [reflexivity|].
  assert (Hhd : Z.of_nat (length (LdWrite [hb])) + 10 <= Z.of_nat (length P)).
  { unfold P. rewrite !length_app, PutUvarint_wrapping_length. lia. }
  cbn [index.Generate_loop].
  rewrite (ReadUvarint_PutUvarint P P_size (2 ^ 64 - 10) (LdWrite [hb])
             (cid_bytes c ++ rest)); [|lia|reflexivity].
  rewrite PutUvarint_wrapping_length. unfold Offset. cbn [rd_off].
  replace (Z.of_nat (length (LdWrite [hb])) + Z.of_nat 10)
    with (Z.of_nat (length (LdWrite [hb] ++ PutUvarint (2 ^ 64 - 10))))
    by (rewrite length_app, PutUvarint_wrapping_length; lia).
  rewrite (ReadCid_cid_bytes P P_size c _ rest c_wf);
    [|unfold P; rewrite <- !app_assoc; reflexivity].
  rewrite int64_wrapping_length.
  rewrite length_app, PutUvarint_wrapping_length.
  unfold SeekOffset. cbn [rd_r].
  replace (Z.of_nat (length (LdWrite [hb]) + 10) + -10)
    with (Z.of_nat (length (LdWrite [hb]))) by lia.
  rewrite int64_small by lia.
  apply IH.
Qed.

(** A frame whose length varint is 2^64 - 10 sends the walk of [Generate]
    back to where the frame starts: converted to [int64] the length is -10,
    which cancels the ten bytes of the varint. [Generate] then reads the same
    frame again and again, and returns for no number of rounds. *)
Theorem Generate_never_returns_on_wrapping_length (fuel : nat) :
  index.Generate fuel P = None.
Proof.
  unfold index.Generate.
  rewrite (ReadHeader_at_start P P_size hb _ h h_decode h_version eq_refl).
  assert (Hhd : Z.of_nat (length (LdWrite [hb])) <= Z.of_nat (length P)).
  { unfold P. rewrite length_app. lia. }
  rewrite (HeaderSize_of_dump hb h h_dump) by lia.
  unfold NewOffsetReader. rewrite int64_small by lia.
  rewrite wrapping_round. reflexivity.
Qed.
End WrappingLength.

Lemma Generate_never_returns_on_wrapping_length_witness :
  @index.Generate _ _ empty_roots_codec 1000
    (LdWrite [empty_roots_cbor] ++ PutUvarint (2 ^ 64 - 10) ++ cid_bytes cid_a ++ [x61])
  = None.
Proof.
  apply (@Generate_never_returns_on_wrapping_length empty_roots_codec
           empty_roots_cbor [x61] sample_header cid_a).
  - reflexivity.
  - reflexivity.
  - reflexivity.
  - repeat split; cbn; lia.
  - vm_compute. reflexivity.
Defined.

(** ** A memory map read like a byte slice, up to its end *)

Section MmapReader.
Variables (path : string) (data : list byte).
Hypothesis data_size : Z.of_nat (length data) < 2 ^ 63.

Lemma mmap_ReadAt_bytes (n : nat) (off : Z) :
  0 <= off <= Z.of_nat (length data) -> (0 < n)%nat ->
  ReadAt (mkMmap path data) n off = ReadAt data n off.
Proof.
  intros Hoff Hn. unfold ReadAt, mmap_ReadAt, bytes_ReaderAt. cbn [mm_data].
  destruct (Z.ltb_spec off 0) as [?|_]; [lia|].
  destruct (Z.ltb_spec (Z.of_nat (length data)) off) as [?|_]; [lia|].
  cbn [orb].
  destruct (Z.leb_spec (Z.of_nat (length data)) off) as [Hle|_]; [|reflexivity].
  rewrite drop_ge by lia. rewrite take_nil. cbn [length].
  destruct (Nat.ltb_spec 0 n) as [_|?]; [reflexivity|lia].
Qed.

Lemma mmap_Read (n : nat) (off : Z) (bs : list byte) (e : option error)
    (o : OffsetReader (list byte)) :
  0 <= off <= Z.of_nat (length data) -> (0 < n)%nat ->
  Read (mkOffsetReader data off) n = (bs, e, o) ->
  Read (mkOffsetReader (mkMmap path data) off) n
  = (bs, e, mkOffsetReader (mkMmap path data) (rd_off o)) /\
  o = mkOffsetReader data (rd_off o) /\ off <= rd_off o <= Z.of_nat (length data).
Proof.
  intros Hoff Hn. unfold Read. cbn [rd_r rd_off].
  rewrite (mmap_ReadAt_bytes n off Hoff Hn).
  assert (Hbs : forall bs' e', ReadAt data n off = (bs', e') ->
                               Z.of_nat (length bs') <= Z.of_nat (length data) - off).
  { unfold ReadAt, bytes_ReaderAt. intros bs' e'.
    destruct (off <? 0); [intros [= <- _]; cbn; lia|].
    destruct (Z.of_nat (length data) <=? off); [intros [= <- _]; cbn; lia|].
    intros [= <- _]. rewrite length_take, length_drop. lia. }
  destruct (ReadAt data n off) as [bs' e'] eqn:Hr. specialize (Hbs _ _ eq_refl).
  intros [= <- <- <-]. cbn [rd_off]. rewrite int64_small by lia.
  split; [reflexivity|]. split; [reflexivity|]. lia.
Qed.

Lemma mmap_ReadByte (off : Z) (b : byte) (e : option error)
    (o : OffsetReader (list byte)) :
  0 <= off <= Z.of_nat (length data) ->
  ReadByte (mkOffsetReader data off) = (b, e, o) ->
  ReadByte (mkOffsetReader (mkMmap path data) off)
  = (b, e, mkOffsetReader (mkMmap path data) (rd_off o)) /\
  o = mkOffsetReader data (rd_off o) /\ off <= rd_off o <= Z.of_nat (length data).
Proof.
  intros Hoff. unfold ReadByte.
  destruct (Read (mkOffsetReader data off) 1) as [[bs e'] o'] eqn:Hr.
  destruct (mmap_Read 1 off bs e' o' Hoff ltac:(lia) Hr) as (-> & Ho & Hb).
  intros [= <- <- <-]. done.
Qed.

Lemma mmap_ReadUvarint_loop (n : nat) :
  forall (i x s off v : Z) (e : option error) (o : OffsetReader (list byte)),
    0 <= off <= Z.of_nat (length data) ->
    ReadUvarint_loop n i x s (mkOffsetReader data off) = (v, e, o) ->
    ReadUvarint_loop n i x s (mkOffsetReader (mkMmap path data) off)
    = (v, e, mkOffsetReader (mkMmap path data) (rd_off o)) /\
    o = mkOffsetReader data (rd_off o) /\ off <= rd_off o <= Z.of_nat (length data).
Proof.
  induction n as [|n IH]; intros i x s off v e o Hoff.
  - cbn [ReadUvarint_loop]. intros [= <- <- <-]. cbn [rd_off]. split; [done|]. split; [done|lia].
  - rewrite !ReadUvarint_loop_S.
    destruct (ReadByte (mkOffsetReader data off)) as [[b eb] ob] eqn:Hb.
    destruct (mmap_ReadByte off b eb ob Hoff Hb) as (-> & Hob & Hrange).
    destruct eb as [eb|]; [intros [= <- <- <-]; done|].
    destruct (byte_to_Z b <? 128).
    + destruct (_ && _); intros [= <- <- <-]; done.
    + destruct ob as [rb offb]. cbn [rd_off] in *. injection Hob as ->.
      intros Hrec.
      assert (Hoffb : 0 <= offb <= Z.of_nat (length data)) by lia.
      destruct (IH _ _ _ _ _ _ _ Hoffb Hrec) as (-> & Ho & Hr).
      split; [reflexivity|]. split; [exact Ho|lia].
Qed.

Lemma mmap_ReadUvarint (off v : Z) (e : option error) (o : OffsetReader (list byte)) :
  0 <= off <= Z.of_nat (length data) ->
  ReadUvarint (mkOffsetReader data off) = (v, e, o) ->
  ReadUvarint (mkOffsetReader (mkMmap path data) off)
  = (v, e, mkOffsetReader (mkMmap path data) (rd_off o)) /\
  o = mkOffsetReader data (rd_off o) /\ off <= rd_off o <= Z.of_nat (length data).
Proof. apply mmap_ReadUvarint_loop. Qed.

Lemma mmap_ReadFull (off : Z) (n : nat) (bs : list byte) (e : option error)
    (o : OffsetReader (list byte)) :
  0 <= off <= Z.of_nat (length data) ->
  ReadFull (mkOffsetReader data off) n = (bs, e, o) ->
  ReadFull (mkOffsetReader (mkMmap path data) off) n
  = (bs, e, mkOffsetReader (mkMmap path data) (rd_off o)).
Proof.
  intros Hoff. unfold ReadFull. destruct n as [|n]; [intros [= <- <- <-]; reflexivity|].
  destruct (Read (mkOffsetReader data off) (S n)) as [[bs' e'] o'] eqn:Hr.
  destruct (mmap_Read (S n) off bs' e' o' Hoff ltac:(lia) Hr) as (-> & _ & _).
  destruct (S n <=? length bs')%nat; [intros [= <- <- <-]; reflexivity|].
  destruct e'; intros [= <- <- <-]; reflexivity.
Qed.

Lemma mmap_ReadCid (at_ : Z) :
  0 <= at_ <= Z.of_nat (length data) ->
  ReadCid (mkMmap path data) at_ = ReadCid data at_.
Proof.
  intros Hat. unfold ReadCid, NewOffsetReader.
  destruct (ReadUvarint (mkOffsetReader data at_)) as [[v1 e1] [r1 off1]] eqn:H1.
  destruct (mmap_ReadUvarint at_ _ _ _ Hat H1) as (-> & Ho1 & Hr1).
  cbn [rd_off] in *. injection Ho1 as ->.
  destruct e1; [reflexivity|].
  destruct (ReadUvarint (mkOffsetReader data off1)) as [[v2 e2] [r2 off2]] eqn:H2.
  destruct (mmap_ReadUvarint off1 _ _ _ ltac:(lia) H2) as (-> & Ho2 & Hr2).
  cbn [rd_off] in *. injection Ho2 as ->.
  destruct e2; [reflexivity|].
  destruct (ReadUvarint (mkOffsetReader data off2)) as [[v3 e3] [r3 off3]] eqn:H3.
  destruct (mmap_ReadUvarint off2 _ _ _ ltac:(lia) H3) as (-> & Ho3 & Hr3).
  cbn [rd_off] in *. injection Ho3 as ->.
  destruct e3; [reflexivity|].
  destruct (ReadUvarint (mkOffsetReader data off3)) as [[v4 e4] [r4 off4]] eqn:H4.
  destruct (mmap_ReadUvarint off3 _ _ _ ltac:(lia) H4) as (-> & Ho4 & Hr4).
  cbn [rd_off] in *. injection Ho4 as ->.
  destruct e4; [reflexivity|].
  destruct (ReadFull (mkOffsetReader data off4) (Z.to_nat v4)) as [[dg e5] o5] eqn:H5.
  rewrite (mmap_ReadFull off4 _ _ _ _ ltac:(lia) H5).
  destruct e5; reflexivity.
Qed.

(** Past its end a memory map refuses the offset, where a byte slice
    answers EOF. *)
Lemma mmap_ReadUvarint_past_end (off : Z) :
  Z.of_nat (length data) < off ->
  exists o,
    ReadUvarint (mkOffsetReader (mkMmap path data) off)
    = (0, Some (ErrIo "mmap: invalid ReadAt offset"), o).
Proof.
  intros Hoff. unfold ReadUvarint, MaxVarintLen64. rewrite ReadUvarint_loop_S.
  unfold ReadByte, Read, ReadAt, mmap_ReadAt. cbn [rd_r rd_off mm_data].
  destruct (Z.ltb_spec (Z.of_nat (length data)) off) as [_|?]; [|lia].
  rewrite orb_true_r. cbn. eauto.
Qed.

Section MmapWalk.
Context `{HeaderCodec}.

Lemma mmap_ReadHeader (hb rest : list byte) (h : CarHeader) :
  DecodeInto hb = Ok h -> Version h = 1 ->
  data = LdWrite [hb] ++ rest ->
  ReadHeader (bufio_NewReader (NewOffsetReader (mkMmap path data) 0)) = Ok h.
Proof.
  intros Hdec Hver Hd. rewrite LdWrite_single, <- app_assoc in Hd.
  assert (Hlen : Z.of_nat (length hb) <= Z.of_nat (length data)).
  { rewrite Hd, !length_app. lia. }
  unfold ReadHeader, bufio_NewReader, NewOffsetReader, LdRead.
  pose proof (ReadUvarint_PutUvarint data data_size (Z.of_nat (length hb)) []
                (hb ++ rest) ltac:(lia) Hd) as Hu.
  change (Z.of_nat (length (@nil byte))) with 0 in Hu.
  destruct (mmap_ReadUvarint 0 _ _ _ ltac:(lia) Hu) as (-> & _ & Hr).
  cbn [rd_off] in Hr |- *. rewrite Nat2Z.id.
  pose proof (ReadFull_bytes_at data data_size
                ([] ++ PutUvarint (Z.of_nat (length hb))) hb rest
                ltac:(rewrite <- app_assoc; exact Hd)) as Hf.
  rewrite length_app in Hf. cbn [length Nat.add] in Hf.
  change (Z.of_nat 0) with 0 in *.
  rewrite (mmap_ReadFull (0 + Z.of_nat (length (PutUvarint (Z.of_nat (length hb))))) _ _ _ _ ltac:(lia) Hf).
  cbn [fst]. rewrite Hdec, Hver. reflexivity.
Qed.

(** The walk of [Generate] over the map passes over whole frames as it does
    over the bytes. *)
Lemma mmap_Generate_loop_skip_frames (blocks : list (Cid * list byte)) :
  forall (pre tail : list byte) (acc : list index.Record_) (fuel : nat),
    data = pre ++ concat (map frame_bytes blocks) ++ tail ->
    Forall (fun blk => wf_Cid (fst blk)) blocks ->
    index.Generate_loop (length blocks + fuel) (mkMmap path data)
      (mkOffsetReader (mkMmap path data) (Z.of_nat (length pre))) acc
    = index.Generate_loop fuel (mkMmap path data)
        (mkOffsetReader (mkMmap path data)
           (Z.of_nat (length (pre ++ concat (map frame_bytes blocks)))))
        (acc ++ frame_records (Z.of_nat (length pre)) blocks).
Proof.
  induction blocks as [|[c d] blocks IH]; intros pre tail acc fuel Hd Hwf.
  - cbn [map concat length Nat.add]. unfold frame_records. cbn [map frame_offsets zip_with].
    rewrite !app_nil_r. reflexivity.
  - apply Forall_cons in Hwf as [Hc Hwf]. cbn [fst] in Hc.
    cbn [map concat] in Hd. rewrite <- app_assoc in Hd.
    cbn [length Nat.add index.Generate_loop].
    pose proof (frame_end_le data pre _ c d Hd) as Hend.
    pose proof (frame_L_range data data_size pre _ c d Hd) as HL.
    destruct (mmap_ReadUvarint (Z.of_nat (length pre)) _ _ _ ltac:(lia)
                (frame_ReadUvarint data data_size pre _ c d Hd)) as (-> & _ & _).
    unfold Offset. cbn [rd_off].
    rewrite mmap_ReadCid by lia.
    rewrite (frame_ReadCid data data_size pre _ c d Hc Hd).
    rewrite (int64_small (Z.of_nat (length (cid_bytes c ++ d)))) by lia.
    rewrite int64_small by lia.
    rewrite uint64_small by lia.
    unfold SeekOffset. cbn [rd_r].
    replace (Z.of_nat (length pre) +
             Z.of_nat (length (PutUvarint (Z.of_nat (length (cid_bytes c ++ d))))) +
             Z.of_nat (length (cid_bytes c ++ d)))
      with (Z.of_nat (length (pre ++ frame_bytes (c, d))))
      by (rewrite length_app, Nat2Z.inj_add, frame_bytes_length; lia).
    rewrite (IH (pre ++ frame_bytes (c, d)) tail).
    + rewrite <- !app_assoc. unfold frame_records.
      cbn [map concat frame_offsets fst zip_with].
      rewrite (length_app pre (frame_bytes (c, d))), Nat2Z.inj_add. reflexivity.
    + rewrite <- app_assoc. exact Hd.
    + exact Hwf.
Qed.
End MmapWalk.
End MmapReader.

(** ** A payload cut short inside its last frame *)

Lemma frame_records_snoc (blocks : list (Cid * list byte)) (blk : Cid * list byte) :
  forall off : Z,
    frame_records off (blocks ++ [blk])
    = frame_records off blocks ++
      [index.mkRecord (fst blk)
         (off + Z.of_nat (length (concat (map frame_bytes blocks))))].
Proof.
  induction blocks as [|b0 blocks IH]; intros off.
  - unfold frame_records. cbn [app map frame_offsets zip_with concat length].
    rewrite Z.add_0_r. reflexivity.
  - unfold frame_records in *. cbn [app map frame_offsets zip_with concat].
    rewrite IH. cbn [app]. do 3 f_equal.
    rewrite length_app, Nat2Z.inj_add. f_equal. lia.
Qed.

Section Truncated.
Context `{HeaderCodec}.
Variables (P : list byte) (h : CarHeader) (blocks : list (Cid * list byte)).
Variables (c : Cid) (kept lost : list byte).
Hypothesis P_wf : wf_CarV1 P h (blocks ++ [(c, kept ++ lost)]).

(** Over a byte slice held in memory, [Generate] does not notice missing
    frame data: on the payload without the last [lost] bytes of its last
    frame's data it walks the same frames, its seek past the end of the
    slice is answered with EOF, and it loads the same records and returns
    what it returns on the whole payload. *)
Theorem Generate_ignores_missing_frame_data (fuel : nat) :
  (length blocks + 1 < fuel)%nat ->
  index.Generate fuel (take (length P - length lost) P) = index.Generate fuel P.
Proof.
  intros Hfuel.
  destruct P_wf as (hb & Hdump & Hdec & Hver & HP & Hcids & Hsize).
  unfold carv1_bytes in HP.
  rewrite map_app, concat_app in HP. cbn [map concat] in HP.
  rewrite app_nil_r in HP.
  apply Forall_app in Hcids as [Hcids Hc].
  apply Forall_cons in Hc as [Hc _]. cbn [fst] in Hc.
  set (hd := LdWrite [hb]) in *.
  set (F := concat (map frame_bytes blocks)) in *.
  set (L := Z.of_nat (length (cid_bytes c ++ kept ++ lost))).
  set (P' := take (length P - length lost) P).
  assert (HP' : P' = hd ++ F ++ PutUvarint L ++ cid_bytes c ++ kept).
  { unfold P'. rewrite HP, frame_bytes_unfold. fold L.
    replace (hd ++ F ++ PutUvarint L ++ cid_bytes c ++ kept ++ lost)
      with ((hd ++ F ++ PutUvarint L ++ cid_bytes c ++ kept) ++ lost)
      by (rewrite <- !app_assoc; reflexivity).
    apply take_app_length'. rewrite (length_app _ lost). lia. }
  assert (Hlen : Z.of_nat (length P)
                 = Z.of_nat (length (hd ++ F)) + Z.of_nat (length (PutUvarint L)) + L).
  { rewrite HP, frame_bytes_unfold. fold L. unfold L.
    rewrite !length_app. lia. }
  assert (Hsize' : Z.of_nat (length P') < 2 ^ 63).
  { unfold P'. rewrite length_take. lia. }
  assert (Hlen' : Z.of_nat (length P') <= Z.of_nat (length P)).
  { unfold P'. rewrite length_take. lia. }
  assert (HL : 0 <= L < 2 ^ 63) by (unfold L in *; lia).
  assert (Hhd : Z.of_nat (length hd) <= Z.of_nat (length P')).
  { rewrite HP', length_app. lia. }
  (* the whole payload *)
  assert (Hwhole : index.Generate fuel P
                   = match index.Load index.mkSorted
                             (frame_records (Z.of_nat (length hd))
                                (blocks ++ [(c, kept ++ lost)])) with
                     | Err e => Some (Err e)
                     | Ok idx => Some (Ok idx)
                     end).
  { unfold index.Generate.
    rewrite (ReadHeader_at_start P Hsize hb _ h Hdec Hver HP).
    rewrite (HeaderSize_of_dump hb h Hdump) by (fold hd; lia).
    fold hd. unfold NewOffsetReader. rewrite int64_small by lia.
    rewrite (Generate_loop_frames P Hsize (blocks ++ [(c, kept ++ lost)]) hd [] fuel).
    - reflexivity.
    - rewrite map_app, concat_app. cbn [map concat]. rewrite app_nil_r. exact HP.
    - apply Forall_app. split; [exact Hcids|]. apply Forall_cons. done.
    - rewrite length_app. cbn [length]. lia. }
  rewrite Hwhole. clear Hwhole.
  (* the payload cut short *)
  unfold index.Generate. fold P'.
  rewrite (ReadHeader_at_start P' Hsize' hb _ h Hdec Hver HP').
  rewrite (HeaderSize_of_dump hb h Hdump) by (fold hd; lia).
  fold hd. unfold NewOffsetReader. rewrite int64_small by lia.
  destruct fuel as [|[|fuel]]; [lia|lia|].
  replace (S (S fuel)) with (length blocks + S (S (fuel - length blocks)))%nat by lia.
  rewrite (Generate_loop_skip_frames P' Hsize' blocks hd
             (PutUvarint L ++ cid_bytes c ++ kept) [] _ HP' Hcids).
  fold F. cbn [app].
  (* the last frame: its varint and its CID are there *)
  cbn [index.Generate_loop].
  rewrite (ReadUvarint_PutUvarint P' Hsize' L (hd ++ F) (cid_bytes c ++ kept));
    [|lia|rewrite HP', <- !app_assoc; reflexivity].
  unfold Offset. cbn [rd_off].
  replace (Z.of_nat (length (hd ++ F)) + Z.of_nat (length (PutUvarint L)))
    with (Z.of_nat (length ((hd ++ F) ++ PutUvarint L)))
    by (rewrite (length_app (hd ++ F)); lia).
  rewrite (ReadCid_cid_bytes P' Hsize' c _ kept Hc);
    [|rewrite HP', <- !app_assoc; reflexivity].
  rewrite (int64_small L) by lia.
  rewrite (length_app (hd ++ F)), Nat2Z.inj_add.
  rewrite int64_small by lia.
  unfold SeekOffset. cbn [rd_r].
  rewrite ReadUvarint_past_end by lia.
  rewrite bool_decide_eq_true_2 by reflexivity.
  rewrite uint64_small by lia.
  rewrite frame_records_snoc. cbn [fst]. fold F.
  rewrite (length_app hd F), Nat2Z.inj_add. reflexivity.
Qed.

(** Read from a file, the same cut payload is refused. [GenerateFromFile]
    maps the file and walks the same frames, but its seek past the end of
    the map is answered with the map's invalid-offset error instead of EOF:
    it returns that error where [Generate] over the bytes in memory returns
    an index. The mapping is closed on the way out; the disk and the open
    mappings are as before. *)
Theorem GenerateFromFile_rejects_cut_last_frame (fuel : nat) (path : string)
    (w : World) :
  lost <> [] ->
  (length blocks + 1 < fuel)%nat ->
  files w !! path = Some (take (length P - length lost) P) ->
  index.GenerateFromFile fuel path w
  = (Some (Err (ErrIo "mmap: invalid ReadAt offset")), w).
Proof.
  intros Hlost Hfuel Hfile.
  destruct P_wf as (hb & Hdump & Hdec & Hver & HP & Hcids & Hsize).
  unfold carv1_bytes in HP.
  rewrite map_app, concat_app in HP. cbn [map concat] in HP.
  rewrite app_nil_r in HP.
  apply Forall_app in Hcids as [Hcids Hc].
  apply Forall_cons in Hc as [Hc _]. cbn [fst] in Hc.
  set (hd := LdWrite [hb]) in *.
  set (F := concat (map frame_bytes blocks)) in *.
  set (L := Z.of_nat (length (cid_bytes c ++ kept ++ lost))).
  set (P' := take (length P - length lost) P) in *.
  assert (HP' : P' = hd ++ F ++ PutUvarint L ++ cid_bytes c ++ kept).
  { unfold P'. rewrite HP, frame_bytes_unfold. fold L.
    replace (hd ++ F ++ PutUvarint L ++ cid_bytes c ++ kept ++ lost)
      with ((hd ++ F ++ PutUvarint L ++ cid_bytes c ++ kept) ++ lost)
      by (rewrite <- !app_assoc; reflexivity).
    apply take_app_length'. rewrite (length_app _ lost). lia. }
  assert (Hlen : Z.of_nat (length P)
                 = Z.of_nat (length (hd ++ F)) + Z.of_nat (length (PutUvarint L)) + L).
  { rewrite HP, frame_bytes_unfold. fold L. unfold L.
    rewrite !length_app. lia. }
  assert (Hlost' : (0 < length lost)%nat) by (destruct lost; [done|cbn; lia]).
  assert (Hcut : Z.of_nat (length P') = Z.of_nat (length P) - Z.of_nat (length lost)).
  { rewrite HP', Hlen. unfold L. rewrite !length_app. lia. }
  assert (Hsize' : Z.of_nat (length P') < 2 ^ 63) by lia.
  assert (HL : 0 <= L < 2 ^ 63) by (unfold L in *; lia).
  assert (Hhd : Z.of_nat (length hd) <= Z.of_nat (length P')).
  { rewrite HP', length_app. lia. }
  assert (Hgen : index.Generate fuel (mkMmap path P')
                 = Some (Err (ErrIo "mmap: invalid ReadAt offset"))).
  { unfold index.Generate.
    rewrite (mmap_ReadHeader path P' Hsize' hb _ h Hdec Hver HP').
    rewrite (HeaderSize_of_dump hb h Hdump) by (fold hd; lia).
    fold hd. unfold NewOffsetReader. rewrite int64_small by lia.
    destruct fuel as [|[|fuel']]; [lia|lia|].
    replace (S (S fuel')) with (length blocks + S (S (fuel' - length blocks)))%nat by lia.
    rewrite (mmap_Generate_loop_skip_frames path P' Hsize' blocks hd
               (PutUvarint L ++ cid_bytes c ++ kept) [] _ HP' Hcids).
    fold F. cbn [app].
    cbn [index.Generate_loop].
    assert (HF : Z.of_nat (length (hd ++ F)) + Z.of_nat (length (PutUvarint L))
                 <= Z.of_nat (length P')).
    { rewrite HP', !length_app. lia. }
    destruct (mmap_ReadUvarint path P' Hsize' (Z.of_nat (length (hd ++ F))) _ _ _
                ltac:(lia)
                (ReadUvarint_PutUvarint P' Hsize' L (hd ++ F) (cid_bytes c ++ kept)
                   ltac:(lia) ltac:(rewrite HP', <- !app_assoc; reflexivity)))
      as (-> & _ & _).
    unfold Offset. cbn [rd_off].
    rewrite (mmap_ReadCid path P' Hsize') by lia.
    replace (Z.of_nat (length (hd ++ F)) + Z.of_nat (length (PutUvarint L)))
      with (Z.of_nat (length ((hd ++ F) ++ PutUvarint L)))
      by (rewrite (length_app (hd ++ F)); lia).
    rewrite (ReadCid_cid_bytes P' Hsize' c _ kept Hc);
      [|rewrite HP', <- !app_assoc; reflexivity].
    rewrite (int64_small L) by lia.
    rewrite (length_app (hd ++ F)), Nat2Z.inj_add.
    rewrite int64_small by lia.
    unfold SeekOffset. cbn [rd_r].
    destruct (mmap_ReadUvarint_past_end path P'
                (Z.of_nat (length (hd ++ F)) + Z.of_nat (length (PutUvarint L)) + L)
                ltac:(lia)) as (o & ->).
    rewrite bool_decide_eq_false_2 by discriminate. reflexivity. }
  unfold index.GenerateFromFile, mmap_Open. rewrite Hfile, Hgen.
  f_equal. destruct w as [fs ms]. unfold mmap_Close. cbn [files mapped mm_path remove_first].
  rewrite bool_decide_eq_true_2 by reflexivity. reflexivity.
Qed.
End Truncated.

Lemma Generate_ignores_missing_frame_data_witness :
  @index.Generate _ _ empty_roots_codec 4
    (take (length sample_car - length [x63]) sample_car)
  = @index.Generate _ _ empty_roots_codec 4 sample_car.
Proof.
  apply (@Generate_ignores_missing_frame_data empty_roots_codec sample_car
           sample_header [(cid_a, [x61]); (cid_b, [x62; x62])] cid_c [x63; x63] [x63]).
  - exact sample_car_wf.
  - simpl. lia.
Defined.

Lemma GenerateFromFile_rejects_cut_last_frame_witness :
  @index.GenerateFromFile empty_roots_codec 4 "cut.car"
    (mkWorld {[ "cut.car" := take (length sample_car - length [x63]) sample_car ]}
       ["other.car"])
  = (Some (Err (ErrIo "mmap: invalid ReadAt offset")),
     mkWorld {[ "cut.car" := take (length sample_car - length [x63]) sample_car ]}
       ["other.car"]).
Proof.
  apply (@GenerateFromFile_rejects_cut_last_frame empty_roots_codec sample_car
           sample_header [(cid_a, [x61]); (cid_b, [x62; x62])] cid_c [x63; x63] [x63]).
  - exact sample_car_wf.
  - discriminate.
  - simpl. lia.
  - vm_compute. reflexivity.
Defined.

(** ** [OpenReadOnly] on the disk *)

Section OpenOnDisk.
Context `{HeaderCodec}.
Variable Attach : string -> index.multiWidthIndex -> Z -> World -> option error * World.
Variable ReadFrom : OffsetReader mmap_ReaderAt -> result index.multiWidthIndex.

(** Whenever [OpenReadOnly] attaches the generated index, the offset it
    passes is zero: [Attach] is only reached when the header's index offset
    is zero, and that field is what is passed. Replacing the offset argument
    of [Attach] by zero changes nothing. *)
Theorem OpenReadOnly_attaches_at_offset_zero (fuel : nat) (path : string)
    (attachIndex : bool) (w : World) :
  blockstore.OpenReadOnly Attach ReadFrom fuel path attachIndex w
  = blockstore.OpenReadOnly (fun p idx _ w0 => Attach p idx 0 w0) ReadFrom
      fuel path attachIndex w.
Proof.
  unfold blockstore.OpenReadOnly.
  destruct (mmap_Open path w) as [[reader|e] w1]; [|reflexivity].
  destruct (carv2.NewReader reader) as [v2r|e]; [|reflexivity].
  unfold carv2.HasIndex.
  destruct (Z.eqb_spec (carv2.IndexOffset (carv2.reader_Header v2r)) 0) as [Hz|_];
    [|reflexivity].
  cbn [negb]. rewrite Hz. reflexivity.
Qed.

(** No path through [OpenReadOnly] closes a mapping: if the file cannot be
    opened the world is unchanged, otherwise exactly one more mapping of
    [path] is open when it returns, on success and on every error alike
    (provided [Attach] itself opens and closes none). *)
Theorem OpenReadOnly_keeps_the_mapping_open (fuel : nat) (path : string)
    (attachIndex : bool) (w w' : World)
    (res : option (result (blockstore.ReadOnly (SectionReader mmap_ReaderAt)
                             index.multiWidthIndex))) :
  (forall p i o w0, mapped (Attach p i o w0).2 = mapped w0) ->
  blockstore.OpenReadOnly Attach ReadFrom fuel path attachIndex w = (res, w') ->
  match files w !! path with
  | None => w' = w /\ res = Some (Err ErrNoSuchFile)
  | Some _ => mapped w' = path :: mapped w
  end.
Proof.
  intros Hattach. unfold blockstore.OpenReadOnly, mmap_Open.
  destruct (files w !! path) as [data|]; [|intros [= <- <-]; done].
  destruct (carv2.NewReader _) as [v2r|e]; [|intros [= _ <-]; reflexivity].
  destruct (negb _).
  - destruct (index.Generate _ _) as [[idx'|e]|]; try (intros [= _ <-]; reflexivity).
    destruct attachIndex; [|intros [= _ <-]; reflexivity].
    destruct (Attach _ _ _ _) as [[e|] w1] eqn:Ha;
      pose proof (Hattach path idx' (carv2.IndexOffset (carv2.reader_Header v2r))
                    (mkWorld (files w) (path :: mapped w))) as Hm;
      rewrite Ha in Hm; intros [= _ <-]; exact Hm.
  - destruct (ReadFrom _); intros [= _ <-]; reflexivity.
Qed.
End OpenOnDisk.

Lemma OpenReadOnly_keeps_the_mapping_open_witness :
  match files sample_world !! "sample.car" with
  | None =>
    (blockstore.OpenReadOnly (H := empty_roots_codec) no_Attach no_ReadFrom 4
       "sample.car" true sample_world).2 = sample_world /\
    (blockstore.OpenReadOnly (H := empty_roots_codec) no_Attach no_ReadFrom 4
       "sample.car" true sample_world).1 = Some (Err ErrNoSuchFile)
  | Some _ =>
    mapped (blockstore.OpenReadOnly (H := empty_roots_codec) no_Attach no_ReadFrom 4
              "sample.car" true sample_world).2
    = "sample.car" :: mapped sample_world
  end.
Proof.
  apply (@OpenReadOnly_keeps_the_mapping_open empty_roots_codec no_Attach no_ReadFrom
           4 "sample.car" true sample_world _ _).
  - reflexivity.
  - apply surjective_pairing.
Defined.

(** ** [AllKeysChan] against the walk of [Generate] *)

Section KeysVsIndex.
Context {R I : Type} `{ReaderAt R} `{HeaderCodec}.
Variable b : blockstore.ReadOnly R I.

Lemma Generate_loop_acc (fuel : nat) (rdr : OffsetReader R) (acc : list index.Record_) :
  index.Generate_loop fuel (blockstore.backing b) rdr acc
  = match index.Generate_loop fuel (blockstore.backing b) rdr [] with
    | Some (Ok ks) => Some (Ok (acc ++ ks))
    | r => r
    end.
Proof.
  revert rdr acc. induction fuel as [|fuel IH]; intros rdr acc; [reflexivity|].
  cbn [index.Generate_loop].
  destruct (ReadUvarint rdr) as [[l err] rdr'].
  destruct err as [e|].
  - destruct (bool_decide (e = EOF)); [rewrite app_nil_r|]; reflexivity.
  - destruct (ReadCid _ _) as [[c n]|e]; [|reflexivity].
    rewrite (IH _ (acc ++ _)), (IH _ ([] ++ _)).
    destruct (index.Generate_loop fuel _ _ []) as [[ks|e]|]; try reflexivity.
    rewrite <- !app_assoc. reflexivity.
Qed.

Lemma step_walk_keys_invariant (keys : list Cid) (s s' : blockstore.system R)
    (ev : blockstore.event) :
  walk_keys_invariant b keys s -> blockstore.step b s ev s' ->
  walk_keys_invariant b keys s'.
Proof.
  intros (rest & Hk & Hp) Hstep. unfold walk_keys_invariant, emitted in *.
  revert Hk.
  inversion Hstep; subst; cbn [blockstore.sys_producer blockstore.sys_received
    blockstore.sys_ch blockstore.ch_buf] in *; intros Hk.
  - destruct Hp as (fuel & recs & Hg & ->).
    destruct fuel as [|fuel]; [discriminate|].
    cbn [index.Generate_loop] in Hg. unfold blockstore.loop_body.
    destruct (ReadUvarint rdr) as [[l err] rdr'].
    destruct err as [e|]; [exists (map index.rec_Cid recs); done|].
    destruct (ReadCid _ _) as [[c n]|e]; [|discriminate].
    rewrite Generate_loop_acc in Hg.
    destruct (index.Generate_loop fuel _ _ []) as [[ks|e]|] eqn:Hks; try discriminate.
    injection Hg as <-. exists (c :: map index.rec_Cid ks). split; [exact Hk|].
    exists fuel, ks. done.
  - destruct Hp as (fuel & recs & Hg & ->). exists (map index.rec_Cid recs).
    split; [rewrite Hk, <- !app_assoc; reflexivity|]. exists fuel, recs. done.
  - exists rest. done.
  - exists rest. split; [rewrite Hk, <- !app_assoc; reflexivity|exact Hp].
  - exists rest. done.
  - exists rest. done.
Qed.

Lemma run_walk_keys_invariant (keys : list Cid) (s s' : blockstore.system R)
    (tr : list blockstore.event) :
  walk_keys_invariant b keys s -> blockstore.run b s tr s' ->
  walk_keys_invariant b keys s'.
Proof.
  intros Hinv Hrun. induction Hrun as [|s tr s' ev s'' _ IH Hstep]; [exact Hinv|].
  eapply step_walk_keys_invariant; [apply IH; exact Hinv|exact Hstep].
Qed.

Lemma walk_delivers (fuel : nat) (rdr : OffsetReader R) (rcv : list Cid)
    (recs : list index.Record_) :
  index.Generate_loop fuel (blockstore.backing b) rdr [] = Some (Ok recs) ->
  exists tr,
    blockstore.run b
      (blockstore.mkSystem (blockstore.Loop rdr) (blockstore.mkChan [] false) false rcv false)
      tr
      (blockstore.mkSystem blockstore.Returned (blockstore.mkChan [] false) false
         (rcv ++ map index.rec_Cid recs) false).
Proof.
  revert rdr rcv recs. induction fuel as [|fuel IH]; intros rdr rcv recs Hg; [discriminate|].
  cbn [index.Generate_loop] in Hg.
  pose proof (blockstore.step_read b rdr (blockstore.mkChan [] false) false rcv false)
    as Hread.
  unfold blockstore.loop_body in Hread.
  destruct (ReadUvarint rdr) as [[l err] rdr'].
  destruct err as [e|].
  - destruct (bool_decide (e = EOF)); [|discriminate]. injection Hg as <-.
    exists [blockstore.EvRead]. cbn [map]. rewrite app_nil_r.
    eapply run_cons; [exact Hread|constructor].
  - destruct (ReadCid _ _) as [[c n]|e]; [|discriminate].
    rewrite Generate_loop_acc in Hg.
    destruct (index.Generate_loop fuel _ _ []) as [[ks|e]|] eqn:Hks; try discriminate.
    injection Hg as <-.
    destruct (IH _ (rcv ++ [c]) ks Hks) as (tr & Hrun).
    exists (blockstore.EvRead :: blockstore.EvSend c :: blockstore.EvRecv c :: tr).
    eapply run_cons; [exact Hread|].
    eapply run_cons; [apply (blockstore.step_send b c _ [] false false rcv false);
                      [unfold blockstore.ch_cap; simpl; lia|reflexivity]|].
    eapply run_cons; [apply (blockstore.step_recv b _ c [] false false rcv false)|].
    cbn [map app]. rewrite <- app_assoc in Hrun. exact Hrun.
Qed.

(** On every backing, well formed or not, on which the walk of
    [index.Generate] ends at EOF with the records [records]: [AllKeysChan]
    starts its producer at the same offset, whatever the consumer has
    received and the channel still queues is at every moment a first part of
    the CIDs of [records], in their order, with or without cancellation; and
    there is an execution in which the consumer receives all of them and the
    producer returns. *)
Theorem AllKeysChan_streams_the_keys_Generate_records (fuel : nat)
    (header : CarHeader) (offset : Z) (records : list index.Record_) :
  ReadHeader (bufio_NewReader (NewOffsetReader (blockstore.backing b) 0)) = Ok header ->
  HeaderSize header = Ok offset ->
  index.Generate_loop fuel (blockstore.backing b)
    (NewOffsetReader (blockstore.backing b) (int64 offset)) [] = Some (Ok records) ->
  exists s0,
    blockstore.AllKeysChan b false = Ok s0 /\
    (forall tr s, blockstore.run b s0 tr s ->
       exists rest, map index.rec_Cid records = emitted s ++ rest) /\
    (exists tr, blockstore.run b s0 tr
       (blockstore.mkSystem blockstore.Returned (blockstore.mkChan [] false) false
          (map index.rec_Cid records) false)).
Proof.
  intros Hh Hs Hg. eexists. split; [|split].
  - unfold blockstore.AllKeysChan. rewrite Hh, Hs. reflexivity.
  - intros tr s Hrun.
    apply (run_walk_keys_invariant (map index.rec_Cid records)) in Hrun.
    + destruct Hrun as (rest & Hk & _). exists rest. exact Hk.
    + exists (map index.rec_Cid records). split; [reflexivity|].
      cbn [blockstore.sys_producer]. exists fuel, records. done.
  - apply (walk_delivers fuel _ [] records Hg).
Qed.
End KeysVsIndex.

Lemma AllKeysChan_streams_the_keys_Generate_records_witness :
  exists s0,
    @blockstore.AllKeysChan _ _ _ empty_roots_codec sample_store false = Ok s0 /\
    (forall tr s, blockstore.run sample_store s0 tr s ->
       exists rest,
         map index.rec_Cid
           [index.mkRecord cid_a 18; index.mkRecord cid_b 28; index.mkRecord cid_c 39]
         = emitted s ++ rest) /\
    (exists tr, blockstore.run sample_store s0 tr
       (blockstore.mkSystem blockstore.Returned (blockstore.mkChan [] false) false
          (map index.rec_Cid
             [index.mkRecord cid_a 18; index.mkRecord cid_b 28; index.mkRecord cid_c 39])
          false)).
Proof.
  apply (@AllKeysChan_streams_the_keys_Generate_records _ _ _ empty_roots_codec
           sample_store 4 sample_header 18
           [index.mkRecord cid_a 18; index.mkRecord cid_b 28; index.mkRecord cid_c 39]).
  - vm_compute. reflexivity.
  - vm_compute. reflexivity.
  - vm_compute. reflexivity.
Defined.
